(** * A model of the news aggregator and of its thread pool

    The development follows the two translation units of the repository:

    - [thread-pool.cc]: the [ThreadPool] class (scheduler, dispatcher,
      workers, [wait]);
    - [news-aggregator.cc]: the [NewsAggregator] class, which drives a feed
      pool and an article pool over a shared set of seen URLs and a shared
      intermediate index.

    Sequential code is embedded as functions.  Threads are embedded as
    program counters; one step of a thread is one semaphore operation or one
    critical section of the source, so that every interleaving the locks of
    the source allow is a sequence of steps of the model. *)

From Stdlib Require Import ZArith Lia.
From stdpp Require Import gmap strings list sorting.

Local Open Scope Z_scope.
Local Open Scope nat_scope.

(** ** Strings as [std::string] orders them *)

(** [operator<] on [std::string] is the lexicographic order on the bytes,
    which is [String.ltb]. *)

Module StrOrd.

Definition lt (a b : string) : Prop := String.ltb a b = true.

Definition le (a b : string) : Prop := String.ltb b a = false.

Global Instance le_dec a b : Decision (le a b).
Proof. unfold le. apply _. Defined.

End StrOrd.

(** ** The two standard algorithms the article task calls *)

(** [std::sort] with the default comparison (line 200 of
    news-aggregator.cc).  On a total order every sorting algorithm computes
    the same list, so merge sort stands for it. *)
Definition sort (tokens : list string) : list string :=
  merge_sort StrOrd.le tokens.

(** [std::set_intersection] over two ranges: walk both, skip the smaller
    head, copy a head that is in both and advance both. *)
Fixpoint set_intersection (l1 : list string) : list string → list string :=
  fix inner (l2 : list string) : list string :=
    match l1, l2 with
    | x :: l1', y :: l2' =>
        if String.ltb x y then set_intersection l1' l2
        else if String.ltb y x then inner l2'
        else x :: set_intersection l1' l2'
    | _, _ => []
    end.

(** ** Articles and the intermediate index *)

(** Modelled from the spec: [article.h] is not among the sources; the spec
    gives an article as a title and a URL. *)
Record Article := mkArticle { url : string; title : string }.

Global Instance Article_eq_dec : EqDecision Article.
Proof. solve_decision. Defined.

Section Merge.

Variable getURLServer : string → string.

(** [getURLServer] comes from [utils.h], which is not among the sources: it
    maps a URL to its server. *)

(** Lines 202-216 of news-aggregator.cc: the critical section of an article
    task, run with [intermediateIndexLock] held. *)
Definition mergeUpdate (currentArticle : Article) (sortedTokens : list string)
    (intermediateIndex : gmap (string * string) (Article * list string))
    : gmap (string * string) (Article * list string) :=
  let articleURL := url currentArticle in
  let articleIden := (title currentArticle, getURLServer articleURL) in
  match intermediateIndex !! articleIden with
  | Some (existing, existingTokens) =>
      let existingURL := url existing in
      let revisedArticle :=
        {| url := if String.ltb existingURL articleURL
                  then existingURL else articleURL;
           title := title currentArticle |} in
      let intersectTokens := set_intersection existingTokens sortedTokens in
      <[articleIden := (revisedArticle, intersectTokens)]> intermediateIndex
  | None =>
      <[articleIden := (currentArticle, sortedTokens)]> intermediateIndex
  end.

(** Lines 198-216: what an article task does with the tokens of its parsed
    document. *)
Definition articleUpdate
    (intermediateIndex : gmap (string * string) (Article * list string))
    (parsed : Article * list string)
    : gmap (string * string) (Article * list string) :=
  mergeUpdate parsed.1 (sort parsed.2) intermediateIndex.

Definition keyOf (a : Article) : string * string :=
  (title a, getURLServer (url a)).

End Merge.

(** ** The thread pool (thread-pool.h, thread-pool.cc) *)

(** A pool is generic in the thunks it runs: [T] is the type of a scheduled
    thunk and [C] the type of the states a running thunk goes through;
    [start t] is the state in which the thunk [t] begins. *)

Section ThreadPool.

Context {T C : Type}.
Variable start : T → C.

(** Where a worker thread stands in [ThreadPool::worker] (lines 70-93). *)
Inductive workerPC : Type :=
  | WWait                 (* line 72: thunkToExecute.wait() *)
  | WCheck                (* lines 74-78: test exitFlag, call the thunk *)
  | WRun (c : C)          (* line 78: inside the thunk *)
  | WDecr                 (* lines 80-85: decrement, notify *)
  | WFree                 (* lines 87-89: workerInUse = false *)
  | WSignal               (* line 91: workerIsAvailable.signal() *)
  | WExit.                (* left the loop *)

(** [workerStruct] of thread-pool.h.  [workerThread] is [None] until the
    dispatcher creates the thread. *)
Record workerStruct : Type := mkWorker {
  workerThread : option workerPC;
  workerThunk : option T;
  thunkToExecute : nat;
  workerInUse : bool
}.

(** Where the dispatcher thread stands in [ThreadPool::dispatcher]
    (lines 30-68). *)
Inductive dispatcherPC : Type :=
  | DWaitThunk            (* line 32: newThunkFromScheduler.wait() *)
  | DWaitWorker           (* line 33: workerIsAvailable.wait() *)
  | DScan                 (* lines 35-56: test exitFlag, pick a worker *)
  | DPop (availableWorkerID : Z)                    (* lines 58-61 *)
  | DHand (availableWorkerID : Z) (currentThunk : T) (* lines 63-66 *)
  | DExit.                (* left the loop *)

(** The members of [ThreadPool].  A mutex is not a field of its own: what it
    protects changes in one step.  The two exceptions are [workersLock],
    which the dispatcher leaves locked when its scan finds no worker, and the
    condition variable, which is the set of threads blocked on it.
    The class [semaphore] is declared in a header that is not among the
    sources; it is taken as a counting semaphore: a natural number, [wait]
    blocks while it is zero and decrements it, [signal] increments it.
    [pendingThunks] is an [int]; the model leaves it unbounded, and
    [inv_live] below shows that it counts the thunks in flight.
    [spawnLog] lists the indices at which worker threads were created, in
    order.  The destructor is not part of the model: [exitFlag] is read but
    never set. *)
Record ThreadPool : Type := mkPool {
  workerVector : list workerStruct;
  dispatcherThread : dispatcherPC;
  thunkQueue : list T;
  nextSpawnID : nat;
  pendingThunks : Z;
  exitFlag : bool;
  workersLock : bool;
  pendingThunksCondVar : gset nat;
  workerIsAvailable : nat;
  newThunkFromScheduler : nat;
  spawnLog : list nat
}.

Definition set_workerVector (ws : list workerStruct) (p : ThreadPool) :=
  mkPool ws (dispatcherThread p) (thunkQueue p) (nextSpawnID p)
    (pendingThunks p) (exitFlag p) (workersLock p) (pendingThunksCondVar p)
    (workerIsAvailable p) (newThunkFromScheduler p) (spawnLog p).

Definition set_dispatcherThread (d : dispatcherPC) (p : ThreadPool) :=
  mkPool (workerVector p) d (thunkQueue p) (nextSpawnID p)
    (pendingThunks p) (exitFlag p) (workersLock p) (pendingThunksCondVar p)
    (workerIsAvailable p) (newThunkFromScheduler p) (spawnLog p).

Definition set_thunkQueue (q : list T) (p : ThreadPool) :=
  mkPool (workerVector p) (dispatcherThread p) q (nextSpawnID p)
    (pendingThunks p) (exitFlag p) (workersLock p) (pendingThunksCondVar p)
    (workerIsAvailable p) (newThunkFromScheduler p) (spawnLog p).

Definition set_pendingThunks (n : Z) (p : ThreadPool) :=
  mkPool (workerVector p) (dispatcherThread p) (thunkQueue p) (nextSpawnID p)
    n (exitFlag p) (workersLock p) (pendingThunksCondVar p)
    (workerIsAvailable p) (newThunkFromScheduler p) (spawnLog p).

Definition set_pendingThunksCondVar (cv : gset nat) (p : ThreadPool) :=
  mkPool (workerVector p) (dispatcherThread p) (thunkQueue p) (nextSpawnID p)
    (pendingThunks p) (exitFlag p) (workersLock p) cv
    (workerIsAvailable p) (newThunkFromScheduler p) (spawnLog p).

Definition set_workerIsAvailable (n : nat) (p : ThreadPool) :=
  mkPool (workerVector p) (dispatcherThread p) (thunkQueue p) (nextSpawnID p)
    (pendingThunks p) (exitFlag p) (workersLock p) (pendingThunksCondVar p)
    n (newThunkFromScheduler p) (spawnLog p).

Definition set_newThunkFromScheduler (n : nat) (p : ThreadPool) :=
  mkPool (workerVector p) (dispatcherThread p) (thunkQueue p) (nextSpawnID p)
    (pendingThunks p) (exitFlag p) (workersLock p) (pendingThunksCondVar p)
    (workerIsAvailable p) n (spawnLog p).

Definition set_workerThread (pc : option workerPC) (w : workerStruct) :=
  mkWorker pc (workerThunk w) (thunkToExecute w) (workerInUse w).

Definition set_workerThunk (t : option T) (w : workerStruct) :=
  mkWorker (workerThread w) t (thunkToExecute w) (workerInUse w).

Definition set_thunkToExecute (n : nat) (w : workerStruct) :=
  mkWorker (workerThread w) (workerThunk w) n (workerInUse w).

Definition set_workerInUse (b : bool) (w : workerStruct) :=
  mkWorker (workerThread w) (workerThunk w) (thunkToExecute w) b.

(** The constructor (lines 14-16): [numThreads] default workers, no thread
    but the dispatcher, [workerIsAvailable] at [numThreads] and
    [newThunkFromScheduler] at zero. *)
Definition ThreadPool_new (numThreads : nat) : ThreadPool :=
  {| workerVector := replicate numThreads (mkWorker None None 0 false);
     dispatcherThread := DWaitThunk;
     thunkQueue := [];
     nextSpawnID := 0;
     pendingThunks := 0;
     exitFlag := false;
     workersLock := false;
     pendingThunksCondVar := ∅;
     workerIsAvailable := numThreads;
     newThunkFromScheduler := 0;
     spawnLog := [] |}.

(** *** [schedule] (lines 18-28), one step per critical section *)

Definition schedule_push (thunk : T) (p : ThreadPool) : ThreadPool :=
  set_thunkQueue (thunkQueue p ++ [thunk]) p.              (* lines 19-21 *)

Definition schedule_count (p : ThreadPool) : ThreadPool :=
  set_pendingThunks (pendingThunks p + 1)%Z p.             (* lines 23-25 *)

Definition schedule_signal (p : ThreadPool) : ThreadPool :=
  set_newThunkFromScheduler (S (newThunkFromScheduler p)) p.  (* line 27 *)

(** *** [wait] (lines 95-100) *)

(** The predicate of the condition variable is tested with
    [pendingThunksLock] held: [wait] returns ([true]) on a zero counter, and
    otherwise the calling thread [tid] blocks on the condition variable. *)
Definition wait_test (tid : nat) (p : ThreadPool) : ThreadPool * bool :=
  if decide (pendingThunks p = 0%Z) then (p, true)
  else (set_pendingThunksCondVar ({[tid]} ∪ pendingThunksCondVar p) p, false).

(** A thread blocked in [wait] goes on once it is no longer in the set. *)
Definition wait_woken (tid : nat) (p : ThreadPool) : bool :=
  bool_decide (tid ∉ pendingThunksCondVar p).

(** A condition variable may wake a thread for no reason. *)
Definition spurious_wakeup (tid : nat) (p : ThreadPool) : ThreadPool :=
  set_pendingThunksCondVar (pendingThunksCondVar p ∖ {[tid]}) p.

(** *** The dispatcher (lines 30-68) *)

(** The loop of lines 41-56 from [candidateWorkerID] on; [fuel] bounds the
    number of iterations.  The result is [availableWorkerID] ([-1] when no
    worker was picked), the worker vector, [nextSpawnID] and the log of
    thread creations. *)
Fixpoint scan (fuel candidateWorkerID : nat) (ws : list workerStruct)
    (nsid : nat) (log : list nat) : Z * list workerStruct * nat * list nat :=
  match fuel with
  | 0 => ((-1)%Z, ws, nsid, log)
  | S fuel' =>
      if decide (candidateWorkerID < length ws) then
        let '(ws1, nsid1, log1) :=
          if decide (candidateWorkerID = nsid)
          then (alter (set_workerThread (Some WWait)) nsid ws,
                S nsid, log ++ [nsid])
          else (ws, nsid, log) in
        match ws1 !! candidateWorkerID with
        | Some w =>
            if workerInUse w
            then scan fuel' (S candidateWorkerID) ws1 nsid1 log1
            else (Z.of_nat candidateWorkerID,
                  <[candidateWorkerID := set_workerInUse true w]> ws1,
                  nsid1, log1)
        | None => ((-1)%Z, ws1, nsid1, log1)
        end
      else ((-1)%Z, ws, nsid, log)
  end.

(** One step of the dispatcher thread; [None] when the thread cannot move
    (it blocks, or the source has no defined behaviour). *)
Definition dispatcher (p : ThreadPool) : option ThreadPool :=
  match dispatcherThread p with
  | DWaitThunk =>
      match newThunkFromScheduler p with
      | S n => Some (set_dispatcherThread DWaitWorker
                       (set_newThunkFromScheduler n p))
      | 0 => None
      end
  | DWaitWorker =>
      match workerIsAvailable p with
      | S n => Some (set_dispatcherThread DScan (set_workerIsAvailable n p))
      | 0 => None
      end
  | DScan =>
      if exitFlag p then Some (set_dispatcherThread DExit p)
      else if workersLock p then None
      else
        let '(availableWorkerID, ws, nsid, log) :=
          scan (length (workerVector p)) 0 (workerVector p)
               (nextSpawnID p) (spawnLog p) in
        Some (mkPool ws (DPop availableWorkerID) (thunkQueue p) nsid
                (pendingThunks p) (exitFlag p)
                (bool_decide (availableWorkerID = (-1)%Z))
                (pendingThunksCondVar p) (workerIsAvailable p)
                (newThunkFromScheduler p) log)
  | DPop availableWorkerID =>
      match thunkQueue p with
      | currentThunk :: q =>
          Some (set_dispatcherThread (DHand availableWorkerID currentThunk)
                  (set_thunkQueue q p))
      | [] => None                      (* front() of an empty queue *)
      end
  | DHand availableWorkerID currentThunk =>
      if workersLock p then None        (* locks workersLock a second time *)
      else if decide (availableWorkerID < 0)%Z then None
      else
        match workerVector p !! Z.to_nat availableWorkerID with
        | Some w =>
            Some (set_dispatcherThread DWaitThunk
                    (set_workerVector
                       (<[Z.to_nat availableWorkerID :=
                            set_thunkToExecute (S (thunkToExecute w))
                              (set_workerThunk (Some currentThunk) w)]>
                          (workerVector p)) p))
        | None => None
        end
  | DExit => None
  end.

(** *** The workers (lines 70-93) *)

Definition set_worker (workerID : nat) (w : workerStruct) (p : ThreadPool)
    : ThreadPool :=
  set_workerVector (<[workerID := w]> (workerVector p)) p.

(** One step of worker [workerID] outside the thunk; the steps of the thunk
    itself belong to whoever wrote the thunk.  [None] when the thread does
    not exist or cannot move. *)
Definition worker (workerID : nat) (p : ThreadPool) : option ThreadPool :=
  match workerVector p !! workerID with
  | None => None
  | Some w =>
      match workerThread w with
      | Some WWait =>
          match thunkToExecute w with
          | S n => Some (set_worker workerID
                           (set_workerThread (Some WCheck)
                              (set_thunkToExecute n w)) p)
          | 0 => None
          end
      | Some WCheck =>
          if exitFlag p
          then Some (set_worker workerID (set_workerThread (Some WExit) w) p)
          else
            match workerThunk w with
            | Some thunk =>
                Some (set_worker workerID
                        (set_workerThread (Some (WRun (start thunk))) w) p)
            | None => None              (* call of an empty std::function *)
            end
      | Some WDecr =>
          let n := (pendingThunks p - 1)%Z in
          let p1 := set_pendingThunks n p in
          let p2 := if decide (n = 0%Z)
                    then set_pendingThunksCondVar ∅ p1   (* notify_all *)
                    else p1 in
          Some (set_worker workerID (set_workerThread (Some WFree) w) p2)
      | Some WFree =>
          if workersLock p then None
          else Some (set_worker workerID
                       (set_workerThread (Some WSignal)
                          (set_workerInUse false w)) p)
      | Some WSignal =>
          Some (set_workerIsAvailable (S (workerIsAvailable p))
                  (set_worker workerID (set_workerThread (Some WWait) w) p))
      | Some (WRun _) | Some WExit | None => None
      end
  end.

(** The state of the thunk that worker [workerID] is running, if any. *)
Definition running (workerID : nat) (p : ThreadPool) : option C :=
  match workerVector p !! workerID with
  | Some w => match workerThread w with Some (WRun c) => Some c | _ => None end
  | None => None
  end.

(** The running thunk of worker [workerID] moves on to state [c]. *)
Definition thunk_goto (workerID : nat) (c : C) (p : ThreadPool) : ThreadPool :=
  set_workerVector
    (alter (set_workerThread (Some (WRun c))) workerID (workerVector p)) p.

(** The thunk of worker [workerID] returns: control is back in
    [ThreadPool::worker], after line 78. *)
Definition thunk_return (workerID : nat) (p : ThreadPool) : ThreadPool :=
  set_workerVector
    (alter (set_workerThread (Some WDecr)) workerID (workerVector p)) p.

End ThreadPool.

Arguments workerPC : clear implicits.

Arguments dispatcherPC : clear implicits.

Arguments workerStruct : clear implicits.

Arguments ThreadPool : clear implicits.

(** ** A pool and its clients *)

(** The pool together with the threads that use it.  A client is any thread
    that calls [schedule] and [wait]; it may do so at any time and in any
    order, so the clients below stand for every program that uses a pool.
    Thunks are opaque: all the pool sees of a thunk is whether the call
    returns or throws. *)

Module Clients.

Section Clients.

Context {T : Type}.

(** Where a client stands in the call it is making. *)
Inductive clientPC : Type :=
  | CIdle                 (* in no call *)
  | CPushed               (* in schedule, past lines 19-21 *)
  | CCounted              (* in schedule, past lines 23-25 *)
  | CBlocked.             (* in wait, on the condition variable *)

Global Instance clientPC_eq_dec : EqDecision clientPC.
Proof. solve_decision. Defined.

Inductive outcome : Type := Returns | Throws.

Inductive label : Type :=
  | LSchedule (c : nat) (thunk : T)   (* client c calls schedule(thunk) *)
  | LWait (c : nat)                   (* client c calls wait() *)
  | LClient (c : nat)                 (* client c goes on in its call *)
  | LSpurious (c : nat)               (* spurious wake-up of client c *)
  | LDispatcher                       (* a step of the dispatcher *)
  | LWorker (workerID : nat)          (* a step of a worker *)
  | LThunk (workerID : nat) (o : outcome).  (* the thunk of a worker ends *)

Record state : Type := mkState {
  pool : ThreadPool T T;
  clients : list clientPC;
  terminated : bool         (* std::terminate was called *)
}.

Definition init (numThreads numClients : nat) : state :=
  mkState (ThreadPool_new numThreads) (replicate numClients CIdle) false.

(** The client enters or re-enters the test of [wait]. *)
Definition client_wait (c : nat) (s : state) : state :=
  let '(p, returned) := wait_test c (pool s) in
  mkState p (<[c := if returned then CIdle else CBlocked]> (clients s)) false.

Definition step (l : label) (s : state) : option state :=
  if terminated s then None
  else
    match l with
    | LSchedule c thunk =>
        match clients s !! c with
        | Some CIdle =>
            Some (mkState (schedule_push thunk (pool s))
                    (<[c := CPushed]> (clients s)) false)
        | _ => None
        end
    | LWait c =>
        match clients s !! c with
        | Some CIdle => Some (client_wait c s)
        | _ => None
        end
    | LClient c =>
        match clients s !! c with
        | Some CPushed =>
            Some (mkState (schedule_count (pool s))
                    (<[c := CCounted]> (clients s)) false)
        | Some CCounted =>
            Some (mkState (schedule_signal (pool s))
                    (<[c := CIdle]> (clients s)) false)
        | Some CBlocked =>
            if wait_woken c (pool s) then Some (client_wait c s) else None
        | _ => None
        end
    | LSpurious c =>
        Some (mkState (spurious_wakeup c (pool s)) (clients s) false)
    | LDispatcher =>
        p ← dispatcher (pool s); Some (mkState p (clients s) false)
    | LWorker workerID =>
        p ← worker id workerID (pool s); Some (mkState p (clients s) false)
    | LThunk workerID o =>
        match running workerID (pool s) with
        | Some _ =>
            match o with
            | Returns =>
                Some (mkState (thunk_return workerID (pool s)) (clients s)
                        false)
            | Throws =>
                (* nothing in worker() catches: the exception leaves the
                   thread function and the process is terminated *)
                Some (mkState (pool s) (clients s) true)
            end
        | None => None
        end
    end.

Fixpoint exec (tr : list label) (s : state) : option state :=
  match tr with
  | [] => Some s
  | l :: tr' => s' ← step l s; exec tr' s'
  end.

End Clients.

Arguments state : clear implicits.

Arguments label : clear implicits.

End Clients.

(** ** The news aggregator (news-aggregator.h, news-aggregator.cc) *)

(** [operator<] on [std::pair<std::string, std::string>], the key order of
    the intermediate index. *)
Definition pair_ltb (a b : string * string) : bool :=
  String.ltb a.1 b.1 || (negb (String.ltb b.1 a.1) && String.ltb a.2 b.2).

(** The order of the entries of a [std::map] whose keys are compared with
    [ltb]. *)
Definition key_le {K V} (ltb : K → K → bool) (x y : K * V) : Prop :=
  ltb y.1 x.1 = false.

Global Instance key_le_dec {K V} (ltb : K → K → bool) (x y : K * V) :
  Decision (key_le ltb x y).
Proof. unfold key_le. apply _. Defined.

(** The entries of a [std::map] in the order a range-for visits them. *)
Definition in_order {K V} `{Countable K} (ltb : K → K → bool)
    (m : gmap K V) : list (K * V) :=
  merge_sort (key_le ltb) (map_to_list m).

Module Aggregator.

(** Where a feed thunk stands (the lambda of lines 142-169, which runs
    [launchArticlePool], lines 174-220, as its last statement). *)
Inductive FeedPC : Type :=
  | FClaim (feedURL feedTitle : string)   (* lines 143-152 *)
  | FParse (feedURL : string)             (* lines 154-168 *)
  | FLoop (articles : list Article)       (* line 175; schedule, 19-21;
                                             line 219 when none is left *)
  | FCount (articles : list Article)      (* schedule, lines 23-25 *)
  | FSignal (articles : list Article)     (* schedule, line 27 *)
  | FBlocked.                             (* line 219, blocked in wait *)

(** Where an article thunk stands (the lambda of lines 176-217). *)
Inductive ArticlePC : Type :=
  | AClaim (currentArticle : Article)     (* lines 177-185 *)
  | AParse (currentArticle : Article)     (* lines 187-200 *)
  | AMerge (currentArticle : Article) (sortedTokens : list string).
                                          (* lines 202-216 *)

(** Where the thread that calls [buildIndex] stands. *)
Inductive MainPC : Type :=
  | MIdle                                 (* outside buildIndex *)
  | MParse                                (* lines 119-131 *)
  | MLoop (feeds : list (string * string))    (* line 141; schedule, 19-21;
                                                 line 171 when none is left *)
  | MCount (feeds : list (string * string))   (* schedule, lines 23-25 *)
  | MSignal (feeds : list (string * string))  (* schedule, line 27 *)
  | MBlocked                              (* line 171, blocked in wait *)
  | MFlush.                               (* lines 135-137 *)

(** The members of [NewsAggregator] that the crawl touches, the program
    counter of the calling thread, and three logs of what the run did: the
    URLs whose test-and-insert into [seenURLs] succeeded, the URLs whose
    feed or document was fetched and parsed, and the articles that were
    merged into the intermediate index, each with its sorted tokens.
    [RSSIndex] is declared in rss-index.h, which is not among the sources:
    [index] lists the calls of [RSSIndex::add], in order. *)
Record state : Type := mkState {
  index : list (Article * list string);
  built : bool;
  feedPool : ThreadPool (string * string) FeedPC;
  articlePool : ThreadPool Article ArticlePC;
  seenURLs : gset string;
  intermediateIndex : gmap (string * string) (Article * list string);
  mainThread : MainPC;
  claimed : list string;
  fetched : list string;
  merged : list (Article * list string)
}.

Definition kNumFeedWorkers : nat := 10.

Definition kNumArticleWorkers : nat := 50.

(** The constructor (line 116). *)
Definition init : state :=
  {| index := [];
     built := false;
     feedPool := ThreadPool_new kNumFeedWorkers;
     articlePool := ThreadPool_new kNumArticleWorkers;
     seenURLs := ∅;
     intermediateIndex := ∅;
     mainThread := MIdle;
     claimed := [];
     fetched := [];
     merged := [] |}.

Definition set_index (x : list (Article * list string)) (s : state) :=
  mkState x (built s) (feedPool s) (articlePool s) (seenURLs s)
    (intermediateIndex s) (mainThread s) (claimed s) (fetched s)
    (merged s).

Definition set_built (x : bool) (s : state) :=
  mkState (index s) x (feedPool s) (articlePool s) (seenURLs s)
    (intermediateIndex s) (mainThread s) (claimed s) (fetched s)
    (merged s).

Definition set_feedPool (x : ThreadPool (string * string) FeedPC)
    (s : state) :=
  mkState (index s) (built s) x (articlePool s) (seenURLs s)
    (intermediateIndex s) (mainThread s) (claimed s) (fetched s)
    (merged s).

Definition set_articlePool (x : ThreadPool Article ArticlePC) (s : state) :=
  mkState (index s) (built s) (feedPool s) x (seenURLs s)
    (intermediateIndex s) (mainThread s) (claimed s) (fetched s)
    (merged s).

Definition set_mainThread (x : MainPC) (s : state) :=
  mkState (index s) (built s) (feedPool s) (articlePool s) (seenURLs s)
    (intermediateIndex s) x (claimed s) (fetched s) (merged s).

(** The test-and-insert under [seenURLsLock] (lines 146-152 and 179-185):
    [None] when the URL was seen before. *)
Definition claimURL (u : string) (s : state) : option state :=
  if decide (u ∈ seenURLs s) then None
  else Some (mkState (index s) (built s) (feedPool s) (articlePool s)
               ({[u]} ∪ seenURLs s) (intermediateIndex s) (mainThread s)
               (claimed s ++ [u]) (fetched s) (merged s)).

(** A feed or a document is fetched and parsed. *)
Definition fetch (u : string) (s : state) : state :=
  mkState (index s) (built s) (feedPool s) (articlePool s) (seenURLs s)
    (intermediateIndex s) (mainThread s) (claimed s) (fetched s ++ [u])
    (merged s).

Inductive label : Type :=
  | LBuildIndex                       (* the caller enters buildIndex() *)
  | LMain                             (* the caller goes on in buildIndex *)
  | LFeedDispatcher
  | LFeedWorker (workerID : nat)
  | LFeedThunk (workerID : nat)       (* a step of a running feed thunk *)
  | LFeedSpurious (tid : nat)
  | LArticleDispatcher
  | LArticleWorker (workerID : nat)
  | LArticleThunk (workerID : nat)    (* a step of a running article thunk *)
  | LArticleSpurious (tid : nat).

Section Aggregator.

Variable getURLServer : string → string.
Variable rssFeedListURI : string.
Variable parseFeedList : string → option (gmap string string).
Variable parseFeed : string → option (list Article).
Variable parseDocument : string → option (list string).

(** [getURLServer] is declared in utils.h, and the three parsers in
    rss-feed-list.h, rss-feed.h and html-document.h; none of them is among
    the sources.  A parser is given by its result on a URL: [None] when it
    throws its exception, and otherwise what [getFeeds], [getArticles] or
    [getTokens] returns after [parse]. *)

(** The calling thread is thread [0] of the condition variable of the feed
    pool. *)
Definition mainTid : nat := 0.

(** One step of the caller inside [buildIndex] (lines 67-75), which is
    [processAllFeeds] (lines 118-138) with [launchFeedPool] (140-172). *)
Definition main_step (s : state) : option state :=
  match mainThread s with
  | MIdle => None
  | MParse =>
      match parseFeedList rssFeedListURI with
      | None => Some (set_mainThread MIdle s)        (* lines 123-125 *)
      | Some feeds =>
          if decide (feeds = ∅)
          then Some (set_mainThread MIdle s)         (* lines 128-131 *)
          else Some (set_mainThread (MLoop (in_order String.ltb feeds)) s)
      end
  | MLoop (currentFeed :: feeds) =>
      Some (set_mainThread (MCount feeds)
              (set_feedPool (schedule_push currentFeed (feedPool s)) s))
  | MCount feeds =>
      Some (set_mainThread (MSignal feeds)
              (set_feedPool (schedule_count (feedPool s)) s))
  | MSignal feeds =>
      Some (set_mainThread (MLoop feeds)
              (set_feedPool (schedule_signal (feedPool s)) s))
  | MLoop [] =>
      let '(p, returned) := wait_test mainTid (feedPool s) in
      Some (set_mainThread (if returned then MFlush else MBlocked)
              (set_feedPool p s))
  | MBlocked =>
      if wait_woken mainTid (feedPool s) then
        let '(p, returned) := wait_test mainTid (feedPool s) in
        Some (set_mainThread (if returned then MFlush else MBlocked)
                (set_feedPool p s))
      else None
  | MFlush =>
      Some (set_mainThread MIdle
              (set_index
                 (index s ++ (in_order pair_ltb (intermediateIndex s)).*2)
                 s))
  end.

(** One step of the feed thunk that worker [workerID] of the feed pool is
    running. *)
Definition feed_step (workerID : nat) (s : state) : option state :=
  match running workerID (feedPool s) with
  | None => None
  | Some pc =>
      let goto c s := set_feedPool (thunk_goto workerID c (feedPool s)) s in
      let ret s := set_feedPool (thunk_return workerID (feedPool s)) s in
      match pc with
      | FClaim feedURL feedTitle =>
          match claimURL feedURL s with
          | None => Some (ret s)                     (* lines 147-150 *)
          | Some s' => Some (goto (FParse feedURL) s')
          end
      | FParse feedURL =>
          let s' := fetch feedURL s in
          match parseFeed feedURL with
          | None => Some (ret s')                    (* lines 158-160 *)
          | Some [] => Some (ret s')                 (* lines 164-167 *)
          | Some articles => Some (goto (FLoop articles) s')
          end
      | FLoop (currentArticle :: articles) =>
          Some (goto (FCount articles)
                  (set_articlePool
                     (schedule_push currentArticle (articlePool s)) s))
      | FCount articles =>
          Some (goto (FSignal articles)
                  (set_articlePool (schedule_count (articlePool s)) s))
      | FSignal articles =>
          Some (goto (FLoop articles)
                  (set_articlePool (schedule_signal (articlePool s)) s))
      | FLoop [] =>
          let '(p, returned) := wait_test workerID (articlePool s) in
          let s' := set_articlePool p s in
          Some (if returned then ret s' else goto FBlocked s')
      | FBlocked =>
          if wait_woken workerID (articlePool s) then
            let '(p, returned) := wait_test workerID (articlePool s) in
            let s' := set_articlePool p s in
            Some (if returned then ret s' else goto FBlocked s')
          else None
      end
  end.

(** The critical section of lines 202-216. *)
Definition merge (currentArticle : Article) (sortedTokens : list string)
    (s : state) : state :=
  mkState (index s) (built s) (feedPool s) (articlePool s) (seenURLs s)
    (mergeUpdate getURLServer currentArticle sortedTokens
       (intermediateIndex s))
    (mainThread s) (claimed s) (fetched s)
    (merged s ++ [(currentArticle, sortedTokens)]).

(** One step of the article thunk that worker [workerID] of the article
    pool is running. *)
Definition article_step (workerID : nat) (s : state) : option state :=
  match running workerID (articlePool s) with
  | None => None
  | Some pc =>
      let goto c s :=
        set_articlePool (thunk_goto workerID c (articlePool s)) s in
      let ret s := set_articlePool (thunk_return workerID (articlePool s)) s in
      match pc with
      | AClaim currentArticle =>
          match claimURL (url currentArticle) s with
          | None => Some (ret s)                     (* lines 180-183 *)
          | Some s' => Some (goto (AParse currentArticle) s')
          end
      | AParse currentArticle =>
          let s' := fetch (url currentArticle) s in
          match parseDocument (url currentArticle) with
          | None => Some (ret s')                    (* lines 194-196 *)
          | Some origTokens =>
              Some (goto (AMerge currentArticle (sort origTokens)) s')
          end
      | AMerge currentArticle sortedTokens =>
          Some (ret (merge currentArticle sortedTokens s))
      end
  end.

Definition feedStart (currentFeed : string * string) : FeedPC :=
  FClaim currentFeed.1 currentFeed.2.

Definition articleStart (currentArticle : Article) : ArticlePC :=
  AClaim currentArticle.

Definition step (l : label) (s : state) : option state :=
  match l with
  | LBuildIndex =>
      match mainThread s with
      | MIdle =>
          if built s then Some s                     (* line 68 *)
          else Some (set_mainThread MParse (set_built true s))  (* line 69 *)
      | _ => None
      end
  | LMain => main_step s
  | LFeedDispatcher =>
      p ← dispatcher (feedPool s); Some (set_feedPool p s)
  | LFeedWorker workerID =>
      p ← worker feedStart workerID (feedPool s); Some (set_feedPool p s)
  | LFeedThunk workerID => feed_step workerID s
  | LFeedSpurious tid =>
      Some (set_feedPool (spurious_wakeup tid (feedPool s)) s)
  | LArticleDispatcher =>
      p ← dispatcher (articlePool s); Some (set_articlePool p s)
  | LArticleWorker workerID =>
      p ← worker articleStart workerID (articlePool s);
      Some (set_articlePool p s)
  | LArticleThunk workerID => article_step workerID s
  | LArticleSpurious tid =>
      Some (set_articlePool (spurious_wakeup tid (articlePool s)) s)
  end.

Fixpoint exec (tr : list label) (s : state) : option state :=
  match tr with
  | [] => Some s
  | l :: tr' => s' ← step l s; exec tr' s'
  end.

End Aggregator.

End Aggregator.

(** ** A small world to run the model in *)

Module Demo.

Import Aggregator.

(** The server of a URL of the form [http://a.com/...]. *)
Definition getURLServer (u : string) : string := String.substring 7 5 u.

Definition rssFeedListURI : string := "feeds.xml".

Definition parseFeedList (u : string) : option (gmap string string) :=
  if decide (u = "feeds.xml")
  then Some (<["f2" := "Two"]> (<["f1" := "One"]> ∅))
  else None.

Definition parseFeed (u : string) : option (list Article) :=
  if decide (u = "f1") then Some [mkArticle "http://a.com/1" "X"]
  else if decide (u = "f2")
  then Some [mkArticle "http://a.com/2" "X"; mkArticle "http://a.com/1" "X"]
  else None.

Definition parseDocument (u : string) : option (list string) :=
  if decide (u = "http://a.com/1") then Some ["b"; "a"; "c"; "b"]
  else if decide (u = "http://a.com/2") then Some ["c"; "b"; "d"; "b"; "b"]
  else None.

Definition step : label → state → option state :=
  Aggregator.step getURLServer rssFeedListURI parseFeedList parseFeed
    parseDocument.

Definition exec : list label → state → option state :=
  Aggregator.exec getURLServer rssFeedListURI parseFeedList parseFeed
    parseDocument.

(** A scheduler: the first thread of [prio] that can move makes a step,
    until [stop] holds, no thread can move or the fuel is spent.  It returns
    the labels of the steps and the state reached. *)
Fixpoint first_enabled (prio : list label) (s : state)
    : option (label * state) :=
  match prio with
  | [] => None
  | l :: prio' =>
      match step l s with
      | Some s' => Some (l, s')
      | None => first_enabled prio' s
      end
  end.

Fixpoint run (fuel : nat) (prio : list label) (stop : state → bool)
    (s : state) (tr : list label) : list label * state :=
  match fuel with
  | 0 => (tr, s)
  | S fuel' =>
      if stop s then (tr, s)
      else
        match first_enabled prio s with
        | Some (l, s') => run fuel' prio stop s' (tr ++ [l])
        | None => (tr, s)
        end
  end.

Definition threads : list label :=
  [LMain; LFeedDispatcher; LFeedWorker 0; LFeedWorker 1;
   LFeedThunk 0; LFeedThunk 1;
   LArticleDispatcher; LArticleWorker 0; LArticleWorker 1; LArticleWorker 2;
   LArticleThunk 0; LArticleThunk 1; LArticleThunk 2].

Definition at_flush (s : state) : bool :=
  match mainThread s with MFlush => true | _ => false end.

(** A call of [buildIndex], run until the caller is about to flush. *)
Definition crawl : list label * state :=
  match step LBuildIndex init with
  | Some s => run 200 threads at_flush s [LBuildIndex]
  | None => ([], init)
  end.

(** The same call, run until no thread can move. *)
Definition whole_run : list label * state :=
  run 200 threads (λ _, false) crawl.2 crawl.1.

End Demo.

(** ** The end of a pool (thread-pool.cc, lines 102-114) *)

(** The destructor runs in the thread that owns the pool, at a time when no
    other thread uses the pool any more: the threads of the model are the
    destroying thread, the dispatcher, the workers and the thunks that are
    still running. *)

Module Shutdown.

Section Shutdown.

Context {T : Type}.

(** The thread that destroys the pool is thread [tid] of the condition
    variable. *)
Variable tid : nat.

(** Where the destroying thread stands in [~ThreadPool]. *)
Inductive destructorPC : Type :=
  | XWait                     (* line 103: wait(), first test *)
  | XBlocked                  (* line 103: blocked in wait() *)
  | XFlag                     (* line 104: exitFlag = true *)
  | XSignal (workerID : nat)  (* line 106, and line 107 when in range *)
  | XJoin (workerID : nat)    (* line 108: workerThread.join() *)
  | XSignalThunk              (* line 111 *)
  | XSignalWorker             (* line 112 *)
  | XJoinDispatcher           (* line 113: dispatcherThread.join() *)
  | XDone.                    (* the body has returned *)

Global Instance destructorPC_eq_dec : EqDecision destructorPC.
Proof. solve_decision. Defined.

Inductive label : Type :=
  | LDestructor                       (* a step of the destroying thread *)
  | LSpurious                         (* its spurious wake-up in wait() *)
  | LDispatcher
  | LWorker (workerID : nat)
  | LThunk (workerID : nat) (o : Clients.outcome).

Record state : Type := mkState {
  pool : ThreadPool T T;
  destructorThread : destructorPC;
  terminated : bool
}.

Definition set_exitFlag (b : bool) (p : ThreadPool T T) : ThreadPool T T :=
  mkPool (workerVector p) (dispatcherThread p) (thunkQueue p) (nextSpawnID p)
    (pendingThunks p) b (workersLock p) (pendingThunksCondVar p)
    (workerIsAvailable p) (newThunkFromScheduler p) (spawnLog p).

(** The destructor is entered on the pool [p]. *)
Definition enter (p : ThreadPool T T) : state := mkState p XWait false.

Definition destructor_wait (s : state) : state :=
  let '(p, returned) := wait_test tid (pool s) in
  mkState p (if returned then XFlag else XBlocked) false.

(** One step of the destroying thread.  [join] blocks until the thread
    function of the joined thread has returned. *)
Definition destructor (s : state) : option state :=
  match destructorThread s with
  | XWait => Some (destructor_wait s)
  | XBlocked =>
      if wait_woken tid (pool s) then Some (destructor_wait s) else None
  | XFlag => Some (mkState (set_exitFlag true (pool s)) (XSignal 0) false)
  | XSignal workerID =>
      if decide (workerID < nextSpawnID (pool s)) then
        match workerVector (pool s) !! workerID with
        | Some w =>
            Some (mkState
                    (set_worker workerID
                       (set_thunkToExecute (S (thunkToExecute w)) w)
                       (pool s))
                    (XJoin workerID) false)
        | None => None                  (* index out of range *)
        end
      else Some (mkState (pool s) XSignalThunk false)
  | XJoin workerID =>
      match workerVector (pool s) !! workerID with
      | Some w =>
          match workerThread w with
          | Some WExit =>
              Some (mkState (pool s) (XSignal (S workerID)) false)
          | _ => None         (* the thread runs, or was never created *)
          end
      | None => None
      end
  | XSignalThunk =>
      Some (mkState
              (set_newThunkFromScheduler
                 (S (newThunkFromScheduler (pool s))) (pool s))
              XSignalWorker false)
  | XSignalWorker =>
      Some (mkState
              (set_workerIsAvailable (S (workerIsAvailable (pool s)))
                 (pool s))
              XJoinDispatcher false)
  | XJoinDispatcher =>
      match dispatcherThread (pool s) with
      | DExit => Some (mkState (pool s) XDone false)
      | _ => None
      end
  | XDone => None
  end.

Definition step (l : label) (s : state) : option state :=
  if terminated s then None
  else
    match l with
    | LDestructor => destructor s
    | LSpurious =>
        match destructorThread s with
        | XBlocked =>
            Some (mkState (spurious_wakeup tid (pool s)) XBlocked false)
        | _ => None
        end
    | LDispatcher =>
        p ← dispatcher (pool s); Some (mkState p (destructorThread s) false)
    | LWorker workerID =>
        p ← worker id workerID (pool s);
        Some (mkState p (destructorThread s) false)
    | LThunk workerID o =>
        match running workerID (pool s) with
        | Some _ =>
            match o with
            | Clients.Returns =>
                Some (mkState (thunk_return workerID (pool s))
                        (destructorThread s) false)
            | Clients.Throws =>
                Some (mkState (pool s) (destructorThread s) true)
            end
        | None => None
        end
    end.

Fixpoint exec (tr : list label) (s : state) : option state :=
  match tr with
  | [] => Some s
  | l :: tr' => s' ← step l s; exec tr' s'
  end.

End Shutdown.

Arguments state : clear implicits.

End Shutdown.

(** ** The command line (news-aggregator.cc, lines 33-65) *)

(** [getopt_long] belongs to the C library.  A call of
    [createNewsAggregator] is given by what its calls of [getopt_long]
    return before [-1]: the option characters, each with the value of
    [optarg] at that time, and by the value of [optind] after the last
    call.  [NewsAggregatorLog::printUsage] is declared in log.h, which is
    not among the sources: the model ends at the first call of it and keeps
    the message. *)

Inductive created : Type :=
  | Usage (message : string)
  | Created (rssFeedListURI : string) (verbose : bool).

Definition kDefaultRSSFeedListURL : string := "small-feed.xml".

(** The characters that the [switch] of lines 47-59 tells apart. *)
Definition ch_v : Z := 118.
Definition ch_q : Z := 113.
Definition ch_u : Z := 117.

(** The loop of lines 45-60; [None] when it reaches [default:]. *)
Fixpoint parseOptions (results : list (Z * string))
    (rssFeedListURI : string) (verbose : bool) : option (string * bool) :=
  match results with
  | [] => Some (rssFeedListURI, verbose)
  | (ch, optarg) :: results' =>
      if decide (ch = ch_v) then parseOptions results' rssFeedListURI true
      else if decide (ch = ch_q)
      then parseOptions results' rssFeedListURI false
      else if decide (ch = ch_u) then parseOptions results' optarg verbose
      else None
  end.

Definition createNewsAggregator (argc : Z) (results : list (Z * string))
    (optind : Z) : created :=
  match parseOptions results kDefaultRSSFeedListURL true with
  | None => Usage "Unrecognized flag."
  | Some (rssFeedListURI, verbose) =>
      if decide (0 < argc - optind)%Z then Usage "Too many arguments."
      else Created rssFeedListURI verbose
  end.

(** * The vocabulary of the properties *)

(** ** Token lists *)

(** Number of times a token occurs in a token list. *)
Definition occ (x : string) (l : list string) : nat :=
  count_occ String.eq_dec l x.

(** ** The merge of duplicate articles *)

Section MergeSpec.

Variable getURLServer : string → string.

(** The parsed articles of a run that fall under key [K]. *)
Definition dupsOf (K : string * string) (ups : list (Article * list string))
    : list (Article * list string) :=
  filter (λ p, keyOf getURLServer p.1 = K) ups.

(** What the entry stored under [K] has to be once the articles [dups] have
    been merged into it: the smallest URL, and a sorted token list in which
    every token occurs as often as in the duplicate where it is rarest. *)
Definition entry_ok (K : string * string)
    (dups : list (Article * list string)) (e : Article * list string) : Prop :=
  title e.1 = K.1 ∧
  (∃ p, p ∈ dups ∧ url e.1 = url p.1) ∧
  (∀ p, p ∈ dups → StrOrd.le (url e.1) (url p.1)) ∧
  StronglySorted StrOrd.le e.2 ∧
  ∀ x, (∀ p, p ∈ dups → occ x e.2 ≤ occ x p.2) ∧
       (∃ p, p ∈ dups ∧ occ x e.2 = occ x p.2).

End MergeSpec.

(** ** The thread pool *)

Section ThreadPoolSpec.

Context {T C : Type}.

Local Abbreviation workerStruct := (workerStruct T C).
Local Abbreviation ThreadPool := (ThreadPool T C).

(** *** Measures of a pool *)

Definition b2n (b : bool) : nat := if b then 1 else 0.

(** A worker holds a thunk from the moment the dispatcher signals
    [thunkToExecute] until the worker has decremented the counter. *)
Definition holds_thunk (w : workerStruct) : nat :=
  thunkToExecute w +
  match workerThread w with
  | Some WCheck | Some (WRun _) | Some WDecr => 1
  | _ => 0
  end.

(** A worker takes up a permit of [workerIsAvailable] while it is marked in
    use, and once more while it is about to give the permit back. *)
Definition busy (w : workerStruct) : nat :=
  b2n (workerInUse w) +
  match workerThread w with Some WSignal => 1 | _ => 0 end.

(** Workers whose running thunk is in a state that satisfies [P]. *)
Definition runs (P : C → bool) (w : workerStruct) : nat :=
  match workerThread w with
  | Some (WRun c) => b2n (P c)
  | _ => 0
  end.

Definition runCount (P : C → bool) (p : ThreadPool) : nat :=
  sum_list_with (runs P) (workerVector p).

(** Thunks that were pushed and whose completion has not been counted:
    queued, in the hands of the dispatcher, or with a worker. *)
Definition live (p : ThreadPool) : nat :=
  length (thunkQueue p)
  + match dispatcherThread p with DHand _ _ => 1 | _ => 0 end
  + sum_list_with holds_thunk (workerVector p).

(** Signals of [newThunkFromScheduler] that are raised, or consumed by a
    dispatcher that has not handed its thunk over yet, or that stand for a
    thunk a worker holds. *)
Definition signalled (p : ThreadPool) : nat :=
  newThunkFromScheduler p
  + match dispatcherThread p with
    | DWaitWorker | DScan | DPop _ | DHand _ _ => 1
    | _ => 0
    end
  + sum_list_with holds_thunk (workerVector p).

(** The worker the dispatcher has picked and not yet handed a thunk. *)
Definition picked (p : ThreadPool) : option nat :=
  match dispatcherThread p with
  | DPop a | DHand a _ => if decide (0 ≤ a)%Z then Some (Z.to_nat a) else None
  | _ => None
  end.

(** What holds of one worker: [reserved] tells whether the dispatcher has
    picked it and not yet handed it a thunk, [spawned] whether its index is
    below [nextSpawnID]. *)
Definition worker_ok (reserved spawned : bool) (w : workerStruct) : Prop :=
  match workerThread w with
  | None =>
      spawned = false ∧ reserved = false ∧
      workerInUse w = false ∧ thunkToExecute w = 0
  | Some WWait | Some WSignal =>
      spawned = true ∧
      if workerInUse w
      then (if reserved then thunkToExecute w = 0
            else thunkToExecute w = 1 ∧ is_Some (workerThunk w))
      else reserved = false ∧ thunkToExecute w = 0
  | Some WCheck =>
      spawned = true ∧ reserved = false ∧ workerInUse w = true ∧
      thunkToExecute w = 0 ∧ is_Some (workerThunk w)
  | Some (WRun _) | Some WDecr | Some WFree =>
      spawned = true ∧ reserved = false ∧ workerInUse w = true ∧
      thunkToExecute w = 0
  | Some WExit => False
  end.

Definition workers_ok (pk : option nat) (nsid : nat)
    (ws : list workerStruct) : Prop :=
  ∀ i w, ws !! i = Some w →
    worker_ok (bool_decide (pk = Some i)) (bool_decide (i < nsid)) w.

(** The invariant of a pool whose clients are, at this moment, [u] threads
    between the push and the increment of [schedule], and [v] threads
    between the increment and the signal. *)
Record pool_inv (u v : nat) (p : ThreadPool) : Prop := {
  inv_exit : exitFlag p = false;
  inv_lock : workersLock p = false;
  inv_nsid : nextSpawnID p ≤ length (workerVector p);
  inv_log : spawnLog p = seq 0 (nextSpawnID p);
  inv_workers : workers_ok (picked p) (nextSpawnID p) (workerVector p);
  inv_picked :
    match dispatcherThread p with
    | DPop a | DHand a _ => (0 ≤ a < Z.of_nat (length (workerVector p)))%Z
    | DExit => False
    | _ => True
    end;
  inv_avail :
    workerIsAvailable p
    + match dispatcherThread p with DScan => 1 | _ => 0 end
    + sum_list_with busy (workerVector p) = length (workerVector p);
  inv_live : (pendingThunks p + Z.of_nat u = Z.of_nat (live p))%Z;
  inv_signalled : (pendingThunks p = Z.of_nat (signalled p + v))%Z;
  inv_condvar : pendingThunks p = 0%Z → pendingThunksCondVar p = ∅
}.

End ThreadPoolSpec.

(** ** A pool and its clients *)

Section ClientsSpec.

Context {T : Type}.

Import Clients.

Local Abbreviation state := (Clients.state T).
Local Abbreviation label := (Clients.label T).

(** Clients that stand at [pc]. *)
Definition count_pc (pc : clientPC) (cs : list clientPC) : nat :=
  sum_list_with (λ c, if decide (c = pc) then 1 else 0) cs.

(** The invariant of a pool with its clients. *)
Definition sys_inv (s : state) : Prop :=
  pool_inv (count_pc CPushed (clients s)) (count_pc CCounted (clients s))
    (pool s).

(** The call of [wait] by client [c] returns in the step from [s] to
    [s']. *)
Definition wait_returns (c : nat) (s s' : state) : Prop :=
  (step (LWait c) s = Some s' ∨
   (clients s !! c = Some CBlocked ∧ step (LClient c) s = Some s')) ∧
  clients s' !! c = Some CIdle.

End ClientsSpec.

(** ** The invariant of the aggregator *)

Section AggregatorSpec.

Variable getURLServer : string → string.
Variable rssFeedListURI : string.
Variable parseFeedList : string → option (gmap string string).

Import Aggregator.

(** Classes of thunk states. *)
Definition isFCount (c : FeedPC) : bool :=
  match c with FCount _ => true | _ => false end.

Definition isFSignal (c : FeedPC) : bool :=
  match c with FSignal _ => true | _ => false end.

(** The feed thunk is in [launchArticlePool]. *)
Definition inLaunch (c : FeedPC) : bool :=
  match c with
  | FLoop _ | FCount _ | FSignal _ | FBlocked => true
  | _ => false
  end.

(** The thunk has claimed [u] and not yet fetched it. *)
Definition isFParse (u : string) (c : FeedPC) : bool :=
  match c with FParse u' => bool_decide (u' = u) | _ => false end.

Definition isAParse (u : string) (c : ArticlePC) : bool :=
  match c with AParse a => bool_decide (url a = u) | _ => false end.

(** The article thunk is about to merge a token list that is not sorted. *)
Definition unsorted (c : ArticlePC) : bool :=
  match c with
  | AMerge _ toks => negb (bool_decide (StronglySorted StrOrd.le toks))
  | _ => false
  end.

Definition mainPushed (m : MainPC) : nat :=
  match m with MCount _ => 1 | _ => 0 end.

Definition mainCounted (m : MainPC) : nat :=
  match m with MSignal _ => 1 | _ => 0 end.

(** The caller is not between its first [schedule] and the return of its
    [wait]. *)
Definition mainQuiet (m : MainPC) : bool :=
  match m with MIdle | MParse | MFlush => true | _ => false end.

(** Every entry of the intermediate index agrees with its key and holds a
    sorted token list. *)
Definition index_ok
    (m : gmap (string * string) (Article * list string)) : Prop :=
  ∀ K a toks, m !! K = Some (a, toks) →
    title a = K.1 ∧ getURLServer (url a) = K.2 ∧
    StronglySorted StrOrd.le toks.

Record agg_inv (s : state) : Prop := {
  ai_feed :
    pool_inv (mainPushed (mainThread s)) (mainCounted (mainThread s))
      (feedPool s);
  ai_article :
    pool_inv (runCount isFCount (feedPool s))
      (runCount isFSignal (feedPool s)) (articlePool s);
  ai_quiet : mainQuiet (mainThread s) = true → live (feedPool s) = 0;
  ai_launch :
    runCount inLaunch (feedPool s) = 0 → live (articlePool s) = 0;
  ai_claimed :
    ∀ u, occ u (claimed s) = b2n (bool_decide (u ∈ seenURLs s));
  ai_fetched :
    ∀ u, occ u (fetched s) + runCount (isFParse u) (feedPool s)
         + runCount (isAParse u) (articlePool s) = occ u (claimed s);
  ai_sorted : runCount unsorted (articlePool s) = 0;
  ai_index : index_ok (intermediateIndex s);
  ai_merged :
    intermediateIndex s = foldl (articleUpdate getURLServer) ∅ (merged s);
  ai_built : mainThread s ≠ MIdle → built s = true
}.

(** *** After the crawl *)

(** The caller has returned from a [buildIndex] that did its work, or is
    about to flush: [built] is set and both pools have drained. *)
Definition drained (s : state) : Prop :=
  built s = true ∧ (mainThread s = MIdle ∨ mainThread s = MFlush).

(** The members a crawl writes. *)
Definition results (s : state) :=
  (index s, seenURLs s, intermediateIndex s, claimed s, fetched s, merged s).

(** *** A run whose feed list is missing or empty *)

(** The aggregator as constructed, but for [built] and for where the caller
    stands. *)
Definition pristine (b : bool) (m : MainPC) : state :=
  mkState [] b (ThreadPool_new kNumFeedWorkers)
    (ThreadPool_new kNumArticleWorkers) ∅ ∅ m [] [] [].

Definition no_feeds : Prop :=
  parseFeedList rssFeedListURI = None ∨
  parseFeedList rssFeedListURI = Some ∅.

(** The states of such a run. *)
Definition aborted_state (s : state) : Prop :=
  s = pristine false MIdle ∨ s = pristine true MParse ∨
  s = pristine true MIdle.

End AggregatorSpec.

(** ** Runs of a pool with two clients *)

Section ClientRuns.

Import Clients.

(** Client [1] is preempted in [schedule] between the push of ["tB"] and
    the increment; client [0] schedules ["tA"] in full; the dispatcher hands
    the front of the queue, ["tB"], to the worker, which runs it and
    decrements the counter. *)
Definition early_return : list (Clients.label string) :=
  [LSchedule 1 "tB"; LSchedule 0 "tA"; LClient 0; LClient 0;
   LDispatcher; LDispatcher; LDispatcher; LDispatcher; LDispatcher;
   LWorker 0; LWorker 0; LThunk 0 Returns; LWorker 0].

Definition one_dispatch : list (Clients.label unit) :=
  [LSchedule 0 (); LClient 0; LClient 0;
   LDispatcher; LDispatcher; LDispatcher; LDispatcher; LDispatcher;
   LWorker 0; LWorker 0].

End ClientRuns.

(** ** The history of a run of a pool *)

Module History.

Section History.

Context {T : Type}.

Import Clients.

Local Abbreviation state := (Clients.state T).
Local Abbreviation label := (Clients.label T).

(** What a run did with its thunks: the thunks [schedule] pushed (line 20),
    the thunks the dispatcher took off the queue (lines 59-60), the thunks
    the workers called (line 78) and the thunks that returned, each in the
    order of the events. *)
Record history : Type := mkHistory {
  pushed : list T;
  popped : list T;
  started : list T;
  finished : list T
}.

Definition no_history : history := mkHistory [] [] [] [].

(** The event, if any, of the step [l] made in state [s]. *)
Definition observe (l : label) (s : state) (h : history) : history :=
  match l with
  | LSchedule c thunk =>
      mkHistory (pushed h ++ [thunk]) (popped h) (started h) (finished h)
  | LDispatcher =>
      match dispatcherThread (pool s), thunkQueue (pool s) with
      | DPop _, currentThunk :: _ =>
          mkHistory (pushed h) (popped h ++ [currentThunk]) (started h)
            (finished h)
      | _, _ => h
      end
  | LWorker workerID =>
      match workerVector (pool s) !! workerID with
      | Some w =>
          match workerThread w, workerThunk w with
          | Some WCheck, Some thunk =>
              if exitFlag (pool s) then h
              else mkHistory (pushed h) (popped h) (started h ++ [thunk])
                     (finished h)
          | _, _ => h
          end
      | None => h
      end
  | LThunk workerID Returns =>
      match running workerID (pool s) with
      | Some thunk =>
          mkHistory (pushed h) (popped h) (started h) (finished h ++ [thunk])
      | None => h
      end
  | _ => h
  end.

(** A run together with its history. *)
Fixpoint exec_log (tr : list label) (s : state) (h : history)
    : option (state * history) :=
  match tr with
  | [] => Some (s, h)
  | l :: tr' => s' ← step l s; exec_log tr' s' (observe l s h)
  end.

End History.

Arguments history : clear implicits.

End History.

Section PoolContent.

Context {T C : Type} `{EqDecision T}.

Definition count (t : T) (l : list T) : nat :=
  count_occ (λ x y : T, decide (x = y)) l t.

(** The worker has been handed [t] and has not called it yet. *)
Definition awaits (t : T) (w : workerStruct T C) : nat :=
  if decide (workerThunk w = Some t)
  then thunkToExecute w +
       match workerThread w with Some WCheck => 1 | _ => 0 end
  else 0.

Definition in_hand (t : T) (d : dispatcherPC T) : nat :=
  match d with
  | DHand _ t' => if decide (t' = t) then 1 else 0
  | _ => 0
  end.

(** How often [t] is in the pool and has not been called: in the queue, in
    the hands of the dispatcher or with a worker that is about to call
    it. *)
Definition held (t : T) (p : ThreadPool T C) : nat :=
  count t (thunkQueue p) + in_hand t (dispatcherThread p)
  + sum_list_with (awaits t) (workerVector p).

End PoolContent.

Section HistorySpec.

Context {T : Type} `{EqDecision T}.

Import Clients History.

Definition is_thunk (t : T) (c : T) : bool := bool_decide (c = t).

Record hist_inv (s : Clients.state T) (h : history T) : Prop := {
  hi_queue : pushed h = popped h ++ thunkQueue (pool s);
  hi_popped : ∀ t,
    count t (popped h) =
      count t (started h) + in_hand t (dispatcherThread (pool s))
      + sum_list_with (awaits t) (workerVector (pool s));
  hi_started : ∀ t,
    count t (started h) =
      count t (finished h) + runCount (is_thunk t) (pool s)
}.

End HistorySpec.

(** ** The crawl and the index *)

Section CrawlSpec.

Import Aggregator.

(** What the flush of lines 135-137 adds to the index. *)
Definition flushed (s : state) : list (Article * list string) :=
  (in_order pair_ltb (intermediateIndex s)).*2.

(** The sizes of the two worker vectors. *)
Definition sizes (s : state) : nat * nat :=
  (length (workerVector (feedPool s)),
   length (workerVector (articlePool s))).

(** The index is empty until the flush, and the flush fills it once. *)
Definition index_state (s : state) : Prop :=
  index s = [] ∨
  (built s = true ∧ mainThread s = MIdle ∧ index s = flushed s).

End CrawlSpec.

(** ** The end of a pool *)

Section ShutdownSpec.

Context {T : Type}.

Import Shutdown.

(** The destroying thread is past [wait()]. *)
Definition past_wait (x : destructorPC) : bool :=
  match x with XWait | XBlocked => false | _ => true end.

(** The destroying thread has set [exitFlag]. *)
Definition past_flag (x : destructorPC) : bool :=
  match x with XWait | XBlocked | XFlag => false | _ => true end.

(** The workers below this index have been joined. *)
Definition joined (x : destructorPC) (nsid : nat) : nat :=
  match x with
  | XWait | XBlocked | XFlag => 0
  | XSignal i | XJoin i => i
  | _ => nsid
  end.

(** What holds of worker [j] from line 104 on. *)
Definition closing_worker (x : destructorPC) (nsid j : nat)
    (w : workerStruct T T) : Prop :=
  if decide (nsid ≤ j) then workerThread w = None ∧ thunkToExecute w = 0
  else if decide (j < joined x nsid)
  then workerThread w = Some WExit ∧ thunkToExecute w = 0
  else
    match workerThread w with
    | Some WWait | Some WFree | Some WSignal =>
        thunkToExecute w = (if decide (x = XJoin j) then 1 else 0)
    | Some WCheck | Some WExit => x = XJoin j ∧ thunkToExecute w = 0
    | _ => False
    end.

(** What holds of the dispatcher from line 104 on. *)
Definition closing_dispatcher (x : destructorPC) (p : ThreadPool T T)
    : Prop :=
  match x with
  | XWait | XBlocked => False
  | XFlag | XSignal _ | XJoin _ | XSignalThunk =>
      dispatcherThread p = DWaitThunk ∧ newThunkFromScheduler p = 0
  | XSignalWorker =>
      match dispatcherThread p with
      | DWaitThunk => newThunkFromScheduler p = 1
      | DWaitWorker | DScan | DExit => newThunkFromScheduler p = 0
      | _ => False
      end
  | XJoinDispatcher =>
      match dispatcherThread p with
      | DWaitThunk => newThunkFromScheduler p = 1 ∧ 0 < workerIsAvailable p
      | DWaitWorker => newThunkFromScheduler p = 0 ∧ 0 < workerIsAvailable p
      | DScan | DExit => newThunkFromScheduler p = 0
      | _ => False
      end
  | XDone => dispatcherThread p = DExit
  end.

Record closing (s : Shutdown.state T) : Prop := {
  cl_term : terminated s = false;
  cl_flag : exitFlag (pool s) = past_flag (destructorThread s);
  cl_lock : workersLock (pool s) = false;
  cl_queue : thunkQueue (pool s) = [];
  cl_pending : pendingThunks (pool s) = 0%Z;
  cl_nsid : nextSpawnID (pool s) ≤ length (workerVector (pool s));
  cl_cursor : joined (destructorThread s) (nextSpawnID (pool s))
              ≤ nextSpawnID (pool s);
  cl_join : ∀ j, destructorThread s = XJoin j → j < nextSpawnID (pool s);
  cl_workers : ∀ j w, workerVector (pool s) !! j = Some w →
    closing_worker (destructorThread s) (nextSpawnID (pool s)) j w;
  cl_dispatcher : closing_dispatcher (destructorThread s) (pool s)
}.

(** The steps a thread has left from line 104 on. *)
Definition worker_steps (w : workerStruct T T) : nat :=
  match workerThread w with
  | Some WFree => 4
  | Some WSignal => 3
  | Some WWait => 2
  | Some WCheck => 1
  | _ => 0
  end.

Definition dispatcher_steps (d : dispatcherPC T) : nat :=
  match d with
  | DWaitThunk => 3
  | DWaitWorker => 2
  | DScan => 1
  | _ => 0
  end.

Definition destructor_steps (x : destructorPC) (nsid : nat) : nat :=
  match x with
  | XWait | XBlocked => 0
  | XFlag => 5 + 2 * nsid
  | XSignal i => 4 + 2 * (nsid - i)
  | XJoin i => 3 + 2 * (nsid - i)
  | XSignalThunk => 3
  | XSignalWorker => 2
  | XJoinDispatcher => 1
  | XDone => 0
  end.

Definition steps_left (s : Shutdown.state T) : nat :=
  destructor_steps (destructorThread s) (nextSpawnID (pool s))
  + dispatcher_steps (dispatcherThread (pool s))
  + sum_list_with worker_steps (workerVector (pool s)).

(** While the destroying thread is in [wait()] the pool works as before. *)
Definition draining (n : nat) (s : Shutdown.state T) : Prop :=
  pool_inv 0 0 (pool s) ∧ past_wait (destructorThread s) = false ∧
  length (workerVector (pool s)) = n.

End ShutdownSpec.

(** ** The command line *)

(** The options of a command line that [createNewsAggregator] accepts. *)
Definition recognized (r : Z * string) : Prop :=
  r.1 = ch_v ∨ r.1 = ch_q ∨ r.1 = ch_u.

(** ** What a crawl has fetched *)

Module CrawlLog.

Import Aggregator.

(** The fetches of a run, in their order: a feed is fetched and parsed by
    a feed thunk (lines 154-160), a document by an article thunk (lines
    190-196). *)
Inductive event : Type :=
  | EFeed (feedURL : string)
  | EDoc (currentArticle : Article).

(** The event, if any, of the step [l] made in state [s]. *)
Definition observe (l : label) (s : state) (h : list event) : list event :=
  match l with
  | LFeedThunk workerID =>
      match running workerID (feedPool s) with
      | Some (FParse feedURL) => h ++ [EFeed feedURL]
      | _ => h
      end
  | LArticleThunk workerID =>
      match running workerID (articlePool s) with
      | Some (AParse currentArticle) => h ++ [EDoc currentArticle]
      | _ => h
      end
  | _ => h
  end.

Section CrawlLog.

Variable getURLServer : string → string.
Variable rssFeedListURI : string.
Variable parseFeedList : string → option (gmap string string).
Variable parseFeed : string → option (list Article).
Variable parseDocument : string → option (list string).

(** A run together with its fetches. *)
Fixpoint exec_log (tr : list label) (s : state) (h : list event)
    : option (state * list event) :=
  match tr with
  | [] => Some (s, h)
  | l :: tr' =>
      s' ← step getURLServer rssFeedListURI parseFeedList parseFeed
             parseDocument l s;
      exec_log tr' s' (observe l s h)
  end.

End CrawlLog.

End CrawlLog.

Section CrawlLogSpec.

Variable parseFeed : string → option (list Article).
Variable parseDocument : string → option (list string).

Import Aggregator CrawlLog.

(** The feeds the caller has still to schedule. *)
Definition feedsLeft (m : MainPC) : list (string * string) :=
  match m with MLoop l | MCount l | MSignal l => l | _ => [] end.

(** The articles a feed thunk has still to schedule. *)
Definition articlesLeft (c : FeedPC) : list Article :=
  match c with FLoop l | FCount l | FSignal l => l | _ => [] end.

(** The thunk [t] is in the pool: waiting to be called, or at its first
    statement. *)
Definition in_pool {T C} `{EqDecision T} (start : T → C) (t : T)
    (p : ThreadPool T C) : Prop :=
  0 < held t p ∨ ∃ k, running k p = Some (start t).

(** The URL [u] has been fetched, as a feed or as a document. *)
Definition fetched_as (u : string) (h : list event) : Prop :=
  EFeed u ∈ h ∨ ∃ a, url a = u ∧ EDoc a ∈ h.

(** Nothing that the crawl has to do gets lost on the way. *)
Record crawl_inv (feeds : gmap string string) (s : state)
    (h : list event) : Prop := {
  ci_listed :
    built s = true → mainThread s ≠ MParse →
    ∀ f, f ∈ map_to_list feeds →
      f ∈ feedsLeft (mainThread s) ∨ in_pool feedStart f (feedPool s) ∨
      f.1 ∈ seenURLs s;
  ci_seen :
    ∀ u, u ∈ seenURLs s →
      (∃ k, running k (feedPool s) = Some (FParse u)) ∨
      (∃ k a, running k (articlePool s) = Some (AParse a) ∧ url a = u) ∨
      fetched_as u h;
  ci_articles :
    ∀ u arts a, EFeed u ∈ h → parseFeed u = Some arts → a ∈ arts →
      (∃ k c, running k (feedPool s) = Some c ∧ a ∈ articlesLeft c) ∨
      in_pool articleStart a (articlePool s) ∨
      url a ∈ seenURLs s;
  ci_docs :
    ∀ a toks, EDoc a ∈ h → parseDocument (url a) = Some toks →
      (∃ k, running k (articlePool s) = Some (AMerge a (sort toks))) ∨
      (a, sort toks) ∈ merged s
}.

End CrawlLogSpec.

(** The fetches of the run [Demo.whole_run]. *)
Definition whole_run_fetches : list CrawlLog.event :=
  [CrawlLog.EFeed "f1"; CrawlLog.EFeed "f2";
   CrawlLog.EDoc (mkArticle "http://a.com/1" "X");
   CrawlLog.EDoc (mkArticle "http://a.com/2" "X")].

(** ** Further runs *)

Section MoreRuns.

Import Clients.

(** One client schedules a thunk on a pool; the dispatcher takes the
    signal. *)
Definition one_signal : list (Clients.label unit) :=
  [LSchedule 0 (); LClient 0; LClient 0; LDispatcher].

(** The same, up to the scan of the dispatcher. *)
Definition to_scan : list (Clients.label unit) :=
  one_signal ++ [LDispatcher].

(** One thunk from [schedule] to the end of the bookkeeping of its
    worker. *)
Definition one_thunk : list (Clients.label unit) :=
  one_dispatch ++ [LThunk 0 Returns; LWorker 0; LWorker 0; LWorker 0].

(** One thunk from [schedule] to the decrement of the counter. *)
Definition one_counted : list (Clients.label string) :=
  [LSchedule 0 "t"; LClient 0; LClient 0;
   LDispatcher; LDispatcher; LDispatcher; LDispatcher; LDispatcher;
   LWorker 0; LWorker 0; LThunk 0 Returns; LWorker 0].

(** The destructor on a pool with one worker thread, from line 104 on. *)
Definition from_flag : list Shutdown.label :=
  [Shutdown.LDestructor; Shutdown.LDestructor;
   Shutdown.LWorker 0; Shutdown.LWorker 0;
   Shutdown.LDestructor; Shutdown.LDestructor; Shutdown.LDestructor;
   Shutdown.LDestructor;
   Shutdown.LDispatcher; Shutdown.LDispatcher; Shutdown.LDispatcher;
   Shutdown.LDestructor].

(** The run of [Demo.whole_run] up to the first update of the intermediate
    index, and what follows. *)
Definition first_merge : list Aggregator.label := take 63 Demo.whole_run.1.

Definition after_first_merge : list Aggregator.label :=
  drop 63 Demo.whole_run.1.

End MoreRuns.

(** * Lemmas *)

(** ** The order on strings *)

Module StrOrdFacts.

Import StrOrd.

Lemma ascii_compare_refl c : Ascii.compare c c = Eq.
Proof. unfold Ascii.compare. apply N.compare_refl. Qed.

Lemma ascii_compare_lt_trans a b c :
  Ascii.compare a b = Lt → Ascii.compare b c = Lt → Ascii.compare a c = Lt.
Proof.
  unfold Ascii.compare. rewrite !N.compare_lt_iff. intros; etrans; eauto.
Qed.

Lemma compare_refl s : String.compare s s = Eq.
Proof. induction s as [|c s IH]; simpl; [done|]. by rewrite ascii_compare_refl. Qed.

Lemma compare_lt_trans s1 : ∀ s2 s3,
  String.compare s1 s2 = Lt → String.compare s2 s3 = Lt →
  String.compare s1 s3 = Lt.
Proof.
  induction s1 as [|a s1 IH]; intros [|b s2] [|c s3]; simpl; try done.
  destruct (Ascii.compare a b) eqn:Hab; try done.
  - apply Ascii.compare_eq_iff in Hab as ->.
    destruct (Ascii.compare b c); try done. apply IH.
  - intros _. destruct (Ascii.compare b c) eqn:Hbc; try done.
    + apply Ascii.compare_eq_iff in Hbc as <-. by rewrite Hab.
    + by rewrite (ascii_compare_lt_trans _ _ _ Hab Hbc).
Qed.

Lemma ltb_irrefl s : String.ltb s s = false.
Proof. unfold String.ltb. by rewrite compare_refl. Qed.

Lemma ltb_trans a b c :
  String.ltb a b = true → String.ltb b c = true → String.ltb a c = true.
Proof.
  unfold String.ltb. intros Hab Hbc.
  destruct (String.compare a b) eqn:H1; try done.
  destruct (String.compare b c) eqn:H2; try done.
  by rewrite (compare_lt_trans _ _ _ H1 H2).
Qed.

Lemma ltb_asym a b : String.ltb a b = true → String.ltb b a = false.
Proof.
  unfold String.ltb. rewrite (String.compare_antisym b a).
  by destruct (String.compare a b).
Qed.

(** Two strings neither of which is below the other are the same string. *)
Lemma ltb_tricho a b :
  String.ltb a b = false → String.ltb b a = false → a = b.
Proof.
  unfold String.ltb. rewrite (String.compare_antisym b a).
  destruct (String.compare a b) eqn:H; try done.
  intros _ _. by apply String.compare_eq_iff.
Qed.

Global Instance le_refl : Reflexive le.
Proof. intros a. apply ltb_irrefl. Qed.

Global Instance le_total : Total le.
Proof.
  intros a b. unfold le.
  destruct (String.ltb b a) eqn:H; [right|left]; [by apply ltb_asym|done].
Qed.

Global Instance le_trans : Transitive le.
Proof.
  intros a b c Hab Hbc. unfold le in *.
  destruct (String.ltb c a) eqn:Hca; [|done].
  destruct (String.ltb a b) eqn:H.
  - by rewrite (ltb_trans _ _ _ Hca H) in Hbc.
  - rewrite (ltb_tricho _ _ H Hab) in Hca. congruence.
Qed.

Global Instance le_antisym : AntiSymm (=) le.
Proof. intros a b Hab Hba. by apply ltb_tricho. Qed.

Lemma lt_le a b : lt a b → le a b.
Proof. apply ltb_asym. Qed.

Lemma lt_le_trans a b c : lt a b → le b c → lt a c.
Proof.
  unfold lt, le. intros Hab Hbc.
  destruct (String.ltb a c) eqn:Hac; [done|].
  destruct (String.ltb b c) eqn:H; [by rewrite (ltb_trans _ _ _ Hab H) in Hac|].
  rewrite (ltb_tricho _ _ H Hbc) in Hab. congruence.
Qed.

Lemma lt_ne a b : lt a b → a ≠ b.
Proof. intros H ->. unfold lt in H. by rewrite ltb_irrefl in H. Qed.

End StrOrdFacts.

(** ** Sorting and intersecting *)

Lemma occ_cons x y l :
  occ x (y :: l) = (if decide (y = x) then 1 else 0) + occ x l.
Proof. unfold occ. simpl. destruct (String.eq_dec y x); case_decide; done. Qed.

Lemma occ_zero_iff x l : occ x l = 0 ↔ x ∉ l.
Proof.
  unfold occ. rewrite <- count_occ_not_In, <- list_elem_of_In. done.
Qed.

Lemma occ_pos_iff x l : 0 < occ x l ↔ x ∈ l.
Proof.
  rewrite list_elem_of_In, (count_occ_In String.eq_dec). unfold occ. lia.
Qed.

Lemma occ_perm x l1 l2 : l1 ≡ₚ l2 → occ x l1 = occ x l2.
Proof. intros H. unfold occ. by apply Permutation_count_occ. Qed.

Lemma occ_eq_perm l1 l2 : (∀ x, occ x l1 = occ x l2) → l1 ≡ₚ l2.
Proof. intros H. by apply (Permutation_count_occ String.eq_dec). Qed.

Lemma sort_sorted tokens : StronglySorted StrOrd.le (sort tokens).
Proof. apply StronglySorted_merge_sort; apply _. Qed.

Lemma sort_perm tokens : sort tokens ≡ₚ tokens.
Proof. apply merge_sort_Permutation. Qed.

Lemma occ_sort x tokens : occ x (sort tokens) = occ x tokens.
Proof. apply occ_perm, sort_perm. Qed.

(** A sorted list is determined by how often each token occurs in it. *)
Lemma sorted_occ_unique l1 l2 :
  StronglySorted StrOrd.le l1 → StronglySorted StrOrd.le l2 →
  (∀ x, occ x l1 = occ x l2) → l1 = l2.
Proof.
  intros H1 H2 Hocc.
  apply (StronglySorted_unique StrOrd.le); [done..|by apply occ_eq_perm].
Qed.

(** Sorting a sorted list changes nothing. *)
Lemma sort_sorted_id tokens :
  StronglySorted StrOrd.le tokens → sort tokens = tokens.
Proof.
  intros Hs. apply sorted_occ_unique; [apply sort_sorted|done|].
  intros x. apply occ_sort.
Qed.

Lemma set_intersection_nil_l l2 : set_intersection [] l2 = [].
Proof. by destruct l2. Qed.

Lemma set_intersection_nil_r l1 : set_intersection l1 [] = [].
Proof. by destruct l1. Qed.

Lemma set_intersection_cons x l1 y l2 :
  set_intersection (x :: l1) (y :: l2) =
    if String.ltb x y then set_intersection l1 (y :: l2)
    else if String.ltb y x then set_intersection (x :: l1) l2
    else x :: set_intersection l1 l2.
Proof. done. Qed.

(** Induction along the walk of [set_intersection]. *)
Lemma set_intersection_ind (P : list string → list string → Prop) :
  (∀ l2, P [] l2) →
  (∀ l1, P l1 []) →
  (∀ x l1 y l2, String.ltb x y = true → P l1 (y :: l2) →
     P (x :: l1) (y :: l2)) →
  (∀ x l1 y l2, String.ltb x y = false → String.ltb y x = true →
     P (x :: l1) l2 → P (x :: l1) (y :: l2)) →
  (∀ x l1 l2, P l1 l2 → P (x :: l1) (x :: l2)) →
  ∀ l1 l2, P l1 l2.
Proof.
  intros Hnl Hnr Hlt Hgt Heq.
  induction l1 as [|x l1 IH1]; [done|].
  induction l2 as [|y l2 IH2]; [done|].
  destruct (String.ltb x y) eqn:Hxy; [by apply Hlt|].
  destruct (String.ltb y x) eqn:Hyx; [by apply Hgt|].
  rewrite <- (StrOrdFacts.ltb_tricho _ _ Hxy Hyx). apply Heq, IH1.
Qed.

Lemma set_intersection_sublist l1 l2 :
  set_intersection l1 l2 `sublist_of` l1.
Proof.
  revert l1 l2. apply set_intersection_ind.
  - intros l2. by rewrite set_intersection_nil_l.
  - intros l1. rewrite set_intersection_nil_r. apply sublist_nil_l.
  - intros x l1 y l2 Hxy IH. rewrite set_intersection_cons, Hxy.
    by apply sublist_cons.
  - intros x l1 y l2 Hxy Hyx IH. by rewrite set_intersection_cons, Hxy, Hyx.
  - intros x l1 l2 IH.
    rewrite set_intersection_cons, StrOrdFacts.ltb_irrefl. by apply sublist_skip.
Qed.

Lemma StronglySorted_sublist l1 l2 :
  l1 `sublist_of` l2 → StronglySorted StrOrd.le l2 →
  StronglySorted StrOrd.le l1.
Proof.
  induction 1 as [|x l1 l2 Hsub IH|x l1 l2 Hsub IH]; intros Hs.
  - done.
  - apply StronglySorted_inv in Hs as [Hs Hall]. constructor; [by apply IH|].
    eapply Forall_forall. intros y Hy. rewrite Forall_forall in Hall.
    apply Hall. by eapply elem_of_sublist.
  - apply StronglySorted_inv in Hs as [Hs _]. by apply IH.
Qed.

Lemma set_intersection_sorted l1 l2 :
  StronglySorted StrOrd.le l1 →
  StronglySorted StrOrd.le (set_intersection l1 l2).
Proof. apply StronglySorted_sublist, set_intersection_sublist. Qed.

(** Below the head of a sorted list nothing occurs in it. *)
Lemma occ_below_head x y l :
  StronglySorted StrOrd.le (y :: l) → StrOrd.lt x y → occ x (y :: l) = 0.
Proof.
  intros Hs Hxy. apply occ_zero_iff. intros Hin.
  apply StronglySorted_inv in Hs as [_ Hall]. rewrite Forall_forall in Hall.
  apply elem_of_cons in Hin as [->|Hin].
  - by apply StrOrdFacts.lt_ne in Hxy.
  - apply Hall in Hin. pose proof (StrOrdFacts.lt_le_trans _ _ _ Hxy Hin) as H.
    by apply StrOrdFacts.lt_ne in H.
Qed.

(** On sorted inputs [set_intersection] keeps each token as often as it
    occurs in both inputs. *)
Lemma occ_set_intersection z l1 l2 :
  StronglySorted StrOrd.le l1 → StronglySorted StrOrd.le l2 →
  occ z (set_intersection l1 l2) = occ z l1 `min` occ z l2.
Proof.
  revert l1 l2. apply (set_intersection_ind (λ l1 l2,
    StronglySorted StrOrd.le l1 → StronglySorted StrOrd.le l2 →
    occ z (set_intersection l1 l2) = occ z l1 `min` occ z l2)).
  - intros l2 _ _. rewrite set_intersection_nil_l. unfold occ at 1 2. simpl. lia.
  - intros l1 _ _. rewrite set_intersection_nil_r. unfold occ at 1 3. simpl. lia.
  - intros x l1 y l2 Hxy IH H1 H2.
    rewrite set_intersection_cons, Hxy.
    rewrite IH; [|by apply StronglySorted_inv in H1 as [? _]|done].
    rewrite (occ_cons z x). case_decide as Hz; [subst z|lia].
    rewrite (occ_below_head x y l2 H2 Hxy). lia.
  - intros x l1 y l2 Hxy Hyx IH H1 H2.
    rewrite set_intersection_cons, Hxy, Hyx.
    rewrite IH; [|done|by apply StronglySorted_inv in H2 as [? _]].
    rewrite (occ_cons z y). case_decide as Hz; [subst z|lia].
    rewrite (occ_below_head y x l1 H1 Hyx). lia.
  - intros x l1 l2 IH H1 H2.
    rewrite set_intersection_cons, StrOrdFacts.ltb_irrefl.
    apply StronglySorted_inv in H1 as [H1 _].
    apply StronglySorted_inv in H2 as [H2 _].
    rewrite !occ_cons, IH by done. case_decide; lia.
Qed.

(** ** The merge of duplicate articles *)

Section MergeFacts.

Variable getURLServer : string → string.
Local Abbreviation keyOf := (keyOf getURLServer).
Local Abbreviation mergeUpdate := (mergeUpdate getURLServer).
Local Abbreviation articleUpdate := (articleUpdate getURLServer).
Local Abbreviation dupsOf := (dupsOf getURLServer).

Lemma mergeUpdate_other a toks m K :
  keyOf a ≠ K → mergeUpdate a toks m !! K = m !! K.
Proof.
  intros Hne. unfold mergeUpdate. fold (keyOf a).
  destruct (m !! keyOf a) as [[existing existingTokens]|];
    by rewrite lookup_insert_ne.
Qed.

Lemma mergeUpdate_fresh a toks m :
  m !! keyOf a = None → mergeUpdate a toks m !! keyOf a = Some (a, toks).
Proof.
  intros Hnone. unfold mergeUpdate. fold (keyOf a).
  by rewrite Hnone, lookup_insert_eq.
Qed.

Lemma mergeUpdate_present a toks m existing existingTokens :
  m !! keyOf a = Some (existing, existingTokens) →
  mergeUpdate a toks m !! keyOf a =
    Some ({| url := if String.ltb (url existing) (url a)
                    then url existing else url a;
             title := title a |},
          set_intersection existingTokens toks).
Proof.
  intros Hsome. unfold mergeUpdate. fold (keyOf a).
  by rewrite Hsome, lookup_insert_eq.
Qed.

Lemma entry_ok_first p :
  entry_ok (keyOf p.1) [p] (p.1, sort p.2).
Proof.
  unfold entry_ok. simpl. split_and!.
  - done.
  - exists p. split; [apply list_elem_of_singleton|]; done.
  - intros q ->%list_elem_of_singleton. reflexivity.
  - apply sort_sorted.
  - intros x. split.
    + intros q ->%list_elem_of_singleton. by rewrite occ_sort.
    + exists p. split; [by apply list_elem_of_singleton|apply occ_sort].
Qed.

Lemma entry_ok_next dups e p :
  entry_ok (keyOf p.1) dups e →
  entry_ok (keyOf p.1) (dups ++ [p])
    ({| url := if String.ltb (url e.1) (url p.1) then url e.1 else url p.1;
        title := title p.1 |},
     set_intersection e.2 (sort p.2)).
Proof.
  intros (Ht & (q & Hq & Hqu) & Hmin & Hs & Hocc).
  unfold entry_ok. simpl. split_and!.
  - done.
  - destruct (String.ltb (url e.1) (url p.1)).
    + exists q. split; [apply elem_of_app; by left|done].
    + exists p. split; [apply elem_of_app; right; by apply list_elem_of_singleton|done].
  - intros r [Hr| ->%list_elem_of_singleton]%elem_of_app.
    + destruct (String.ltb (url e.1) (url p.1)) eqn:Hlt; [by apply Hmin|].
      etrans; [exact Hlt|by apply Hmin].
    + destruct (String.ltb (url e.1) (url p.1)) eqn:Hlt;
        [by apply StrOrdFacts.lt_le|reflexivity].
  - by apply set_intersection_sorted.
  - intros x. destruct (Hocc x) as [Hle (r & Hr & Hre)].
    rewrite occ_set_intersection by (done || apply sort_sorted).
    rewrite occ_sort. split.
    + intros r' [Hr'| ->%list_elem_of_singleton]%elem_of_app; [|lia].
      specialize (Hle r' Hr'). lia.
    + destruct (decide (occ x e.2 ≤ occ x p.2)).
      * exists r. split; [apply elem_of_app; by left|lia].
      * exists p. split; [apply elem_of_app; right; by apply list_elem_of_singleton|lia].
Qed.

(** Whatever the order of the updates, the entry under [K] is the merge of
    the articles that fall under [K]. *)
Lemma fold_entry K ups :
  match dupsOf K ups with
  | [] => foldl articleUpdate ∅ ups !! K = None
  | _ => ∃ e, foldl articleUpdate ∅ ups !! K = Some e ∧
              entry_ok K (dupsOf K ups) e
  end.
Proof.
  induction ups as [|p ups IH] using rev_ind; [done|].
  rewrite foldl_app. simpl. unfold dupsOf in *. rewrite filter_app.
  unfold articleUpdate at 1 3.
  destruct (decide (keyOf p.1 = K)) as [HK|HK].
  - rewrite (filter_cons_True _ p []) by done. rewrite filter_nil.
    subst K. destruct (filter _ ups) as [|d ds] eqn:Hd.
    + simpl. eexists. split; [by apply mergeUpdate_fresh|].
      apply entry_ok_first.
    + destruct IH as ([existing existingTokens] & Hlk & Hok).
      rewrite <- app_comm_cons.
      eexists. split; [by eapply mergeUpdate_present|].
      rewrite app_comm_cons. by apply (entry_ok_next _ (existing, existingTokens)).
  - rewrite (filter_cons_False _ p []) by done. rewrite filter_nil, app_nil_r.
    by rewrite mergeUpdate_other.
Qed.

Lemma entry_ok_perm K dups dups' e :
  dups ≡ₚ dups' → entry_ok K dups e → entry_ok K dups' e.
Proof.
  intros Hp (Ht & (q & Hq & Hqu) & Hmin & Hs & Hocc).
  unfold entry_ok. split_and!; try done.
  - exists q. by rewrite <- Hp.
  - intros p Hin. apply Hmin. by rewrite Hp.
  - intros x. destruct (Hocc x) as [Hle (r & Hr & Hre)]. split.
    + intros p Hin. apply Hle. by rewrite Hp.
    + exists r. by rewrite <- Hp.
Qed.

Lemma entry_ok_unique K dups e e' :
  entry_ok K dups e → entry_ok K dups e' → e = e'.
Proof.
  intros (Ht & (q & Hq & Hqu) & Hmin & Hs & Hocc)
         (Ht' & (q' & Hq' & Hqu') & Hmin' & Hs' & Hocc').
  destruct e as [[u t] toks], e' as [[u' t'] toks']. simpl in *.
  f_equal; [f_equal|].
  - apply (anti_symm StrOrd.le).
    + rewrite Hqu'. by apply Hmin.
    + rewrite Hqu. by apply Hmin'.
  - congruence.
  - apply sorted_occ_unique; [done..|]. intros x.
    destruct (Hocc x) as [Hle (r & Hr & Hre)].
    destruct (Hocc' x) as [Hle' (r' & Hr' & Hre')].
    specialize (Hle r' Hr'). specialize (Hle' r Hr). lia.
Qed.

End MergeFacts.

(** ** Counting over the worker vector *)

Lemma sum_list_with_insert {A} (f : A → nat) (l : list A) i x y :
  l !! i = Some x →
  sum_list_with f (<[i:=y]> l) + f x = sum_list_with f l + f y.
Proof.
  revert i. induction l as [|a l IH]; intros [|i] Hi; simplify_eq/=; [lia|].
  specialize (IH i Hi). lia.
Qed.

Lemma sum_list_with_alter {A} (f : A → nat) (g : A → A) (l : list A) i x :
  l !! i = Some x →
  sum_list_with f (alter g i l) + f x = sum_list_with f l + f (g x).
Proof.
  revert i. induction l as [|a l IH]; intros [|i] Hi; simplify_eq/=; [lia|].
  specialize (IH i Hi). lia.
Qed.

Lemma sum_list_with_lookup {A} (f : A → nat) (l : list A) i x :
  l !! i = Some x → f x ≤ sum_list_with f l.
Proof.
  revert i. induction l as [|a l IH]; intros [|i] Hi; simplify_eq/=; [lia|].
  specialize (IH i Hi). lia.
Qed.

Lemma sum_list_with_replicate {A} (f : A → nat) n x :
  sum_list_with f (replicate n x) = n * f x.
Proof. induction n as [|n IH]; simpl; lia. Qed.

Lemma sum_list_with_zero {A} (f : A → nat) (l : list A) i x :
  sum_list_with f l = 0 → l !! i = Some x → f x = 0.
Proof. intros H0 Hi. pose proof (sum_list_with_lookup f l i x Hi). lia. Qed.

(** ** The invariant of the thread pool *)

Section ThreadPoolFacts.

Context {T C : Type}.
Variable start : T → C.
Local Abbreviation workerStruct := (workerStruct T C).
Local Abbreviation ThreadPool := (ThreadPool T C).
Local Abbreviation holds_thunk := (@holds_thunk T C).
Local Abbreviation busy := (@busy T C).
Local Abbreviation runs := (@runs T C).
Local Abbreviation runCount := (@runCount T C).
Local Abbreviation live := (@live T C).
Local Abbreviation signalled := (@signalled T C).
Local Abbreviation picked := (@picked T C).
Local Abbreviation worker_ok := (@worker_ok T C).
Local Abbreviation workers_ok := (@workers_ok T C).
Local Abbreviation pool_inv := (@pool_inv T C).

Lemma list_alter_insert_Some {A} (f : A → A) (l : list A) i x :
  l !! i = Some x → alter f i l = <[i := f x]> l.
Proof.
  revert i. induction l as [|a l IH]; intros [|i] Hi; simplify_eq/=; [done|].
  f_equal. by apply IH.
Qed.

Lemma workers_ok_insert pk nsid ws k w' :
  workers_ok pk nsid ws →
  worker_ok (bool_decide (pk = Some k)) (bool_decide (k < nsid)) w' →
  workers_ok pk nsid (<[k := w']> ws).
Proof.
  intros Hws Hw' i w Hi. destruct (decide (k = i)) as [->|Hne].
  - apply list_lookup_insert_Some in Hi as [(_ & <- & _)|[? _]]; done.
  - rewrite list_lookup_insert_ne in Hi by done. by apply Hws.
Qed.

Lemma worker_ok_unspawned r w : worker_ok r false w → workerInUse w = false.
Proof.
  unfold worker_ok.
  destruct (workerThread w) as [[]|]; intros H; try done;
    decompose [and] H; done.
Qed.

Lemma worker_ok_spawned r s w :
  worker_ok r s w → is_Some (workerThread w) → s = true.
Proof.
  unfold worker_ok. intros H [pc Hpc]. rewrite Hpc in H.
  destruct pc; try done; decompose [and] H; done.
Qed.

Lemma exists_free (ws : list workerStruct) :
  sum_list_with busy ws < length ws →
  ∃ j w, ws !! j = Some w ∧ workerInUse w = false.
Proof.
  induction ws as [|w ws IH]; simpl; [lia|]. intros Hlt.
  destruct (workerInUse w) eqn:Hu.
  - destruct IH as (j & wj & Hj & Hfree).
    + unfold busy at 1 in Hlt. rewrite Hu in Hlt. simpl in Hlt. lia.
    + exists (S j), wj. done.
  - exists 0, w. done.
Qed.

(** The scan picks the first worker that is not in use, and creates its
    thread when that worker is the first one without a thread. *)
Lemma scan_pick fuel : ∀ cand (ws : list workerStruct) nsid log,
  cand ≤ nsid →
  (∀ i w, ws !! i = Some w → nsid ≤ i → workerInUse w = false) →
  length ws ≤ cand + fuel →
  (∃ j w, cand ≤ j ∧ ws !! j = Some w ∧ workerInUse w = false) →
  ∃ j w, cand ≤ j ∧ j ≤ nsid ∧ ws !! j = Some w ∧ workerInUse w = false ∧
    scan fuel cand ws nsid log =
      (Z.of_nat j,
       <[j := set_workerInUse true
                (if decide (j = nsid)
                 then set_workerThread (Some WWait) w else w)]> ws,
       (if decide (j = nsid) then S nsid else nsid),
       (if decide (j = nsid) then log ++ [nsid] else log)).
Proof.
  induction fuel as [|fuel IH]; intros cand ws nsid log Hc Hun Hlen
    (j & w & Hj & Hw & Hfree).
  { apply lookup_lt_Some in Hw. lia. }
  simpl. rewrite decide_True by (apply lookup_lt_Some in Hw; lia).
  destruct (decide (cand = nsid)) as [->|Hne].
  - destruct (lookup_lt_is_Some_2 ws nsid) as [w0 Hw0];
      [apply lookup_lt_Some in Hw; lia|].
    rewrite list_lookup_alter_eq, Hw0. simpl.
    rewrite (Hun nsid w0 Hw0) by lia.
    exists nsid, w0. rewrite !decide_True by done.
    split_and!; try done; [by eapply Hun|].
    rewrite (list_alter_insert_Some _ _ _ _ Hw0), list_insert_insert_eq.
    done.
  - destruct (ws !! cand) as [wc|] eqn:Hwc;
      [|apply lookup_ge_None in Hwc; apply lookup_lt_Some in Hw; lia].
    destruct (workerInUse wc) eqn:Hu.
    + destruct (IH (S cand) ws nsid log) as (j' & w' & ? & ? & ? & ? & ->).
      * lia.
      * done.
      * lia.
      * exists j, w. split_and!; try done.
        destruct (decide (j = cand)) as [->|]; [|lia]. congruence.
      * exists j', w'. split_and!; try done; lia.
    + exists cand, wc. rewrite !decide_False by done.
      split_and!; try done; lia.
Qed.

(** *** The pool operations keep the invariant *)

Lemma pool_inv_new n : pool_inv 0 0 (ThreadPool_new n).
Proof.
  split; simpl; try done.
  - lia.
  - intros i w [-> _]%lookup_replicate. unfold worker_ok. simpl.
    repeat case_bool_decide; try done; lia.
  - rewrite sum_list_with_replicate, length_replicate. unfold busy. simpl. lia.
  - unfold live. simpl. rewrite sum_list_with_replicate.
    unfold holds_thunk. simpl. lia.
  - unfold signalled. simpl. rewrite sum_list_with_replicate.
    unfold holds_thunk. simpl. lia.
Qed.

Lemma pool_inv_push u v p thunk :
  pool_inv u v p → pool_inv (S u) v (schedule_push thunk p).
Proof.
  intros [He Hk Hn Hlog Hw Hp Ha Hl Hs Hcv]. split; try done.
  - revert Hl. unfold live. simpl. rewrite length_app. simpl. lia.
Qed.

Lemma pool_inv_count u v p :
  pool_inv (S u) v p → pool_inv u (S v) (schedule_count p).
Proof.
  intros [He Hk Hn Hlog Hw Hp Ha Hl Hs Hcv]. split; try done.
  - revert Hl. unfold live. simpl. lia.
  - revert Hs. unfold signalled. simpl. lia.
  - simpl. lia.
Qed.

Lemma pool_inv_signal u v p :
  pool_inv u (S v) p → pool_inv u v (schedule_signal p).
Proof.
  intros [He Hk Hn Hlog Hw Hp Ha Hl Hs Hcv]. split; try done.
  - revert Hs. unfold signalled. simpl. lia.
Qed.

Lemma pool_inv_wait_test u v p tid :
  pool_inv u v p → pool_inv u v (wait_test tid p).1.
Proof.
  intros [He Hk Hn Hlog Hw Hp Ha Hl Hs Hcv]. unfold wait_test.
  case_decide; [done|]. split; try done.
Qed.

Lemma pool_inv_spurious u v p tid :
  pool_inv u v p → pool_inv u v (spurious_wakeup tid p).
Proof.
  intros [He Hk Hn Hlog Hw Hp Ha Hl Hs Hcv]. split; try done.
  simpl. intros Hz. rewrite (Hcv Hz). apply set_eq. intros x.
  rewrite elem_of_difference. split; [by intros []|by intros ?%not_elem_of_empty].
Qed.

Lemma pool_inv_dispatcher u v p p' :
  pool_inv u v p → dispatcher p = Some p' → pool_inv u v p'.
Proof.
  intros [He Hk Hn Hlog Hw Hp Ha Hl Hs Hcv]. unfold dispatcher.
  unfold picked, live, signalled in *.
  destruct (dispatcherThread p) as [| | |a|a t|] eqn:Hd.
  - destruct (newThunkFromScheduler p) as [|n] eqn:Hsem; [done|].
    intros [= <-]. split; simpl; try done.
    unfold signalled. simpl. lia.
  - destruct (workerIsAvailable p) as [|n] eqn:Hsem; [done|].
    intros [= <-]. split; simpl; try done. lia.
  - rewrite He, Hk.
    destruct (scan_pick (length (workerVector p)) 0 (workerVector p)
                (nextSpawnID p) (spawnLog p)) as (j & w & _ & Hjn & Hj & Hfree & ->).
    { lia. }
    { intros i w Hi Hle. specialize (Hw i w Hi).
      rewrite (bool_decide_eq_false_2 (i < _)) in Hw by lia.
      by eapply worker_ok_unspawned. }
    { lia. }
    { destruct (exists_free (workerVector p)) as (j & w & ? & ?); [lia|].
      exists j, w. split_and!; [lia|done..]. }
    intros [= <-].
    set (w' := set_workerInUse true
                 (if decide (j = nextSpawnID p)
                  then set_workerThread (Some WWait) w else w)).
    pose proof (lookup_lt_Some _ _ _ Hj) as Hjlt.
    pose proof (Hw j w Hj) as Hok. simpl in Hok.
    assert (holds_thunk w' = holds_thunk w ∧ busy w' = S (busy w) ∧
            worker_ok true
              (bool_decide (j < (if decide (j = nextSpawnID p)
                                 then S (nextSpawnID p) else nextSpawnID p)))
              w') as (Hh & Hb & Hok').
    { unfold w'. clear w'. unfold holds_thunk, busy, worker_ok in Hok |- *.
      rewrite Hfree in Hok.
      destruct (decide (j = nextSpawnID p)) as [Hjeq|Hjne]; simpl;
        rewrite ?Hfree;
        destruct (workerThread w) as [[]|] eqn:Hth; simpl;
        try (decompose [and] Hok; done);
        decompose [and] Hok; clear Hok;
        repeat case_bool_decide; try lia; try done. }
    pose proof (sum_list_with_insert holds_thunk _ _ _ w' Hj) as Hsum1.
    pose proof (sum_list_with_insert busy _ _ _ w' Hj) as Hsum2.
    split; simpl; rewrite ?length_insert; try done.
    + by rewrite bool_decide_eq_false_2 by lia.
    + case_decide; lia.
    + case_decide; [|done]. by rewrite seq_S, Hlog.
    + unfold picked. simpl. rewrite decide_True by lia. rewrite Nat2Z.id.
      intros i wi Hi. destruct (decide (j = i)) as [<-|Hne].
      * apply list_lookup_insert_Some in Hi as [(_ & <- & _)|[? _]]; [|done].
        by rewrite bool_decide_eq_true_2 by done.
      * rewrite list_lookup_insert_ne in Hi by done.
        specialize (Hw i wi Hi). simpl in Hw.
        rewrite (bool_decide_eq_false_2 (Some j = Some i)) by congruence.
        case_decide; [|done].
        by rewrite (bool_decide_ext (i < S (nextSpawnID p))
                      (i < nextSpawnID p)) by lia.
    + lia.
    + lia.
    + unfold live. simpl. lia.
    + unfold signalled. simpl. lia.
  - destruct (thunkQueue p) as [|t q] eqn:Hq; [done|].
    intros [= <-]. split; simpl; try done.
    + unfold live. simpl. simpl in Hl. lia.
  - rewrite Hk. rewrite decide_False by lia.
    destruct (workerVector p !! Z.to_nat a) as [w|] eqn:Hwk; [|done].
    intros [= <-].
    set (w' := set_thunkToExecute (S (thunkToExecute w))
                 (set_workerThunk (Some t) w)).
    pose proof (Hw _ w Hwk) as Hok. rewrite decide_True in Hok by lia.
    rewrite bool_decide_eq_true_2 in Hok by done.
    assert (holds_thunk w' = S (holds_thunk w) ∧ busy w' = busy w ∧
            worker_ok false (bool_decide (Z.to_nat a < nextSpawnID p)) w')
      as (Hh & Hb & Hok').
    { unfold w'. clear w'. unfold holds_thunk, busy, worker_ok in Hok |- *.
      simpl.
      destruct (workerThread w) as [[]|] eqn:Hth;
        try (decompose [and] Hok; done);
        destruct (workerInUse w); decompose [and] Hok; try done;
        (split_and!; [lia|done|done|lia|eauto]). }
    pose proof (sum_list_with_insert holds_thunk _ _ _ w' Hwk) as Hsum1.
    pose proof (sum_list_with_insert busy _ _ _ w' Hwk) as Hsum2.
    split; simpl; rewrite ?length_insert; try done.
    + intros i wi Hi. destruct (decide (Z.to_nat a = i)) as [<-|Hne].
      * apply list_lookup_insert_Some in Hi as [(_ & <- & _)|[? _]]; done.
      * rewrite list_lookup_insert_ne in Hi by done.
        specialize (Hw i wi Hi). rewrite decide_True in Hw by lia.
        by rewrite bool_decide_eq_false_2 in Hw by congruence.
    + lia.
    + unfold live. simpl. lia.
    + unfold signalled. simpl. lia.
  - done.
Qed.

(** Replacing one worker by one that holds as many thunks and takes up as
    many permits keeps the invariant. *)
Lemma pool_inv_set_worker u v p k w w' :
  pool_inv u v p → workerVector p !! k = Some w →
  worker_ok (bool_decide (picked p = Some k))
            (bool_decide (k < nextSpawnID p)) w' →
  holds_thunk w' = holds_thunk w → busy w' = busy w →
  pool_inv u v (set_worker k w' p).
Proof.
  intros [He Hk Hn Hlog Hw Hp Ha Hl Hs Hcv] Hwk Hok Hh Hb.
  pose proof (sum_list_with_insert holds_thunk _ _ _ w' Hwk) as Hsum1.
  pose proof (sum_list_with_insert busy _ _ _ w' Hwk) as Hsum2.
  split; simpl; rewrite ?length_insert; try done.
  - by apply workers_ok_insert.
  - lia.
  - revert Hl. unfold live. simpl. lia.
  - revert Hs. unfold signalled. simpl. lia.
Qed.

Lemma pool_inv_worker u v p p' workerID :
  pool_inv u v p → worker start workerID p = Some p' → pool_inv u v p'.
Proof.
  intros Hinv. pose proof Hinv as [He Hk Hn Hlog Hw Hp Ha Hl Hs Hcv].
  unfold worker.
  destruct (workerVector p !! workerID) as [w|] eqn:Hwk; [|done].
  pose proof (Hw _ w Hwk) as Hok.
  destruct (workerThread w) as [[| |c| | | |]|] eqn:Hth; try done.
  - destruct (thunkToExecute w) as [|n] eqn:Hsem; [done|].
    intros [= <-]. eapply pool_inv_set_worker; [done..| | |].
    + unfold worker_ok in *. rewrite Hth, Hsem in Hok. simpl. revert Hok.
      destruct (workerInUse w), (bool_decide (picked p = Some workerID));
        intros Hok; decompose [and] Hok; split_and!; try done; lia.
    + unfold worker_ok, holds_thunk in *. rewrite Hth, Hsem in *. simpl.
      revert Hok.
      destruct (workerInUse w), (bool_decide (picked p = Some workerID));
        intros Hok; decompose [and] Hok; try done; lia.
    + unfold busy. simpl. by rewrite Hth.
  - rewrite He. destruct (workerThunk w) as [t|] eqn:Htk; [|done].
    intros [= <-]. eapply pool_inv_set_worker; [done..| | |].
    + unfold worker_ok in *. rewrite Hth in Hok. simpl.
      decompose [and] Hok; done.
    + unfold holds_thunk. simpl. by rewrite Hth.
    + unfold busy. simpl. by rewrite Hth.
  - intros [= <-].
    set (w' := set_workerThread (Some WFree) w).
    pose proof (sum_list_with_insert holds_thunk _ _ _ w' Hwk) as Hsum1.
    pose proof (sum_list_with_insert busy _ _ _ w' Hwk) as Hsum2.
    assert (holds_thunk w = S (holds_thunk w') ∧ busy w' = busy w ∧
            worker_ok (bool_decide (picked p = Some workerID))
              (bool_decide (workerID < nextSpawnID p)) w') as (Hh & Hb & Hok').
    { unfold w'. unfold worker_ok, holds_thunk, busy in Hok |- *. simpl.
      rewrite Hth in *. decompose [and] Hok. split_and!; try done; lia. }
    destruct (decide ((pendingThunks p - 1)%Z = 0%Z)) as [Hz|Hz];
      split; simpl; rewrite ?length_insert; try done;
      try (by apply workers_ok_insert); try lia;
      try (revert Hl Hs; unfold live, signalled; simpl; lia).
  - rewrite Hk. intros [= <-]. eapply pool_inv_set_worker; [done..| | |].
    + unfold worker_ok in *. rewrite Hth in Hok. simpl.
      decompose [and] Hok; done.
    + unfold holds_thunk. simpl. by rewrite Hth.
    + unfold worker_ok, busy in *. simpl. rewrite Hth in *.
      destruct Hok as (_ & _ & -> & _). done.
  - intros [= <-].
    set (w' := set_workerThread (Some WWait) w).
    pose proof (sum_list_with_insert holds_thunk _ _ _ w' Hwk) as Hsum1.
    pose proof (sum_list_with_insert busy _ _ _ w' Hwk) as Hsum2.
    assert (holds_thunk w' = holds_thunk w ∧ busy w = S (busy w') ∧
            worker_ok (bool_decide (picked p = Some workerID))
              (bool_decide (workerID < nextSpawnID p)) w') as (Hh & Hb & Hok').
    { unfold w'. unfold worker_ok, holds_thunk, busy in Hok |- *. simpl.
      rewrite Hth in *. split_and!; try done; try lia; apply Hok. }
    split; simpl; rewrite ?length_insert; try done;
      try (by apply workers_ok_insert); try lia;
      try (revert Hl Hs; unfold live, signalled; simpl; lia).
Qed.

Lemma running_Some workerID (p : ThreadPool) c :
  running workerID p = Some c ↔
  ∃ w, workerVector p !! workerID = Some w ∧ workerThread w = Some (WRun c).
Proof.
  unfold running. split.
  - destruct (workerVector p !! workerID) as [w|]; [|done].
    destruct (workerThread w) as [[]|] eqn:H; try done.
    intros [= ->]. eauto.
  - intros (w & -> & ->). done.
Qed.

Lemma pool_inv_goto u v p workerID c c' :
  pool_inv u v p → running workerID p = Some c →
  pool_inv u v (thunk_goto workerID c' p).
Proof.
  intros Hinv (w & Hwk & Hth)%running_Some. unfold thunk_goto.
  rewrite (list_alter_insert_Some _ _ _ _ Hwk).
  eapply (pool_inv_set_worker _ _ _ _ w); [done..| | |].
  - pose proof (inv_workers _ _ _ Hinv _ _ Hwk) as Hok.
    unfold worker_ok in *. simpl. by rewrite Hth in Hok.
  - unfold holds_thunk. simpl. by rewrite Hth.
  - unfold busy. simpl. by rewrite Hth.
Qed.

Lemma pool_inv_return u v p workerID c :
  pool_inv u v p → running workerID p = Some c →
  pool_inv u v (thunk_return workerID p).
Proof.
  intros Hinv (w & Hwk & Hth)%running_Some. unfold thunk_return.
  rewrite (list_alter_insert_Some _ _ _ _ Hwk).
  eapply (pool_inv_set_worker _ _ _ _ w); [done..| | |].
  - pose proof (inv_workers _ _ _ Hinv _ _ Hwk) as Hok.
    unfold worker_ok in *. simpl. by rewrite Hth in Hok.
  - unfold holds_thunk. simpl. by rewrite Hth.
  - unfold busy. simpl. by rewrite Hth.
Qed.

(** *** How the operations change the number of running thunks *)

Lemma runCount_goto P (p : ThreadPool) workerID c c' :
  running workerID p = Some c →
  runCount P (thunk_goto workerID c' p) + b2n (P c) = runCount P p + b2n (P c').
Proof.
  intros (w & Hw & Hth)%running_Some. unfold runCount, thunk_goto. simpl.
  pose proof (sum_list_with_alter (runs P)
                (set_workerThread (Some (WRun c'))) _ _ _ Hw) as Hsum.
  unfold runs at 2 4 in Hsum. simpl in Hsum. rewrite Hth in Hsum. lia.
Qed.

Lemma runCount_return P (p : ThreadPool) workerID c :
  running workerID p = Some c →
  runCount P (thunk_return workerID p) + b2n (P c) = runCount P p.
Proof.
  intros (w & Hw & Hth)%running_Some. unfold runCount, thunk_return. simpl.
  pose proof (sum_list_with_alter (runs P)
                (set_workerThread (Some WDecr)) _ _ _ Hw) as Hsum.
  unfold runs at 2 4 in Hsum. simpl in Hsum. rewrite Hth in Hsum. lia.
Qed.

Lemma runCount_dispatcher P u v p p' :
  pool_inv u v p → dispatcher p = Some p' → runCount P p' = runCount P p.
Proof.
  intros [He Hk Hn Hlog Hw Hp Ha Hl Hs Hcv]. unfold dispatcher, runCount.
  destruct (dispatcherThread p) as [| | |a|a t|] eqn:Hd.
  - destruct (newThunkFromScheduler p); [done|]. by intros [= <-].
  - destruct (workerIsAvailable p); [done|]. by intros [= <-].
  - rewrite He, Hk.
    destruct (scan_pick (length (workerVector p)) 0 (workerVector p)
                (nextSpawnID p) (spawnLog p)) as (j & w & _ & Hjn & Hj & Hfree & ->).
    { lia. }
    { intros i w Hi Hle. specialize (Hw i w Hi).
      rewrite (bool_decide_eq_false_2 (i < _)) in Hw by lia.
      by eapply worker_ok_unspawned. }
    { lia. }
    { destruct (exists_free (workerVector p)) as (j & w & ? & ?); [lia|].
      exists j, w. split_and!; [lia|done..]. }
    intros [= <-]. simpl.
    pose proof (sum_list_with_insert (runs P) _ _ _
      (set_workerInUse true
         (if decide (j = nextSpawnID p)
          then set_workerThread (Some WWait) w else w)) Hj) as Hsum.
    assert (runs P (set_workerInUse true
         (if decide (j = nextSpawnID p)
          then set_workerThread (Some WWait) w else w)) = runs P w) as Hr.
    { case_decide as Hjeq; [|done]. unfold runs. simpl.
      specialize (Hw j w Hj). simpl in Hw.
      rewrite (bool_decide_eq_false_2 (j < _)) in Hw by lia.
      unfold worker_ok in Hw.
      destruct (workerThread w) as [[]|]; try done; decompose [and] Hw; done. }
    lia.
  - destruct (thunkQueue p); [done|]. by intros [= <-].
  - destruct (workersLock p); [done|]. case_decide; [done|].
    destruct (workerVector p !! Z.to_nat a) as [w|] eqn:Hwk; [|done].
    intros [= <-]. simpl.
    pose proof (sum_list_with_insert (runs P) _ _ _
      (set_thunkToExecute (S (thunkToExecute w))
         (set_workerThunk (Some t) w)) Hwk) as Hsum.
    unfold runs at 2 4 in Hsum. simpl in Hsum. lia.
  - done.
Qed.

Lemma runCount_worker P (p p' : ThreadPool) workerID :
  (∀ t, P (start t) = false) →
  worker start workerID p = Some p' → runCount P p' = runCount P p.
Proof.
  intros Hstart. unfold worker, runCount.
  destruct (workerVector p !! workerID) as [w|] eqn:Hw; [|done].
  destruct (workerThread w) as [[| |c| | | |]|] eqn:Hth; try done.
  - destruct (thunkToExecute w) as [|n]; [done|]. intros [= <-]. simpl.
    pose proof (sum_list_with_insert (runs P) _ _ _
      (set_workerThread (Some WCheck) (set_thunkToExecute n w)) Hw) as Hsum.
    unfold runs at 2 4 in Hsum. simpl in Hsum. rewrite Hth in Hsum. lia.
  - destruct (exitFlag p).
    + intros [= <-]. simpl.
      pose proof (sum_list_with_insert (runs P) _ _ _
        (set_workerThread (Some WExit) w) Hw) as Hsum.
      unfold runs at 2 4 in Hsum. simpl in Hsum. rewrite Hth in Hsum. lia.
    + destruct (workerThunk w) as [t|]; [|done]. intros [= <-]. simpl.
      pose proof (sum_list_with_insert (runs P) _ _ _
        (set_workerThread (Some (WRun (start t))) w) Hw) as Hsum.
      unfold runs at 2 4 in Hsum. simpl in Hsum.
      rewrite Hth, Hstart in Hsum. simpl in Hsum. lia.
  - intros [= <-].
    pose proof (sum_list_with_insert (runs P) _ _ _
      (set_workerThread (Some WFree) w) Hw) as Hsum.
    unfold runs at 2 4 in Hsum. simpl in Hsum. rewrite Hth in Hsum.
    case_decide; simpl; lia.
  - destruct (workersLock p); [done|]. intros [= <-]. simpl.
    pose proof (sum_list_with_insert (runs P) _ _ _
      (set_workerThread (Some WSignal) (set_workerInUse false w)) Hw) as Hsum.
    unfold runs at 2 4 in Hsum. simpl in Hsum. rewrite Hth in Hsum. lia.
  - intros [= <-]. simpl.
    pose proof (sum_list_with_insert (runs P) _ _ _
      (set_workerThread (Some WWait) w) Hw) as Hsum.
    unfold runs at 2 4 in Hsum. simpl in Hsum. rewrite Hth in Hsum. lia.
Qed.

Lemma runs_le_holds P (w : workerStruct) : runs P w ≤ holds_thunk w.
Proof.
  unfold runs, holds_thunk.
  destruct (workerThread w) as [[| |c| | | |]|]; try lia.
  destruct (P c); simpl; lia.
Qed.

Lemma runCount_le_live P (p : ThreadPool) : runCount P p ≤ live p.
Proof.
  unfold runCount, live.
  assert (sum_list_with (runs P) (workerVector p)
          ≤ sum_list_with holds_thunk (workerVector p)); [|lia].
  induction (workerVector p) as [|w ws IH]; simpl; [lia|].
  pose proof (runs_le_holds P w). lia.
Qed.

Lemma running_runCount P (p : ThreadPool) workerID c :
  running workerID p = Some c → P c = true → 0 < runCount P p.
Proof.
  intros (w & Hw & Hth)%running_Some HP. unfold runCount.
  pose proof (sum_list_with_lookup (runs P) _ _ _ Hw) as Hle.
  unfold runs at 1 in Hle. rewrite Hth, HP in Hle. simpl in Hle. lia.
Qed.

Lemma running_live (p : ThreadPool) workerID c :
  running workerID p = Some c → 0 < live p.
Proof.
  intros Hr. pose proof (running_runCount (λ _, true) p workerID c Hr eq_refl).
  pose proof (runCount_le_live (λ _, true) p). lia.
Qed.

(** *** What the pool threads leave alone *)

Lemma pending_dispatcher (p p' : ThreadPool) :
  dispatcher p = Some p' →
  pendingThunks p' = pendingThunks p ∧
  pendingThunksCondVar p' = pendingThunksCondVar p.
Proof.
  unfold dispatcher. intros Hstep.
  repeat (simplify_eq/=; try done; case_match).
Qed.

Lemma pending_worker (p p' : ThreadPool) workerID :
  worker start workerID p = Some p' →
  (pendingThunks p' ≤ pendingThunks p)%Z.
Proof.
  unfold worker. intros Hstep.
  repeat (simplify_eq/=; try done; try lia; case_match).
Qed.

Lemma length_dispatcher u v p p' :
  pool_inv u v p → dispatcher p = Some p' →
  length (workerVector p') = length (workerVector p).
Proof.
  intros Hinv Hstep.
  pose proof (inv_avail _ _ _ (pool_inv_dispatcher _ _ _ _ Hinv Hstep)) as H1.
  pose proof (inv_avail _ _ _ Hinv) as H2.
  revert H1 H2 Hstep. unfold dispatcher.
  pose proof (inv_lock _ _ _ Hinv) as Hk. pose proof (inv_exit _ _ _ Hinv) as He.
  destruct (dispatcherThread p) as [| | |a|a t|] eqn:Hd; intros H1 H2.
  - destruct (newThunkFromScheduler p); [done|]. by intros [= <-].
  - destruct (workerIsAvailable p); [done|]. by intros [= <-].
  - rewrite He, Hk.
    destruct (scan_pick (length (workerVector p)) 0 (workerVector p)
                (nextSpawnID p) (spawnLog p)) as (j & w & _ & Hjn & Hj & Hfree & ->).
    { lia. }
    { intros i w Hi Hle. pose proof (inv_workers _ _ _ Hinv i w Hi) as Hw.
      rewrite (bool_decide_eq_false_2 (i < _)) in Hw by lia.
      by eapply worker_ok_unspawned. }
    { lia. }
    { destruct (exists_free (workerVector p)) as (j & w & ? & ?); [lia|].
      exists j, w. split_and!; [lia|done..]. }
    intros [= <-]. simpl. by rewrite length_insert.
  - destruct (thunkQueue p); [done|]. by intros [= <-].
  - destruct (workersLock p); [done|]. case_decide; [done|].
    destruct (workerVector p !! Z.to_nat a); [|done].
    intros [= <-]. simpl. by rewrite length_insert.
  - done.
Qed.

Lemma length_worker (p p' : ThreadPool) workerID :
  worker start workerID p = Some p' →
  length (workerVector p') = length (workerVector p).
Proof.
  unfold worker. intros Hstep.
  repeat (simplify_eq/=; rewrite ?length_insert; try done; case_match).
Qed.

(** *** The pool threads never reach undefined behaviour *)

(** Past its two semaphores the dispatcher can always make its step: the
    scan finds a worker, the queue is not empty when it is popped, and the
    picked index is that of a worker. *)
Lemma dispatcher_enabled u v p :
  pool_inv u v p →
  dispatcherThread p ≠ DWaitThunk → dispatcherThread p ≠ DWaitWorker →
  is_Some (dispatcher p).
Proof.
  intros [He Hk Hn Hlog Hw Hp Ha Hl Hs Hcv] Hd1 Hd2. unfold dispatcher.
  unfold live, signalled in *.
  destruct (dispatcherThread p) as [| | |a|a t|] eqn:Hd; try done.
  - rewrite He, Hk. destruct (scan _ _ _ _ _) as [[[a ws] nsid] log]. eauto.
  - destruct (thunkQueue p); simpl in *; [lia|eauto].
  - rewrite Hk, decide_False by lia.
    destruct (lookup_lt_is_Some_2 (workerVector p) (Z.to_nat a)) as [w ->];
      [lia|eauto].
Qed.

(** A worker that has left the thunk completes its bookkeeping: none of the
    three steps after the call can block. *)
Lemma worker_enabled_after_thunk u v p workerID w :
  pool_inv u v p → workerVector p !! workerID = Some w →
  workerThread w = Some WDecr ∨ workerThread w = Some WFree ∨
    workerThread w = Some WSignal →
  is_Some (worker start workerID p).
Proof.
  intros [He Hk Hn Hlog Hw Hp Ha Hl Hs Hcv] Hwk Hpc. unfold worker.
  rewrite Hwk. destruct Hpc as [->|[->| ->]]; rewrite ?Hk; eauto.
Qed.

End ThreadPoolFacts.

(** *** The invariant of a pool with its clients *)

Section ClientsFacts.

Context {T : Type}.
Import Clients.
Local Abbreviation state := (Clients.state T).
Local Abbreviation label := (Clients.label T).

Lemma count_pc_insert pc (cs : list clientPC) c old new :
  cs !! c = Some old →
  count_pc pc (<[c := new]> cs) + (if decide (old = pc) then 1 else 0) =
  count_pc pc cs + (if decide (new = pc) then 1 else 0).
Proof.
  intros Hc. unfold count_pc.
  apply (sum_list_with_insert (λ c, if decide (c = pc) then 1 else 0)
           cs c old new Hc).
Qed.

Lemma count_pc_replicate pc pc' n :
  pc ≠ pc' → count_pc pc' (replicate n pc) = 0.
Proof.
  intros Hne. unfold count_pc. rewrite sum_list_with_replicate.
  rewrite decide_False by done. lia.
Qed.

Lemma init_inv numThreads numClients :
  sys_inv (init (T:=T) numThreads numClients).
Proof.
  unfold sys_inv, init. simpl.
  rewrite !count_pc_replicate by done. apply pool_inv_new.
Qed.

Lemma client_wait_inv c (s : state) pc :
  clients s !! c = Some pc → pc = CIdle ∨ pc = CBlocked →
  sys_inv s → sys_inv (client_wait c s).
Proof.
  unfold sys_inv, client_wait. intros Hc Hpc Hinv.
  pose proof (pool_inv_wait_test _ _ _ c Hinv) as Hinv'.
  destruct (wait_test c (pool s)) as [p returned]. simpl in *.
  pose proof (count_pc_insert CPushed _ _ _
                (if returned then CIdle else CBlocked) Hc) as H1.
  pose proof (count_pc_insert CCounted _ _ _
                (if returned then CIdle else CBlocked) Hc) as H2.
  assert (count_pc CPushed (<[c:=if returned then CIdle else CBlocked]>
            (clients s)) = count_pc CPushed (clients s)) as ->.
  { destruct Hpc as [-> | ->], returned; simpl in *; lia. }
  assert (count_pc CCounted (<[c:=if returned then CIdle else CBlocked]>
            (clients s)) = count_pc CCounted (clients s)) as ->.
  { destruct Hpc as [-> | ->], returned; simpl in *; lia. }
  done.
Qed.

Lemma step_inv (l : label) (s s' : state) :
  sys_inv s → step l s = Some s' → sys_inv s'.
Proof.
  intros Hinv. unfold step. destruct (terminated s); [done|].
  destruct l as [c thunk|c|c|c| |k|k o].
  - destruct (clients s !! c) as [[]|] eqn:Hc; try done. intros [= <-].
    unfold sys_inv in *. simpl.
    pose proof (count_pc_insert CPushed _ _ _ CPushed Hc) as H1.
    pose proof (count_pc_insert CCounted _ _ _ CPushed Hc) as H2.
    simpl in *.
    replace (count_pc CPushed (<[c:=CPushed]> (clients s)))
      with (S (count_pc CPushed (clients s))) by lia.
    replace (count_pc CCounted (<[c:=CPushed]> (clients s)))
      with (count_pc CCounted (clients s)) by lia.
    by apply pool_inv_push.
  - destruct (clients s !! c) as [[]|] eqn:Hc; try done. intros [= <-].
    eapply client_wait_inv; eauto.
  - destruct (clients s !! c) as [[]|] eqn:Hc; try done.
    + intros [= <-]. unfold sys_inv in *. simpl.
      pose proof (count_pc_insert CPushed _ _ _ CCounted Hc) as H1.
      pose proof (count_pc_insert CCounted _ _ _ CCounted Hc) as H2.
      simpl in *.
      replace (count_pc CCounted (<[c:=CCounted]> (clients s)))
        with (S (count_pc CCounted (clients s))) by lia.
      apply pool_inv_count.
      replace (S (count_pc CPushed (<[c:=CCounted]> (clients s))))
        with (count_pc CPushed (clients s)) by lia.
      done.
    + intros [= <-]. unfold sys_inv in *. simpl.
      pose proof (count_pc_insert CPushed _ _ _ CIdle Hc) as H1.
      pose proof (count_pc_insert CCounted _ _ _ CIdle Hc) as H2.
      simpl in *.
      replace (count_pc CPushed (<[c:=CIdle]> (clients s)))
        with (count_pc CPushed (clients s)) by lia.
      apply pool_inv_signal.
      replace (S (count_pc CCounted (<[c:=CIdle]> (clients s))))
        with (count_pc CCounted (clients s)) by lia.
      done.
    + destruct (wait_woken c (pool s)); [|done]. intros [= <-].
      eapply client_wait_inv; eauto.
  - intros [= <-]. by apply pool_inv_spurious.
  - destruct (dispatcher (pool s)) as [p|] eqn:Hd; [|done]. intros [= <-].
    by eapply pool_inv_dispatcher.
  - destruct (worker id k (pool s)) as [p|] eqn:Hw; [|done]. intros [= <-].
    by eapply pool_inv_worker.
  - destruct (running k (pool s)) as [t|] eqn:Hr; [|done].
    destruct o; intros [= <-]; [|done].
    by eapply pool_inv_return.
Qed.

Lemma exec_inv (tr : list label) : ∀ s s' : state,
  sys_inv s → exec tr s = Some s' → sys_inv s'.
Proof.
  induction tr as [|l tr IH]; intros s s' Hinv; simpl.
  - by intros [= <-].
  - destruct (step l s) as [s1|] eqn:Hstep; [|done]. simpl.
    apply IH. by eapply step_inv.
Qed.

Lemma step_length (l : label) (s s' : state) :
  sys_inv s → step l s = Some s' →
  length (workerVector (pool s')) = length (workerVector (pool s)).
Proof.
  intros Hinv. unfold step. destruct (terminated s); [done|].
  destruct l as [c thunk|c|c|c| |k|k o].
  - destruct (clients s !! c) as [[]|]; try done. by intros [= <-].
  - destruct (clients s !! c) as [[]|]; try done. intros [= <-].
    unfold client_wait, wait_test. by case_decide.
  - destruct (clients s !! c) as [[]|]; try done; try by intros [= <-].
    destruct (wait_woken c (pool s)); [|done]. intros [= <-].
    unfold client_wait, wait_test. by case_decide.
  - by intros [= <-].
  - destruct (dispatcher (pool s)) as [p|] eqn:Hd; [|done]. intros [= <-].
    by eapply length_dispatcher.
  - destruct (worker id k (pool s)) as [p|] eqn:Hw; [|done]. intros [= <-].
    by eapply length_worker.
  - destruct (running k (pool s)); [|done].
    destruct o; intros [= <-]; [|done]. simpl. by rewrite length_alter.
Qed.

Lemma exec_length (tr : list label) : ∀ s s' : state,
  sys_inv s → exec tr s = Some s' →
  length (workerVector (pool s')) = length (workerVector (pool s)).
Proof.
  induction tr as [|l tr IH]; intros s s' Hinv; simpl.
  - by intros [= <-].
  - destruct (step l s) as [s1|] eqn:Hstep; [|done]. simpl. intros Hex.
    rewrite (IH s1 s') by (done || by eapply step_inv).
    by eapply step_length.
Qed.

End ClientsFacts.

(** ** More counting over a pool *)

Section ThreadPoolCounting.

Context {T C : Type}.
Local Abbreviation ThreadPool := (ThreadPool T C).

Lemma runCount_mono (P Q : C → bool) (p : ThreadPool) :
  (∀ c, P c = true → Q c = true) → runCount P p ≤ runCount Q p.
Proof.
  intros HPQ. unfold runCount.
  induction (workerVector p) as [|w ws IH]; simpl; [lia|].
  assert (runs P w ≤ runs Q w); [|lia].
  unfold runs. destruct (workerThread w) as [[| |c| | | |]|]; try lia.
  destruct (P c) eqn:HP; [|simpl; lia]. by rewrite (HPQ c HP).
Qed.

Lemma live_goto (p : ThreadPool) workerID c c' :
  running workerID p = Some c → live (thunk_goto workerID c' p) = live p.
Proof.
  intros (w & Hw & Hth)%running_Some. unfold live, thunk_goto. simpl.
  pose proof (sum_list_with_alter holds_thunk
                (set_workerThread (Some (WRun c'))) _ _ _ Hw) as Hsum.
  unfold holds_thunk at 2 4 in Hsum. simpl in Hsum. rewrite Hth in Hsum. lia.
Qed.

Lemma live_return (p : ThreadPool) workerID c :
  running workerID p = Some c → live (thunk_return workerID p) = live p.
Proof.
  intros (w & Hw & Hth)%running_Some. unfold live, thunk_return. simpl.
  pose proof (sum_list_with_alter holds_thunk
                (set_workerThread (Some WDecr)) _ _ _ Hw) as Hsum.
  unfold holds_thunk at 2 4 in Hsum. simpl in Hsum. rewrite Hth in Hsum. lia.
Qed.

Lemma wait_test_workers tid (p : ThreadPool) :
  workerVector (wait_test tid p).1 = workerVector p.
Proof. unfold wait_test. by case_decide. Qed.

Lemma wait_test_live tid (p : ThreadPool) :
  live (wait_test tid p).1 = live p.
Proof. unfold wait_test. by case_decide. Qed.

Lemma wait_test_returned tid (p : ThreadPool) :
  (wait_test tid p).2 = true → pendingThunks p = 0%Z.
Proof. unfold wait_test. by case_decide. Qed.

Lemma wait_test_runCount P tid (p : ThreadPool) :
  runCount P (wait_test tid p).1 = runCount P p.
Proof. unfold runCount. by rewrite wait_test_workers. Qed.

(** A pool step of the dispatcher or of a worker cannot bring a thunk to a
    pool that has none. *)
Lemma live_zero_dispatcher u v (p p' : ThreadPool) :
  pool_inv u v p → dispatcher p = Some p' → live p = 0 → live p' = 0.
Proof.
  intros Hinv Hstep H0.
  pose proof (inv_live _ _ _ (pool_inv_dispatcher _ _ _ _ Hinv Hstep)) as H1.
  pose proof (inv_live _ _ _ Hinv) as H2.
  destruct (pending_dispatcher _ _ Hstep) as [Hp _]. lia.
Qed.

Lemma live_zero_worker (start : T → C) u v (p p' : ThreadPool) workerID :
  pool_inv u v p → worker start workerID p = Some p' →
  live p = 0 → live p' = 0.
Proof.
  intros Hinv Hstep H0.
  pose proof (inv_live _ _ _ (pool_inv_worker _ _ _ _ _ _ Hinv Hstep)) as H1.
  pose proof (inv_live _ _ _ Hinv) as H2.
  pose proof (pending_worker _ _ _ _ Hstep) as Hp. lia.
Qed.

Lemma runCount_new P n : runCount P (ThreadPool_new (T:=T) (C:=C) n) = 0.
Proof.
  unfold runCount. simpl. rewrite sum_list_with_replicate.
  unfold runs. simpl. lia.
Qed.

Lemma live_new n : live (ThreadPool_new (T:=T) (C:=C) n) = 0.
Proof.
  unfold live. simpl. rewrite sum_list_with_replicate.
  unfold holds_thunk. simpl. lia.
Qed.

(** The three steps of a worker after its thunk. *)
Lemma worker_at_WDecr (start : T → C) (p : ThreadPool) workerID w :
  workerVector p !! workerID = Some w → workerThread w = Some WDecr →
  ∃ p', worker start workerID p = Some p' ∧
    pendingThunks p' = (pendingThunks p - 1)%Z ∧
    workerVector p' =
      <[workerID := set_workerThread (Some WFree) w]> (workerVector p) ∧
    workersLock p' = workersLock p ∧
    workerIsAvailable p' = workerIsAvailable p.
Proof.
  intros Hw Hth. unfold worker. rewrite Hw, Hth. eexists. split; [done|].
  by case_decide.
Qed.

Lemma worker_at_WFree (start : T → C) (p : ThreadPool) workerID w :
  workerVector p !! workerID = Some w → workerThread w = Some WFree →
  workersLock p = false →
  ∃ p', worker start workerID p = Some p' ∧
    pendingThunks p' = pendingThunks p ∧
    workerVector p' =
      <[workerID := set_workerThread (Some WSignal)
                      (set_workerInUse false w)]> (workerVector p) ∧
    workerIsAvailable p' = workerIsAvailable p.
Proof.
  intros Hw Hth Hk. unfold worker. rewrite Hw, Hth, Hk. eexists. done.
Qed.

Lemma worker_at_WSignal (start : T → C) (p : ThreadPool) workerID w :
  workerVector p !! workerID = Some w → workerThread w = Some WSignal →
  ∃ p', worker start workerID p = Some p' ∧
    pendingThunks p' = pendingThunks p ∧
    workerIsAvailable p' = S (workerIsAvailable p).
Proof.
  intros Hw Hth. unfold worker. rewrite Hw, Hth. eexists. done.
Qed.

Lemma live_zero_not_running (p : ThreadPool) workerID :
  live p = 0 → running workerID p = None.
Proof.
  intros H0. destruct (running workerID p) as [c|] eqn:Hr; [|done].
  apply running_live in Hr. lia.
Qed.

End ThreadPoolCounting.

(** ** The invariant of the aggregator *)

Section AggregatorFacts.

Variable getURLServer : string → string.
Variable rssFeedListURI : string.
Variable parseFeedList : string → option (gmap string string).
Variable parseFeed : string → option (list Article).
Variable parseDocument : string → option (list string).
Import Aggregator.
Local Abbreviation step :=
  (Aggregator.step getURLServer rssFeedListURI parseFeedList parseFeed
     parseDocument).
Local Abbreviation exec :=
  (Aggregator.exec getURLServer rssFeedListURI parseFeedList parseFeed
     parseDocument).
Local Abbreviation main_step :=
  (Aggregator.main_step rssFeedListURI parseFeedList).
Local Abbreviation feed_step := (Aggregator.feed_step parseFeed).
Local Abbreviation article_step :=
  (Aggregator.article_step getURLServer parseDocument).
Local Abbreviation index_ok := (index_ok getURLServer).
Local Abbreviation agg_inv := (agg_inv getURLServer).
Local Abbreviation no_feeds :=
  (no_feeds rssFeedListURI parseFeedList).

Lemma mergeUpdate_index_ok a toks m :
  index_ok m → StronglySorted StrOrd.le toks →
  index_ok (mergeUpdate getURLServer a toks m).
Proof.
  intros Hm Hs K a' toks' Hlk.
  destruct (decide (keyOf getURLServer a = K)) as [<-|Hne].
  - destruct (m !! keyOf getURLServer a) as [[ex extoks]|] eqn:Hex.
    + rewrite (mergeUpdate_present _ _ _ _ _ _ Hex) in Hlk.
      destruct (Hm _ _ _ Hex) as (Ht & Hsrv & Hsorted).
      simplify_eq. simpl. split_and!; [done| |by apply set_intersection_sorted].
      by destruct (String.ltb (url ex) (url a)).
    + rewrite (mergeUpdate_fresh _ _ _ _ Hex) in Hlk. by simplify_eq.
  - rewrite mergeUpdate_other in Hlk by done. by eapply Hm.
Qed.

Lemma occ_app x l1 l2 : occ x (l1 ++ l2) = occ x l1 + occ x l2.
Proof. unfold occ. apply count_occ_app. Qed.

Lemma occ_singleton x y : occ x [y] = b2n (bool_decide (y = x)).
Proof.
  rewrite occ_cons. unfold occ. simpl.
  case_decide; case_bool_decide; done.
Qed.

Lemma init_agg_inv : agg_inv init.
Proof.
  split; unfold init;
    cbn [feedPool articlePool mainThread claimed fetched seenURLs
         intermediateIndex built mainPushed mainCounted merged];
    rewrite ?runCount_new, ?live_new; try done.
  - apply pool_inv_new.
  - apply pool_inv_new.
Qed.

(** *** Steps of the pool threads *)

Lemma feedStart_not P :
  (∀ u t, P (FClaim u t) = false) → ∀ t, P (feedStart t) = false.
Proof. intros HP t. apply HP. Qed.

Lemma articleStart_not P :
  (∀ a, P (AClaim a) = false) → ∀ t, P (articleStart t) = false.
Proof. intros HP t. apply HP. Qed.

Lemma inv_feed_dispatcher s p :
  agg_inv s → dispatcher (feedPool s) = Some p →
  agg_inv (set_feedPool p s).
Proof.
  intros [HF HA Hq Hl Hc Hf Hs Hi Hmg Hb] Hstep.
  split; simpl; try done;
    rewrite ?(runCount_dispatcher _ _ _ _ _ HF Hstep); try done.
  - by eapply pool_inv_dispatcher.
  - intros Hm. eapply live_zero_dispatcher; eauto.
  - intros u. rewrite (runCount_dispatcher _ _ _ _ _ HF Hstep). apply Hf.
Qed.

Lemma inv_feed_worker s p workerID :
  agg_inv s → worker feedStart workerID (feedPool s) = Some p →
  agg_inv (set_feedPool p s).
Proof.
  intros [HF HA Hq Hl Hc Hf Hs Hi Hmg Hb] Hstep.
  split; simpl; try done;
    rewrite ?(runCount_worker feedStart isFCount _ _ _
                ltac:(by intros []) Hstep),
            ?(runCount_worker feedStart isFSignal _ _ _
                ltac:(by intros []) Hstep),
            ?(runCount_worker feedStart inLaunch _ _ _
                ltac:(by intros []) Hstep); try done.
  - by eapply pool_inv_worker.
  - intros Hm. eapply live_zero_worker; eauto.
  - intros u.
    rewrite (runCount_worker feedStart (isFParse u) _ _ _
               ltac:(by intros []) Hstep). apply Hf.
Qed.

Lemma inv_feed_spurious s tid :
  agg_inv s → agg_inv (set_feedPool (spurious_wakeup tid (feedPool s)) s).
Proof.
  intros [HF HA Hq Hl Hc Hf Hs Hi Hmg Hb].
  split; simpl; try done. by apply pool_inv_spurious.
Qed.

Lemma inv_article_dispatcher s p :
  agg_inv s → dispatcher (articlePool s) = Some p →
  agg_inv (set_articlePool p s).
Proof.
  intros [HF HA Hq Hl Hc Hf Hs Hi Hmg Hb] Hstep.
  split; simpl; try done;
    rewrite ?(runCount_dispatcher _ _ _ _ _ HA Hstep); try done.
  - by eapply pool_inv_dispatcher.
  - intros Hm. eapply live_zero_dispatcher; eauto.
  - intros u. rewrite (runCount_dispatcher _ _ _ _ _ HA Hstep). apply Hf.
Qed.

Lemma inv_article_worker s p workerID :
  agg_inv s → worker articleStart workerID (articlePool s) = Some p →
  agg_inv (set_articlePool p s).
Proof.
  intros [HF HA Hq Hl Hc Hf Hs Hi Hmg Hb] Hstep.
  split; simpl; try done;
    rewrite ?(runCount_worker articleStart unsorted _ _ _
                ltac:(by intros []) Hstep); try done.
  - by eapply pool_inv_worker.
  - intros Hm. eapply live_zero_worker; eauto.
  - intros u.
    rewrite (runCount_worker articleStart (isAParse u) _ _ _
               ltac:(by intros []) Hstep). apply Hf.
Qed.

Lemma inv_article_spurious s tid :
  agg_inv s →
  agg_inv (set_articlePool (spurious_wakeup tid (articlePool s)) s).
Proof.
  intros [HF HA Hq Hl Hc Hf Hs Hi Hmg Hb].
  split; simpl; try done. by apply pool_inv_spurious.
Qed.

(** *** Steps of the caller *)

Lemma inv_build s s' :
  agg_inv s → step LBuildIndex s = Some s' → agg_inv s'.
Proof.
  intros Hinv. pose proof Hinv as [HF HA Hq Hl Hc Hf Hs Hi Hmg Hb]. simpl.
  destruct (mainThread s) eqn:Hm; try done.
  destruct (built s); intros [= <-]; [done|].
  split; simpl; try done.
Qed.

Lemma inv_main_wait s :
  agg_inv s → mainPushed (mainThread s) = 0 → mainCounted (mainThread s) = 0 →
  mainThread s ≠ MIdle →
  agg_inv
    (set_mainThread
       (if (wait_test mainTid (feedPool s)).2 then MFlush else MBlocked)
       (set_feedPool (wait_test mainTid (feedPool s)).1 s)).
Proof.
  intros [HF HA Hq Hl Hc Hf Hs Hi Hmg Hb] Hu Hv Hm.
  pose proof (pool_inv_wait_test _ _ _ mainTid HF) as HF'.
  rewrite Hu, Hv in HF, HF'.
  split; simpl; rewrite ?wait_test_runCount, ?wait_test_live; try done.
  - by destruct (wait_test mainTid (feedPool s)).2.
  - destruct (wait_test mainTid (feedPool s)).2 eqn:Hret; [|done].
    intros _. apply wait_test_returned in Hret.
    pose proof (inv_live _ _ _ HF). lia.
  - intros u. rewrite wait_test_runCount. apply Hf.
  - intros _. by apply Hb.
Qed.

Lemma inv_main s s' : agg_inv s → main_step s = Some s' → agg_inv s'.
Proof.
  intros Hinv. pose proof Hinv as [HF HA Hq Hl Hc Hf Hs Hi Hmg Hb].
  unfold main_step.
  destruct (mainThread s) as [| |feeds|feeds|feeds| |] eqn:Hm;
    simpl in HF, Hq.
  - done.
  - destruct (parseFeedList rssFeedListURI) as [feeds|]; [case_decide|];
      intros [= <-]; split; simpl; try done.
    intros _. by apply Hb.
  - destruct feeds as [|currentFeed feeds].
    + destruct (wait_test mainTid (feedPool s)) as [p r] eqn:Hw.
      intros [= <-].
      pose proof (inv_main_wait s Hinv) as Hinv'.
      rewrite Hm, Hw in Hinv'. by apply Hinv'.
    + intros [= <-]. split; simpl; try done.
      * by apply pool_inv_push.
      * intros _. by apply Hb.
  - intros [= <-]. split; simpl; try done.
    + by apply pool_inv_count.
    + intros _. by apply Hb.
  - intros [= <-]. split; simpl; try done.
    + by apply pool_inv_signal.
    + intros _. by apply Hb.
  - destruct (wait_woken mainTid (feedPool s)); [|done].
    destruct (wait_test mainTid (feedPool s)) as [p r] eqn:Hw.
    intros [= <-].
    pose proof (inv_main_wait s Hinv) as Hinv'.
    rewrite Hm, Hw in Hinv'. by apply Hinv'.
  - intros [= <-]. split; simpl; try done.
Qed.

(** *** Steps of the feed thunks *)

Lemma pool_inv_eq {T C} u v u' v' (p : ThreadPool T C) :
  pool_inv u v p → u = u' → v = v' → pool_inv u' v' p.
Proof. by intros ? <- <-. Qed.

Ltac feed_goto Hr c' :=
  pose proof (runCount_goto isFCount _ _ _ c' Hr);
  pose proof (runCount_goto isFSignal _ _ _ c' Hr);
  pose proof (runCount_goto inLaunch _ _ _ c' Hr);
  cbn [isFCount isFSignal inLaunch b2n] in *.

Ltac feed_return Hr :=
  pose proof (runCount_return isFCount _ _ _ Hr);
  pose proof (runCount_return isFSignal _ _ _ Hr);
  pose proof (runCount_return inLaunch _ _ _ Hr);
  cbn [isFCount isFSignal inLaunch b2n] in *.

Lemma claim_counts u feedURL (seen : gset string) (cl : list string) n :
  feedURL ∉ seen →
  occ u cl = b2n (bool_decide (u ∈ seen)) →
  n = b2n (bool_decide (feedURL = u)) →
  occ u (cl ++ [feedURL]) = b2n (bool_decide (u ∈ {[feedURL]} ∪ seen)) ∧
  occ u (cl ++ [feedURL]) = occ u cl + n.
Proof.
  intros Hnew Hcl ->. rewrite occ_app, occ_singleton, Hcl.
  destruct (decide (feedURL = u)) as [->|Hne].
  - rewrite (bool_decide_eq_false_2 (u ∈ seen)) by done.
    rewrite (bool_decide_eq_true_2 (u = u)) by done.
    rewrite (bool_decide_eq_true_2 (u ∈ {[u]} ∪ seen)); [done|].
    apply elem_of_union. left. by apply elem_of_singleton.
  - rewrite (bool_decide_eq_false_2 (feedURL = u)) by done.
    split; [|done]. simpl. rewrite Nat.add_0_r. f_equal.
    apply bool_decide_ext. rewrite elem_of_union, elem_of_singleton.
    intuition congruence.
Qed.

(** The feed thunk waits for the article pool (line 219). *)
Lemma inv_feed_wait s workerID c :
  agg_inv s → running workerID (feedPool s) = Some c →
  c = FLoop [] ∨ c = FBlocked →
  agg_inv
    (let s' := set_articlePool (wait_test workerID (articlePool s)).1 s in
     if (wait_test workerID (articlePool s)).2
     then set_feedPool (thunk_return workerID (feedPool s')) s'
     else set_feedPool (thunk_goto workerID FBlocked (feedPool s')) s').
Proof.
  intros [HF HA Hq Hl Hc Hf Hs Hi Hmg Hb] Hr Hpc.
  assert (mainQuiet (mainThread s) = false) as Hnq.
  { destruct (mainQuiet (mainThread s)); [|done].
    specialize (Hq eq_refl). apply running_live in Hr. lia. }
  pose proof (pool_inv_wait_test _ _ _ workerID HA) as HA'.
  destruct (wait_test workerID (articlePool s)).2 eqn:Hret; simpl.
  - feed_return Hr.
    pose proof (runCount_mono isFCount inLaunch
                  (thunk_return workerID (feedPool s))
                  ltac:(by intros [])) as Hmono.
    split; simpl; rewrite ?wait_test_runCount, ?wait_test_live; try done.
    + by eapply pool_inv_return.
    + eapply pool_inv_eq; [exact HA'| |];
        destruct Hpc as [-> | ->]; simpl in *; lia.
    + intros Hm. congruence.
    + intros Hzero. apply wait_test_returned in Hret.
      pose proof (inv_live _ _ _ HA).
      destruct Hpc as [-> | ->]; simpl in *; lia.
    + intros u. rewrite wait_test_runCount.
      pose proof (runCount_return (isFParse u) _ _ _ Hr) as Hp.
      specialize (Hf u). destruct Hpc as [-> | ->]; simpl in *; lia.
  - feed_goto Hr FBlocked.
    split; simpl; rewrite ?wait_test_runCount, ?wait_test_live; try done.
    + by eapply pool_inv_goto.
    + eapply pool_inv_eq; [exact HA'| |];
        destruct Hpc as [-> | ->]; simpl in *; lia.
    + intros Hm. congruence.
    + intros Hzero. destruct Hpc as [-> | ->]; simpl in *; lia.
    + intros u. rewrite wait_test_runCount.
      pose proof (runCount_goto (isFParse u) _ _ _ FBlocked Hr) as Hp.
      specialize (Hf u). destruct Hpc as [-> | ->]; simpl in *; lia.
Qed.

Lemma inv_feed_thunk s s' workerID :
  agg_inv s → feed_step workerID s = Some s' → agg_inv s'.
Proof.
  intros Hinv. pose proof Hinv as [HF HA Hq Hl Hc Hf Hs Hi Hmg Hb].
  unfold feed_step.
  destruct (running workerID (feedPool s)) as [pc|] eqn:Hr; [|done].
  assert (mainQuiet (mainThread s) = false) as Hnq.
  { destruct (mainQuiet (mainThread s)); [|done].
    specialize (Hq eq_refl). apply running_live in Hr. lia. }
  destruct pc as [feedURL feedTitle|feedURL|articles|articles|articles|].
  - (* the test-and-insert *)
    unfold claimURL. case_decide as Hseen; intros [= <-].
    + feed_return Hr. split; simpl; try done.
      * by eapply pool_inv_return.
      * eapply pool_inv_eq; [exact HA|lia..].
      * intros Hm. congruence.
      * intros Hz. apply Hl. lia.
      * intros u. pose proof (runCount_return (isFParse u) _ _ _ Hr) as Hp.
        specialize (Hf u). unfold runCount in *. simpl in *. lia.
    + feed_goto Hr (FParse feedURL). split; simpl; try done.
      * by eapply pool_inv_goto.
      * eapply pool_inv_eq; [exact HA|lia..].
      * intros Hm. congruence.
      * intros Hz. apply Hl. lia.
      * intros u. by eapply claim_counts.
      * intros u.
        pose proof (runCount_goto (isFParse u) _ _ _ (FParse feedURL) Hr)
          as Hp.
        destruct (claim_counts u feedURL _ _ _ Hseen (Hc u) eq_refl)
          as [_ ->].
        specialize (Hf u). unfold runCount in *. simpl in *. lia.
  - (* the fetch *)
    assert (agg_inv (set_feedPool (thunk_return workerID (feedPool s))
                       (fetch feedURL s))) as Hret.
    { feed_return Hr. split; simpl; try done.
      - by eapply pool_inv_return.
      - eapply pool_inv_eq; [exact HA|lia..].
      - intros Hm. congruence.
      - intros Hz. apply Hl. lia.
      - intros u. pose proof (runCount_return (isFParse u) _ _ _ Hr) as Hp.
        specialize (Hf u). rewrite occ_app, occ_singleton. simpl in *. lia. }
    destruct (parseFeed feedURL) as [[|a articles]|]; intros [= <-];
      try done.
    feed_goto Hr (FLoop (a :: articles)). split; simpl; try done.
    + by eapply pool_inv_goto.
    + eapply pool_inv_eq; [exact HA|lia..].
    + intros Hm. congruence.
    + intros Hz. lia.
    + intros u.
      pose proof (runCount_goto (isFParse u) _ _ _ (FLoop (a :: articles))
                    Hr) as Hp.
      specialize (Hf u). rewrite occ_app, occ_singleton. simpl in *. lia.
  - destruct articles as [|currentArticle articles].
    + (* the wait *)
      destruct (wait_test workerID (articlePool s)) as [p r] eqn:Hw.
      intros [= <-].
      pose proof (inv_feed_wait s workerID _ Hinv Hr ltac:(by left)) as Hinv'.
      rewrite Hw in Hinv'. simpl in Hinv'. by destruct r.
    + (* schedule: the push *)
      intros [= <-]. feed_goto Hr (FCount articles).
      pose proof (running_runCount inLaunch _ _ _ Hr eq_refl).
      split; simpl; try done.
      * by eapply pool_inv_goto.
      * eapply pool_inv_eq; [apply pool_inv_push, HA|lia..].
      * intros Hm. congruence.
      * intros Hz. lia.
      * intros u.
        pose proof (runCount_goto (isFParse u) _ _ _ (FCount articles) Hr)
          as Hp.
        specialize (Hf u). unfold runCount in *. simpl in *. lia.
  - (* schedule: the increment *)
    intros [= <-]. feed_goto Hr (FSignal articles).
    pose proof (running_runCount inLaunch _ _ _ Hr eq_refl).
    split; simpl; try done.
    + by eapply pool_inv_goto.
    + assert (pool_inv
                (S (runCount isFCount
                      (thunk_goto workerID (FSignal articles) (feedPool s))))
                (runCount isFSignal (feedPool s)) (articlePool s)) as HA1
        by (eapply pool_inv_eq; [exact HA|lia|done]).
      apply pool_inv_count in HA1.
      eapply pool_inv_eq; [exact HA1|done|lia].
    + intros Hm. congruence.
    + intros Hz. lia.
    + intros u.
      pose proof (runCount_goto (isFParse u) _ _ _ (FSignal articles) Hr)
        as Hp.
      specialize (Hf u). unfold runCount in *. simpl in *. lia.
  - (* schedule: the signal *)
    intros [= <-]. feed_goto Hr (FLoop articles).
    pose proof (running_runCount inLaunch _ _ _ Hr eq_refl).
    split; simpl; try done.
    + by eapply pool_inv_goto.
    + assert (pool_inv (runCount isFCount (feedPool s))
                (S (runCount isFSignal
                      (thunk_goto workerID (FLoop articles) (feedPool s))))
                (articlePool s)) as HA1
        by (eapply pool_inv_eq; [exact HA|done|lia]).
      apply pool_inv_signal in HA1.
      eapply pool_inv_eq; [exact HA1|lia|done].
    + intros Hm. congruence.
    + intros Hz. lia.
    + intros u.
      pose proof (runCount_goto (isFParse u) _ _ _ (FLoop articles) Hr)
        as Hp.
      specialize (Hf u). unfold runCount in *. simpl in *. lia.
  - (* woken up in wait *)
    destruct (wait_woken workerID (articlePool s)); [|done].
    destruct (wait_test workerID (articlePool s)) as [p r] eqn:Hw.
    intros [= <-].
    pose proof (inv_feed_wait s workerID _ Hinv Hr ltac:(by right)) as Hinv'.
    rewrite Hw in Hinv'. simpl in Hinv'. by destruct r.
Qed.

(** *** Steps of the article thunks *)

Lemma unsorted_sort a toks : unsorted (AMerge a (sort toks)) = false.
Proof.
  simpl. rewrite bool_decide_eq_true_2; [done|apply sort_sorted].
Qed.

Lemma inv_article_thunk s s' workerID :
  agg_inv s → article_step workerID s = Some s' → agg_inv s'.
Proof.
  intros Hinv. pose proof Hinv as [HF HA Hq Hl Hc Hf Hs Hi Hmg Hb].
  unfold article_step.
  destruct (running workerID (articlePool s)) as [pc|] eqn:Hr; [|done].
  pose proof (live_return _ _ _ Hr) as Hlr.
  pose proof (runCount_return unsorted _ _ _ Hr) as Hur.
  destruct pc as [a|a|a toks].
  - (* the test-and-insert *)
    unfold claimURL. case_decide as Hseen; intros [= <-].
    + split; simpl; rewrite ?Hlr; try done.
      * by eapply pool_inv_return.
      * intros u. pose proof (runCount_return (isAParse u) _ _ _ Hr) as Hp.
        specialize (Hf u). simpl in *. lia.
      * simpl in Hur. lia.
    + pose proof (runCount_goto unsorted _ _ _ (AParse a) Hr) as Hug.
      split; simpl; rewrite ?(live_goto _ _ _ _ Hr); try done.
      * by eapply pool_inv_goto.
      * intros u. by eapply claim_counts.
      * intros u.
        pose proof (runCount_goto (isAParse u) _ _ _ (AParse a) Hr) as Hp.
        destruct (claim_counts u (url a) _ _ _ Hseen (Hc u) eq_refl)
          as [_ ->].
        specialize (Hf u). simpl in *. lia.
      * simpl in Hug. lia.
  - (* the fetch *)
    destruct (parseDocument (url a)) as [origTokens|]; intros [= <-].
    + pose proof (runCount_goto unsorted _ _ _
                    (AMerge a (sort origTokens)) Hr) as Hug.
      rewrite unsorted_sort in Hug.
      split; simpl; rewrite ?(live_goto _ _ _ _ Hr); try done.
      * by eapply pool_inv_goto.
      * intros u.
        pose proof (runCount_goto (isAParse u) _ _ _
                      (AMerge a (sort origTokens)) Hr) as Hp.
        specialize (Hf u). rewrite occ_app, occ_singleton.
        cbn [isAParse] in Hp. simpl in *. lia.
      * simpl in Hug. lia.
    + split; simpl; rewrite ?Hlr; try done.
      * by eapply pool_inv_return.
      * intros u. pose proof (runCount_return (isAParse u) _ _ _ Hr) as Hp.
        specialize (Hf u). rewrite occ_app, occ_singleton. simpl in *. lia.
      * simpl in Hur. lia.
  - (* the merge *)
    intros [= <-].
    assert (StronglySorted StrOrd.le toks) as Hsorted.
    { destruct (unsorted (AMerge a toks)) eqn:Hu.
      - pose proof (running_runCount unsorted _ _ _ Hr Hu). lia.
      - simpl in Hu. apply negb_false_iff in Hu.
        by apply bool_decide_eq_true in Hu. }
    split; simpl; rewrite ?Hlr; try done.
    + by eapply pool_inv_return.
    + intros u. pose proof (runCount_return (isAParse u) _ _ _ Hr) as Hp.
      specialize (Hf u). simpl in *. lia.
    + lia.
    + by apply mergeUpdate_index_ok.
    + rewrite foldl_app. simpl. unfold articleUpdate at 1. simpl.
      by rewrite (sort_sorted_id _ Hsorted), <- Hmg.
Qed.

(** *** Every step keeps the invariant *)

Lemma step_agg_inv l s s' : agg_inv s → step l s = Some s' → agg_inv s'.
Proof.
  intros Hinv. destruct l; simpl.
  - by apply inv_build.
  - by apply inv_main.
  - destruct (dispatcher (feedPool s)) as [p|] eqn:Hd; [|done].
    intros [= <-]. by apply inv_feed_dispatcher.
  - destruct (worker feedStart workerID (feedPool s)) as [p|] eqn:Hw;
      [|done].
    intros [= <-]. by eapply inv_feed_worker.
  - by apply inv_feed_thunk.
  - intros [= <-]. by apply inv_feed_spurious.
  - destruct (dispatcher (articlePool s)) as [p|] eqn:Hd; [|done].
    intros [= <-]. by apply inv_article_dispatcher.
  - destruct (worker articleStart workerID (articlePool s)) as [p|] eqn:Hw;
      [|done].
    intros [= <-]. by eapply inv_article_worker.
  - by apply inv_article_thunk.
  - intros [= <-]. by apply inv_article_spurious.
Qed.

Lemma exec_agg_inv tr : ∀ s s',
  agg_inv s → exec tr s = Some s' → agg_inv s'.
Proof.
  induction tr as [|l tr IH]; intros s s' Hinv; simpl.
  - by intros [= <-].
  - destruct (step l s) as [s1|] eqn:Hstep; [|done]. simpl.
    apply IH. by eapply step_agg_inv.
Qed.

Lemma reachable_agg_inv tr s : exec tr init = Some s → agg_inv s.
Proof. apply exec_agg_inv, init_agg_inv. Qed.

(** *** After the crawl *)

Lemma drained_live s :
  agg_inv s → drained s →
  live (feedPool s) = 0 ∧ live (articlePool s) = 0.
Proof.
  intros [HF HA Hq Hl Hc Hf Hs Hi Hmg Hb] [_ Hm].
  assert (live (feedPool s) = 0) as HlF.
  { apply Hq. by destruct Hm as [-> | ->]. }
  split; [done|]. apply Hl.
  pose proof (runCount_le_live inLaunch (feedPool s)). lia.
Qed.

Lemma step_drained l s s' :
  agg_inv s → drained s → step l s = Some s' →
  drained s' ∧
  (mainThread s = MIdle → mainThread s' = MIdle ∧ results s' = results s).
Proof.
  intros Hinv Hd. destruct (drained_live s Hinv Hd) as [HlF HlA].
  destruct Hd as [Hb Hm]. unfold drained.
  destruct l; simpl.
  - destruct Hm as [Hm|Hm]; rewrite Hm; [|done]. rewrite Hb.
    intros [= <-]. by auto.
  - unfold Aggregator.main_step.
    destruct Hm as [Hm|Hm]; rewrite Hm; [done|]. intros [= <-]. simpl.
    split; [by auto|]. intros Hm'. congruence.
  - destruct (dispatcher (feedPool s)); [|done]. intros [= <-]. by auto.
  - destruct (worker feedStart workerID (feedPool s)); [|done].
    intros [= <-]. by auto.
  - unfold Aggregator.feed_step.
    by rewrite (live_zero_not_running _ workerID HlF).
  - intros [= <-]. by auto.
  - destruct (dispatcher (articlePool s)); [|done]. intros [= <-]. by auto.
  - destruct (worker articleStart workerID (articlePool s)); [|done].
    intros [= <-]. by auto.
  - unfold Aggregator.article_step.
    by rewrite (live_zero_not_running _ workerID HlA).
  - intros [= <-]. by auto.
Qed.

Lemma exec_drained tr : ∀ s s',
  agg_inv s → drained s → exec tr s = Some s' →
  drained s' ∧
  (mainThread s = MIdle → mainThread s' = MIdle ∧ results s' = results s).
Proof.
  induction tr as [|l tr IH]; intros s s' Hinv Hd; simpl.
  - intros [= <-]. by auto.
  - destruct (step l s) as [s1|] eqn:Hstep; [|done]. simpl. intros Hex.
    destruct (step_drained _ _ _ Hinv Hd Hstep) as [Hd1 Hr1].
    destruct (IH s1 s' (step_agg_inv _ _ _ Hinv Hstep) Hd1 Hex) as [Hd' Hr'].
    split; [done|]. intros Hm. destruct (Hr1 Hm) as [Hm1 Hres1].
    destruct (Hr' Hm1) as [Hm' Hres']. split; [done|congruence].
Qed.

(** *** A run whose feed list is missing or empty *)

Lemma new_pool_stuck {T C} (start : T → C) n workerID :
  dispatcher (ThreadPool_new (T:=T) (C:=C) n) = None ∧
  worker start workerID (ThreadPool_new n) = None ∧
  running workerID (ThreadPool_new (T:=T) (C:=C) n) = None.
Proof.
  split_and!; [done| |].
  - unfold worker. simpl.
    destruct (replicate n _ !! workerID) as [w|] eqn:Hw; [|done].
    by apply lookup_replicate in Hw as [-> _].
  - unfold running. simpl.
    destruct (replicate n _ !! workerID) as [w|] eqn:Hw; [|done].
    by apply lookup_replicate in Hw as [-> _].
Qed.

Lemma new_pool_spurious {T C} n tid :
  spurious_wakeup tid (ThreadPool_new (T:=T) (C:=C) n) = ThreadPool_new n.
Proof.
  unfold spurious_wakeup, ThreadPool_new, set_pendingThunksCondVar. simpl.
  f_equal. apply set_eq. intros x. rewrite elem_of_difference.
  split; [by intros []|by intros ?%not_elem_of_empty].
Qed.

Lemma step_pristine l b m s' :
  step l (pristine b m) = Some s' →
  (l = LBuildIndex ∨ l = LMain) ∨ s' = pristine b m.
Proof.
  destruct l; unfold pristine;
    cbn [Aggregator.step feedPool articlePool mainThread built];
    unfold Aggregator.feed_step, Aggregator.article_step;
    cbn [feedPool articlePool];
    rewrite ?(proj1 (new_pool_stuck feedStart _ 0)),
      ?(proj1 (new_pool_stuck articleStart _ 0)),
      ?(proj1 (proj2 (new_pool_stuck feedStart _ workerID))),
      ?(proj1 (proj2 (new_pool_stuck articleStart _ workerID))),
      ?(proj2 (proj2 (new_pool_stuck feedStart _ workerID))),
      ?(proj2 (proj2 (new_pool_stuck articleStart _ workerID))),
      ?new_pool_spurious;
    try done; try by auto.
  - intros [= <-]. by right.
  - intros [= <-]. by right.
Qed.

Lemma step_aborted l s s' :
  no_feeds → aborted_state s → step l s = Some s' →
  aborted_state s' ∧ (s = pristine true MIdle → s' = s).
Proof.
  intros Hno Hs Hstep. unfold aborted_state in *.
  assert (∃ b m, s = pristine b m) as (b & m & Hbm).
  { destruct Hs as [->|[->| ->]]; eauto. }
  subst s. destruct (step_pristine _ _ _ _ Hstep) as [[-> | ->]| ->].
  - destruct Hs as [Hs|[Hs|Hs]]; injection Hs as -> ->;
      simpl in Hstep; simplify_eq;
      (split; [first [by left|by (right; left)|by (right; right)]
              |first [done|by intros [=]]]).
  - destruct Hs as [Hs|[Hs|Hs]]; injection Hs as -> ->;
      simpl in Hstep; try done.
    unfold Aggregator.main_step in Hstep. simpl in Hstep.
    destruct Hno as [Hno|Hno]; rewrite Hno in Hstep;
      [|rewrite decide_True in Hstep by done]; simplify_eq;
      (split; [by (right; right)|by intros [=]]).
  - auto.
Qed.

Lemma exec_aborted tr : ∀ s s',
  no_feeds → aborted_state s → exec tr s = Some s' →
  aborted_state s' ∧ (s = pristine true MIdle → s' = s).
Proof.
  induction tr as [|l tr IH]; intros s s' Hno Hs; simpl.
  - intros [= <-]. by auto.
  - destruct (step l s) as [s1|] eqn:Hstep; [|done]. simpl. intros Hex.
    destruct (step_aborted _ _ _ Hno Hs Hstep) as [Hs1 Heq1].
    destruct (IH s1 s' Hno Hs1 Hex) as [Hs' Heq'].
    split; [done|]. intros ->. rewrite (Heq1 eq_refl) in *. by apply Heq'.
Qed.

End AggregatorFacts.

(** ** Progress of the thread pool *)

Lemma sum_list_with_pos {A} (f : A → nat) (l : list A) :
  sum_list_with f l ≠ 0 → ∃ i x, l !! i = Some x ∧ f x ≠ 0.
Proof.
  induction l as [|a l IH]; simpl; [done|]. intros Hne.
  destruct (decide (f a = 0)) as [Hz|Hz].
  - destruct IH as (i & x & Hi & Hx); [lia|]. by exists (S i), x.
  - by exists 0, a.
Qed.

Section PoolProgress.

Context {T C : Type}.
Variable start : T → C.

(** A worker that holds a thunk can move, or is running the thunk. *)
Lemma holder_moves u v (p : ThreadPool T C) k w :
  pool_inv u v p → workerVector p !! k = Some w → holds_thunk w ≠ 0 →
  is_Some (worker start k p) ∨ is_Some (running k p).
Proof.
  intros [He Hk Hn Hlog Hw Hp Ha Hl Hs Hcv] Hwk Hh.
  specialize (Hw k w Hwk). unfold worker_ok in Hw.
  unfold worker, running, holds_thunk in *. rewrite Hwk.
  destruct (workerThread w) as [[| |c| | | |]|] eqn:Hth; simpl in *.
  - destruct (thunkToExecute w); [lia|eauto].
  - rewrite He. destruct Hw as (_ & _ & _ & _ & [t ->]). eauto.
  - eauto.
  - eauto.
  - destruct Hw as (_ & _ & _ & Hz). lia.
  - eauto.
  - done.
  - destruct Hw as (_ & _ & _ & Hz). lia.
Qed.

(** A worker that takes up a permit and holds no thunk can move, unless the
    dispatcher has just picked it. *)
Lemma busy_moves u v (p : ThreadPool T C) k w :
  pool_inv u v p → picked p = None →
  workerVector p !! k = Some w → busy w ≠ 0 → holds_thunk w = 0 →
  is_Some (worker start k p).
Proof.
  intros [He Hk Hn Hlog Hw Hp Ha Hl Hs Hcv] Hpk Hwk Hb Hh.
  specialize (Hw k w Hwk). rewrite Hpk in Hw.
  rewrite bool_decide_eq_false_2 in Hw by done.
  unfold worker_ok in Hw. unfold worker, busy, holds_thunk in *. rewrite Hwk.
  destruct (workerThread w) as [[| |c| | | |]|] eqn:Hth; simpl in *.
  - destruct Hw as [_ Hw]. destruct (workerInUse w); simpl in *; [|lia].
    destruct Hw as [Hw _]. lia.
  - lia.
  - lia.
  - lia.
  - rewrite Hk. eauto.
  - eauto.
  - done.
  - destruct Hw as (_ & _ & Hu & _). rewrite Hu in Hb. simpl in Hb. lia.
Qed.

Lemma pool_progress (p : ThreadPool T C) :
  pool_inv 0 0 p → 0 < length (workerVector p) → live p ≠ 0 →
  is_Some (dispatcher p) ∨ (∃ k, is_Some (worker start k p)) ∨
  (∃ k, is_Some (running k p)).
Proof.
  intros Hinv Hlen Hlive.
  destruct (decide (sum_list_with holds_thunk (workerVector p) = 0))
    as [Hz|Hnz].
  - destruct (dispatcherThread p) as [| | |a|a t|] eqn:Hd.
    + left. pose proof Hinv as [He Hk Hn Hlog Hw Hp Ha Hl Hs Hcv].
      unfold dispatcher, live, signalled in *. rewrite Hd in *.
      destruct (newThunkFromScheduler p); [lia|eauto].
    + destruct (workerIsAvailable p) as [|n] eqn:Hav.
      * right; left.
        pose proof (inv_avail _ _ _ Hinv) as Ha. rewrite Hav, Hd in Ha.
        destruct (sum_list_with_pos busy (workerVector p))
          as (k & w & Hwk & Hb); [lia|].
        exists k. eapply busy_moves; eauto.
        -- unfold picked. by rewrite Hd.
        -- by eapply sum_list_with_zero.
      * left. unfold dispatcher. rewrite Hd, Hav. eauto.
    + left. eapply dispatcher_enabled; eauto; by rewrite Hd.
    + left. eapply dispatcher_enabled; eauto; by rewrite Hd.
    + left. eapply dispatcher_enabled; eauto; by rewrite Hd.
    + pose proof (inv_picked _ _ _ Hinv) as Hp. by rewrite Hd in Hp.
  - destruct (sum_list_with_pos _ _ Hnz) as (k & w & Hwk & Hh).
    destruct (holder_moves _ _ _ _ _ Hinv Hwk Hh); eauto.
Qed.

End PoolProgress.

Section ClientsProgress.

Context {T : Type}.
Import Clients.
Local Abbreviation state := (Clients.state T).
Local Abbreviation label := (Clients.label T).

Lemma exec_app (tr1 tr2 : list label) : ∀ s : state,
  exec (tr1 ++ tr2) s = exec tr1 s ≫= exec tr2.
Proof.
  induction tr1 as [|l tr1 IH]; intros s; simpl; [done|].
  destruct (step l s); simpl; [apply IH|done].
Qed.

Lemma count_pc_pos pc (cs : list clientPC) :
  count_pc pc cs ≠ 0 → ∃ c, cs !! c = Some pc.
Proof.
  intros (c & x & Hc & Hx)%sum_list_with_pos.
  exists c. destruct (decide (x = pc)); [by subst|done].
Qed.

Lemma wait_returns_zero c (s s' : state) :
  wait_returns c s s' → pendingThunks (pool s) = 0%Z.
Proof.
  intros [Hstep Hidle].
  assert (client_wait c s = s') as <-.
  { destruct Hstep as [Hstep|[Hb Hstep]]; unfold step in Hstep;
      destruct (terminated s); try done.
    - destruct (clients s !! c) as [[]|]; by simplify_eq.
    - rewrite Hb in Hstep. destruct (wait_woken c (pool s)); by simplify_eq. }
  unfold client_wait, wait_test in *.
  destruct (decide (pendingThunks (pool s) = 0%Z)) as [Hz|Hz]; [done|].
  simpl in Hidle.
  destruct (decide (c < length (clients s))).
  - by rewrite list_lookup_insert_eq in Hidle.
  - rewrite list_insert_ge in Hidle by lia.
    rewrite lookup_ge_None_2 in Hidle by lia. done.
Qed.

(** Without workers the counter never goes down. *)
Lemma step_no_workers (l : label) (s s' : state) :
  workerVector (pool s) = [] → step l s = Some s' →
  (pendingThunks (pool s) ≤ pendingThunks (pool s'))%Z.
Proof.
  intros Hws. unfold step. destruct (terminated s); [done|].
  destruct l as [c thunk|c|c|c| |k|k o].
  - destruct (clients s !! c) as [[]|]; try done. intros [= <-]. done.
  - destruct (clients s !! c) as [[]|]; try done. intros [= <-].
    unfold client_wait, wait_test. case_decide; simpl; lia.
  - destruct (clients s !! c) as [[]|]; try done.
    + intros [= <-]. simpl. lia.
    + intros [= <-]. done.
    + destruct (wait_woken c (pool s)); [|done]. intros [= <-].
      unfold client_wait, wait_test. case_decide; simpl; lia.
  - intros [= <-]. done.
  - destruct (dispatcher (pool s)) as [p|] eqn:Hd; [|done]. intros [= <-].
    apply pending_dispatcher in Hd as [Hd _]. simpl. lia.
  - unfold worker. by rewrite Hws.
  - unfold running. by rewrite Hws.
Qed.

End ClientsProgress.

Section ScanFacts.

Context {T C : Type}.

(** Every worker the scan passes over is in use. *)
Lemma scan_lowest fuel : ∀ cand (ws : list (workerStruct T C)) nsid log
    a ws' nsid' log',
  scan fuel cand ws nsid log = (a, ws', nsid', log') →
  ∀ i w, cand ≤ i → (Z.of_nat i < a)%Z → ws !! i = Some w →
    workerInUse w = true.
Proof.
  induction fuel as [|fuel IH]; intros cand ws nsid log a ws' nsid' log';
    simpl.
  { intros [= <- _ _ _] i w _ Hlt. lia. }
  destruct (decide (cand < length ws)) as [Hc|Hc];
    [|intros [= <- _ _ _] i w _ Hlt; lia].
  set (ws1 := if decide (cand = nsid)
              then alter (set_workerThread (Some WWait)) nsid ws else ws).
  assert (∀ i w, ws !! i = Some w →
            ∃ w1, ws1 !! i = Some w1 ∧ workerInUse w1 = workerInUse w) as H1.
  { intros i w Hi. unfold ws1. destruct (decide (cand = nsid)); [|eauto].
    destruct (decide (nsid = i)) as [->|Hne].
    - rewrite list_lookup_alter_eq, Hi. simpl. eauto.
    - rewrite list_lookup_alter_ne by done. eauto. }
  destruct (decide (cand = nsid)) as [Heq|Hne]; simpl;
    fold ws1.
  - destruct (ws1 !! cand) as [wc|] eqn:Hwc;
      [|intros [= <- _ _ _] i w _ Hlt; lia].
    destruct (workerInUse wc) eqn:Hu.
    + intros Hscan i w Hi Hlt Hw.
      destruct (decide (i = cand)) as [->|Hic].
      * destruct (H1 _ _ Hw) as (w1 & Hw1 & <-). congruence.
      * destruct (H1 _ _ Hw) as (w1 & Hw1 & <-).
        eapply (IH _ _ _ _ _ _ _ _ Hscan i); [lia|done..].
    + intros [= <- _ _ _] i w Hi Hlt. lia.
  - destruct (ws1 !! cand) as [wc|] eqn:Hwc;
      [|intros [= <- _ _ _] i w _ Hlt; lia].
    destruct (workerInUse wc) eqn:Hu.
    + intros Hscan i w Hi Hlt Hw.
      destruct (decide (i = cand)) as [->|Hic].
      * destruct (H1 _ _ Hw) as (w1 & Hw1 & <-). congruence.
      * destruct (H1 _ _ Hw) as (w1 & Hw1 & <-).
        eapply (IH _ _ _ _ _ _ _ _ Hscan i); [lia|done..].
    + intros [= <- _ _ _] i w Hi Hlt. lia.
Qed.

End ScanFacts.

(** ** The history of a run of a pool *)

Section HistoryFacts.

Context {T : Type} `{EqDecision T}.

Import Clients History.

Local Abbreviation state := (Clients.state T).
Local Abbreviation label := (Clients.label T).

Lemma count_snoc (t x : T) l :
  count t (l ++ [x]) = count t l + (if decide (x = t) then 1 else 0).
Proof.
  unfold count. rewrite count_occ_app. simpl.
  destruct (decide (x = t)); done.
Qed.

Lemma count_app (t : T) l1 l2 : count t (l1 ++ l2) = count t l1 + count t l2.
Proof. apply count_occ_app. Qed.

Lemma count_eq_perm (l1 l2 : list T) :
  (∀ t, count t l1 = count t l2) → l1 ≡ₚ l2.
Proof. intros H. by apply (Permutation_count_occ (λ x y : T, decide (x = y))). Qed.

Lemma awaits_le_holds t (w : workerStruct T T) : awaits t w ≤ holds_thunk w.
Proof.
  unfold awaits, holds_thunk. case_decide; [|lia].
  destruct (workerThread w) as [[]|]; lia.
Qed.

Lemma sum_list_with_le {A} (f g : A → nat) (l : list A) :
  (∀ x, f x ≤ g x) → sum_list_with f l ≤ sum_list_with g l.
Proof.
  intros Hle. induction l as [|a l IH]; simpl; [done|].
  specialize (Hle a). lia.
Qed.

Lemma init_hist_inv numThreads numClients :
  hist_inv (init (T:=T) numThreads numClients) no_history.
Proof.
  split; simpl; [done|..].
  - intros t. rewrite sum_list_with_replicate. unfold awaits. simpl. lia.
  - intros t. by rewrite runCount_new.
Qed.

Lemma wait_hist_inv c (s : state) h :
  hist_inv s h → hist_inv (client_wait c s) h.
Proof.
  intros [H1 H2 H3]. unfold client_wait, wait_test.
  case_decide; simpl; split; done.
Qed.

Lemma step_hist_inv (l : label) (s s' : state) h :
  sys_inv s → hist_inv s h → step l s = Some s' →
  hist_inv s' (observe l s h).
Proof.
  intros Hinv [H1 H2 H3]. unfold step. destruct (terminated s); [done|].
  destruct l as [c thunk|c|c|c| |k|k o].
  - destruct (clients s !! c) as [[]|] eqn:Hc; try done. intros [= <-].
    split; simpl; [|done..]. by rewrite H1, app_assoc.
  - destruct (clients s !! c) as [[]|] eqn:Hc; try done. intros [= <-].
    by apply wait_hist_inv.
  - destruct (clients s !! c) as [[]|] eqn:Hc; try done.
    + intros [= <-]. split; done.
    + intros [= <-]. split; done.
    + destruct (wait_woken c (pool s)); [|done]. intros [= <-].
      by apply wait_hist_inv.
  - intros [= <-]. split; done.
  - destruct (dispatcher (pool s)) as [p|] eqn:Hd; [|done]. intros [= <-].
    simpl.
    assert (∀ t, runCount (is_thunk t) p = runCount (is_thunk t) (pool s))
      as Hrun by (intros t; by eapply runCount_dispatcher).
    destruct Hinv as [He Hk Hn Hlog Hw Hp Ha Hl Hs Hcv].
    unfold dispatcher in Hd.
    destruct (dispatcherThread (pool s)) as [| | |a|a t0|] eqn:Hdt.
    + destruct (newThunkFromScheduler (pool s)); [done|].
      simplify_eq. split; simpl; try done.
    + destruct (workerIsAvailable (pool s)); [done|].
      simplify_eq. split; simpl; try done.
    + rewrite He, Hk in Hd.
      destruct (scan_pick (length (workerVector (pool s))) 0
                  (workerVector (pool s)) (nextSpawnID (pool s))
                  (spawnLog (pool s)))
        as (j & w & _ & Hjn & Hj & Hfree & Heq).
      { lia. }
      { intros i w Hi Hle. specialize (Hw i w Hi).
        rewrite (bool_decide_eq_false_2 (i < _)) in Hw by lia.
        by eapply worker_ok_unspawned. }
      { lia. }
      { destruct (exists_free (workerVector (pool s))) as (j & w & ? & ?);
          [lia|].
        exists j, w. split_and!; [lia|done..]. }
      rewrite Heq in Hd. simplify_eq. split; simpl; try done.
      * intros t. rewrite H2. simpl.
        pose proof (sum_list_with_insert (awaits t) _ _ _
          (set_workerInUse true
             (if decide (j = nextSpawnID (pool s))
              then set_workerThread (Some WWait) w else w)) Hj) as Hsum.
        assert (awaits t (set_workerInUse true
             (if decide (j = nextSpawnID (pool s))
              then set_workerThread (Some WWait) w else w)) = awaits t w)
          as Haw.
        { unfold awaits. case_decide as Hjn'; simpl; [|done].
          specialize (Hw j w Hj).
          rewrite (bool_decide_eq_false_2 (_ < _)) in Hw by lia.
          unfold worker_ok in Hw.
          destruct (workerThread w) as [[]|]; try done; by destruct Hw. }
        lia.
      * intros t. rewrite H3. by rewrite <- Hrun.
    + destruct (thunkQueue (pool s)) as [|t0 q] eqn:Hq; [done|].
      simplify_eq. split; simpl.
      * by rewrite H1, <- app_assoc.
      * intros t. rewrite count_snoc, H2. simpl. lia.
      * intros t. rewrite H3. by rewrite <- Hrun.
    + rewrite Hk in Hd. case_decide; [done|].
      destruct (workerVector (pool s) !! Z.to_nat a) as [w|] eqn:Hwa; [|done].
      simplify_eq. split; simpl; try done.
      * intros t. rewrite H2. simpl.
        pose proof (sum_list_with_insert (awaits t) _ _ _
          (set_thunkToExecute (S (thunkToExecute w))
             (set_workerThunk (Some t0) w)) Hwa) as Hsum.
        specialize (Hw _ w Hwa). unfold picked in Hw. rewrite Hdt in Hw.
        rewrite decide_True in Hw by lia.
        rewrite bool_decide_eq_true_2 in Hw by done.
        unfold worker_ok in Hw. unfold awaits in Hsum at 2 4. simpl in Hsum.
        assert (thunkToExecute w = 0 ∧
                (workerThread w = Some WWait ∨ workerThread w = Some WSignal))
          as [Htte Hpc].
        { destruct (workerThread w) as [[]|]; try (by decompose [and] Hw);
            destruct Hw as [_ Hw]; destruct (workerInUse w);
            try (by destruct Hw); eauto. }
        rewrite Htte in Hsum |- *.
        destruct Hpc as [Hpc|Hpc]; rewrite Hpc in Hsum;
          repeat case_decide; simplify_eq; lia.
      * intros t. rewrite H3. by rewrite <- Hrun.
    + done.
  - unfold observe.
    destruct (worker id k (pool s)) as [p|] eqn:Hwk; [|done]. intros [= <-].
    simpl. destruct Hinv as [He Hk Hn Hlog Hw Hp Ha Hl Hs Hcv].
    unfold worker in Hwk.
    destruct (workerVector (pool s) !! k) as [w|] eqn:Hk'; [|done].
    specialize (Hw k w Hk'). unfold worker_ok in Hw.
    destruct (workerThread w) as [[| |c| | | |]|] eqn:Hth; try done.
    + destruct (thunkToExecute w) as [|n] eqn:Htte; [done|]. simplify_eq.
      split; simpl; [done|..]; intros t.
      * rewrite H2.
        pose proof (sum_list_with_insert (awaits t) _ _ _
          (set_workerThread (Some WCheck) (set_thunkToExecute n w)) Hk')
          as Hsum.
        unfold awaits in Hsum at 2 4. simpl in Hsum.
        rewrite Hth, Htte in Hsum. case_decide; lia.
      * rewrite H3. unfold runCount. simpl.
        pose proof (sum_list_with_insert (runs (is_thunk t)) _ _ _
          (set_workerThread (Some WCheck) (set_thunkToExecute n w)) Hk')
          as Hsum.
        unfold runs in Hsum at 2 4. simpl in Hsum. rewrite Hth in Hsum. lia.
    + rewrite He in Hwk |- *.
      destruct Hw as (_ & _ & _ & Htte & [t0 Ht0]). rewrite Ht0 in Hwk |- *.
      simplify_eq. split; simpl; [done|..]; intros t.
      * rewrite H2.
        pose proof (sum_list_with_insert (awaits t) _ _ _
          (set_workerThread (Some (WRun t0)) w) Hk') as Hsum.
        unfold awaits in Hsum at 2 4. simpl in Hsum.
        rewrite Hth, Htte, Ht0 in Hsum. rewrite count_snoc.
        repeat case_decide; simplify_eq; lia.
      * rewrite count_snoc, H3. unfold runCount. simpl.
        pose proof (sum_list_with_insert (runs (is_thunk t)) _ _ _
          (set_workerThread (Some (WRun t0)) w) Hk') as Hsum.
        unfold runs in Hsum at 2 4. simpl in Hsum. rewrite Hth in Hsum.
        unfold is_thunk in *. case_decide; case_bool_decide; simpl in *;
          try done; lia.
    + simplify_eq. destruct (decide ((pendingThunks (pool s) - 1)%Z = 0%Z)); (split; simpl; [done|..]); intros t.
      all: try rewrite H2; try rewrite H3; unfold runCount; simpl.
      all: match goal with
           | |- context [sum_list_with ?f (<[_ := ?w']> _)] =>
               pose proof (sum_list_with_insert f _ _ _ w' Hk') as Hsum
           end.
      all: try unfold awaits in Hsum at 2 4; try unfold runs in Hsum at 2 4;
        simpl in Hsum; rewrite Hth in Hsum; repeat case_decide;
        simpl in *; lia.
    + rewrite Hk in Hwk. simplify_eq. split; simpl; [done|..]; intros t.
      all: try rewrite H2; try rewrite H3; unfold runCount, set_worker; simpl.
      all: match goal with
           | |- context [sum_list_with ?f (<[_ := ?w']> _)] =>
               pose proof (sum_list_with_insert f _ _ _ w' Hk') as Hsum
           end.
      all: try unfold awaits in Hsum at 2 4; try unfold runs in Hsum at 2 4;
        simpl in Hsum; rewrite Hth in Hsum; repeat case_decide;
        simpl in *; lia.
    + simplify_eq. split; simpl; [done|..]; intros t.
      all: try rewrite H2; try rewrite H3; unfold runCount, set_worker; simpl.
      all: match goal with
           | |- context [sum_list_with ?f (<[_ := ?w']> _)] =>
               pose proof (sum_list_with_insert f _ _ _ w' Hk') as Hsum
           end.
      all: try unfold awaits in Hsum at 2 4; try unfold runs in Hsum at 2 4;
        simpl in Hsum; rewrite Hth in Hsum; repeat case_decide;
        simpl in *; lia.
  - unfold observe. destruct (running k (pool s)) as [t0|] eqn:Hr; [|done].
    destruct o; intros [= <-]; simpl; [|split; done].
    pose proof Hr as (w & Hwk & Hth)%running_Some.
    split; simpl; try done.
    + intros t. rewrite H2.
      pose proof (sum_list_with_alter (awaits t)
        (set_workerThread (Some WDecr)) _ _ _ Hwk) as Hsum.
      unfold awaits in Hsum at 2 4. simpl in Hsum. rewrite Hth in Hsum.
      case_decide; lia.
    + intros t. rewrite count_snoc, H3.
      pose proof (runCount_return (is_thunk t) _ _ _ Hr) as Hrc.
      unfold is_thunk in Hrc at 2. case_decide; case_bool_decide;
        simpl in *; try done; lia.
Qed.

Lemma exec_log_inv (tr : list label) : ∀ (s s' : state) h h',
  sys_inv s → hist_inv s h → exec_log tr s h = Some (s', h') →
  exec tr s = Some s' ∧ sys_inv s' ∧ hist_inv s' h'.
Proof.
  induction tr as [|l tr IH]; intros s s' h h' Hinv Hh; simpl.
  - intros [= <- <-]. done.
  - destruct (step l s) as [s1|] eqn:Hstep; [|done]. simpl. intros Hex.
    apply (IH s1 s' (observe l s h) h');
      [by eapply step_inv|by eapply step_hist_inv|done].
Qed.

Lemma hist_inv_drained (s : state) h :
  hist_inv s h → live (pool s) = 0 →
  popped h = pushed h ∧ started h ≡ₚ pushed h ∧ finished h ≡ₚ pushed h.
Proof.
  intros [H1 H2 H3] Hlive. unfold live in Hlive.
  assert (thunkQueue (pool s) = []) as Hq.
  { apply length_zero_iff_nil. lia. }
  rewrite Hq, app_nil_r in H1.
  assert (∀ t, count t (popped h) = count t (started h) ∧
               count t (started h) = count t (finished h)) as Heq.
  { intros t. rewrite (H2 t), (H3 t).
    pose proof (sum_list_with_le (awaits t) holds_thunk
                  (workerVector (pool s)) (awaits_le_holds t)).
    pose proof (runCount_le_live (is_thunk t) (pool s)).
    unfold live in *. unfold in_hand.
    destruct (dispatcherThread (pool s)); simpl in *; lia. }
  split_and!; [done|..]; apply count_eq_perm; intros t; rewrite H1;
    destruct (Heq t); lia.
Qed.

End HistoryFacts.

(** ** The order of the keys of the intermediate index *)

Section KeyOrder.

Import StrOrd StrOrdFacts.

Lemma pair_ltb_irrefl a : pair_ltb a a = false.
Proof. unfold pair_ltb. by rewrite !ltb_irrefl. Qed.

Lemma pair_ltb_asym a b : pair_ltb a b = true → pair_ltb b a = false.
Proof.
  unfold pair_ltb. destruct a as [a1 a2], b as [b1 b2]. simpl.
  destruct (String.ltb a1 b1) eqn:H1; simpl.
  - intros _. by rewrite (ltb_asym _ _ H1).
  - destruct (String.ltb b1 a1) eqn:H2; simpl; [done|].
    intros H3. by rewrite (ltb_asym _ _ H3).
Qed.

Lemma pair_ltb_tricho a b :
  pair_ltb a b = false → pair_ltb b a = false → a = b.
Proof.
  unfold pair_ltb. destruct a as [a1 a2], b as [b1 b2]. simpl.
  destruct (String.ltb a1 b1) eqn:H1; simpl; [done|].
  destruct (String.ltb b1 a1) eqn:H2; simpl; [done|].
  intros H3 H4. by rewrite (ltb_tricho _ _ H1 H2), (ltb_tricho _ _ H3 H4).
Qed.

Lemma pair_ltb_trans a b c :
  pair_ltb a b = true → pair_ltb b c = true → pair_ltb a c = true.
Proof.
  unfold pair_ltb. destruct a as [a1 a2], b as [b1 b2], c as [c1 c2]. simpl.
  destruct (String.ltb a1 b1) eqn:H1; simpl.
  - intros _. destruct (String.ltb b1 c1) eqn:H2; simpl.
    + intros _. by rewrite (ltb_trans _ _ _ H1 H2).
    + destruct (String.ltb c1 b1) eqn:H3; simpl; [done|].
      rewrite <- (ltb_tricho _ _ H2 H3). by rewrite H1.
  - destruct (String.ltb b1 a1) eqn:H2; simpl; [done|].
    rewrite (ltb_tricho _ _ H1 H2). intros H3.
    destruct (String.ltb b1 c1) eqn:H4; simpl; [done|].
    destruct (String.ltb c1 b1) eqn:H5; simpl; [done|].
    intros H6. by rewrite (ltb_trans _ _ _ H3 H6).
Qed.

Global Instance key_le_pair_total {V} : Total (@key_le _ V pair_ltb).
Proof.
  intros x y. unfold key_le.
  destruct (pair_ltb y.1 x.1) eqn:H; [right|by left].
  by apply pair_ltb_asym.
Qed.

Global Instance key_le_pair_trans {V} : Transitive (@key_le _ V pair_ltb).
Proof.
  intros x y z. unfold key_le. intros Hxy Hyz.
  destruct (pair_ltb z.1 x.1) eqn:Hzx; [|done].
  destruct (pair_ltb x.1 y.1) eqn:Hxy'.
  - by rewrite (pair_ltb_trans _ _ _ Hzx Hxy') in Hyz.
  - rewrite (pair_ltb_tricho _ _ Hxy' Hxy) in Hzx. congruence.
Qed.

Lemma in_order_perm {V} (m : gmap (string * string) V) :
  in_order pair_ltb m ≡ₚ map_to_list m.
Proof. apply merge_sort_Permutation. Qed.

Lemma in_order_sorted {V} (m : gmap (string * string) V) :
  StronglySorted (key_le pair_ltb) (in_order pair_ltb m).
Proof. apply StronglySorted_merge_sort; apply _. Qed.

Lemma in_order_keys_NoDup {V} (m : gmap (string * string) V) :
  NoDup (in_order pair_ltb m).*1.
Proof. rewrite in_order_perm. apply NoDup_fst_map_to_list. Qed.

Lemma elem_of_in_order {V} (m : gmap (string * string) V) K v :
  (K, v) ∈ in_order pair_ltb m ↔ m !! K = Some v.
Proof. rewrite in_order_perm. apply elem_of_map_to_list. Qed.

Lemma sorted_keys {V} (l : list ((string * string) * V)) :
  StronglySorted (key_le pair_ltb) l →
  StronglySorted (λ K1 K2, pair_ltb K2 K1 = false) l.*1.
Proof.
  induction 1 as [|x l Hs IH Hall]; simpl; constructor; [done|].
  rewrite Forall_fmap. eapply Forall_impl; [exact Hall|]. done.
Qed.

End KeyOrder.

Section PoolCounting.

Context {T C : Type}.

Lemma runCount_pos (P : C → bool) (p : ThreadPool T C) :
  runCount P p ≠ 0 → ∃ k c, running k p = Some c ∧ P c = true.
Proof.
  unfold runCount. intros Hne.
  destruct (sum_list_with_pos (runs P) _ Hne) as (k & w & Hk & Hr).
  unfold runs in Hr. destruct (workerThread w) as [[| |c| | | |]|] eqn:Hth;
    try done.
  exists k, c. unfold running. rewrite Hk, Hth. split; [done|].
  by destruct (P c).
Qed.

Lemma runCount_le_length (P : C → bool) (p : ThreadPool T C) :
  runCount P p ≤ length (workerVector p).
Proof.
  unfold runCount. induction (workerVector p) as [|w ws IH]; simpl; [done|].
  assert (runs P w ≤ 1); [|lia].
  unfold runs. destruct (workerThread w) as [[| |c| | | |]|]; try lia.
  destruct (P c); simpl; lia.
Qed.

End PoolCounting.

(** ** What a step of the crawl leaves alone *)

Section AggregatorMore.

Variable getURLServer : string → string.
Variable rssFeedListURI : string.
Variable parseFeedList : string → option (gmap string string).
Variable parseFeed : string → option (list Article).
Variable parseDocument : string → option (list string).
Import Aggregator.
Local Abbreviation step :=
  (Aggregator.step getURLServer rssFeedListURI parseFeedList parseFeed
     parseDocument).
Local Abbreviation exec :=
  (Aggregator.exec getURLServer rssFeedListURI parseFeedList parseFeed
     parseDocument).
Local Abbreviation main_step :=
  (Aggregator.main_step rssFeedListURI parseFeedList).
Local Abbreviation feed_step := (Aggregator.feed_step parseFeed).
Local Abbreviation article_step :=
  (Aggregator.article_step getURLServer parseDocument).
Local Abbreviation agg_inv := (agg_inv getURLServer).

Lemma feed_step_frame workerID s s' :
  feed_step workerID s = Some s' →
  index s' = index s ∧ built s' = built s ∧ mainThread s' = mainThread s ∧
  sizes s' = sizes s.
Proof.
  unfold Aggregator.feed_step, sizes.
  destruct (running workerID (feedPool s)) as [pc|]; [|done].
  destruct pc as [u t|u|[|a arts]|arts|arts|].
  - unfold claimURL. case_decide; intros [= <-]; simpl;
      by rewrite length_alter.
  - destruct (parseFeed u) as [[|a arts]|]; intros [= <-]; simpl;
      by rewrite length_alter.
  - pose proof (wait_test_workers workerID (articlePool s)) as Hws.
    destruct (wait_test workerID (articlePool s)) as [p []];
      intros [= <-]; simpl in *; by rewrite length_alter, Hws.
  - intros [= <-]. simpl. by rewrite length_alter.
  - intros [= <-]. simpl. by rewrite length_alter.
  - intros [= <-]. simpl. by rewrite length_alter.
  - destruct (wait_woken workerID (articlePool s)); [|done].
    pose proof (wait_test_workers workerID (articlePool s)) as Hws.
    destruct (wait_test workerID (articlePool s)) as [p []];
      intros [= <-]; simpl in *; by rewrite length_alter, Hws.
Qed.

Lemma article_step_frame workerID s s' :
  article_step workerID s = Some s' →
  index s' = index s ∧ built s' = built s ∧ mainThread s' = mainThread s ∧
  sizes s' = sizes s.
Proof.
  unfold Aggregator.article_step, sizes.
  destruct (running workerID (articlePool s)) as [pc|]; [|done].
  destruct pc as [a|a|a toks].
  - unfold claimURL. case_decide; intros [= <-]; simpl;
      by rewrite length_alter.
  - destruct (parseDocument (url a)); intros [= <-]; simpl;
      by rewrite length_alter.
  - intros [= <-]. simpl. by rewrite length_alter.
Qed.

Lemma main_step_frame s s' :
  main_step s = Some s' →
  sizes s' = sizes s ∧ built s' = built s ∧
  (index s' = index s ∨
   (mainThread s = MFlush ∧ mainThread s' = MIdle ∧
    index s' = index s ++ flushed s ∧
    intermediateIndex s' = intermediateIndex s)).
Proof.
  unfold Aggregator.main_step, sizes, flushed.
  destruct (mainThread s) as [| |[|f fs]|fs|fs| |] eqn:Hm; try done.
  - destruct (parseFeedList rssFeedListURI) as [feeds|];
      [case_decide|]; intros [= <-]; auto.
  - pose proof (wait_test_workers mainTid (feedPool s)) as Hws.
    destruct (wait_test mainTid (feedPool s)) as [p []];
      intros [= <-]; simpl in *; rewrite Hws; auto.
  - intros [= <-]. auto.
  - intros [= <-]. auto.
  - intros [= <-]. auto.
  - destruct (wait_woken mainTid (feedPool s)); [|done].
    pose proof (wait_test_workers mainTid (feedPool s)) as Hws.
    destruct (wait_test mainTid (feedPool s)) as [p []];
      intros [= <-]; simpl in *; rewrite Hws; auto.
  - intros [= <-]. simpl. split_and!; try done. right. done.
Qed.

Lemma step_frame l s s' :
  agg_inv s → step l s = Some s' →
  sizes s' = sizes s ∧
  (index s' = index s ∨
   (mainThread s = MFlush ∧ mainThread s' = MIdle ∧
    index s' = index s ++ flushed s ∧
    intermediateIndex s' = intermediateIndex s ∧ built s' = built s)).
Proof.
  intros Hinv. destruct l; simpl.
  - destruct (mainThread s); try done.
    destruct (built s); intros [= <-]; auto.
  - intros (? & ? & [?|(? & ? & ? & ?)])%main_step_frame; auto 10.
  - destruct (dispatcher (feedPool s)) as [p|] eqn:Hd; [|done].
    intros [= <-]. unfold sizes. simpl.
    rewrite (length_dispatcher _ _ _ _ (ai_feed _ _ Hinv) Hd). auto.
  - destruct (worker feedStart workerID (feedPool s)) as [p|] eqn:Hw;
      [|done].
    intros [= <-]. unfold sizes. simpl.
    rewrite (length_worker _ _ _ _ Hw). auto.
  - intros (? & ? & ? & ?)%feed_step_frame. auto.
  - intros [= <-]. auto.
  - destruct (dispatcher (articlePool s)) as [p|] eqn:Hd; [|done].
    intros [= <-]. unfold sizes. simpl.
    rewrite (length_dispatcher _ _ _ _ (ai_article _ _ Hinv) Hd). auto.
  - destruct (worker articleStart workerID (articlePool s)) as [p|] eqn:Hw;
      [|done].
    intros [= <-]. unfold sizes. simpl.
    rewrite (length_worker _ _ _ _ Hw). auto.
  - intros (? & ? & ? & ?)%article_step_frame. auto.
  - intros [= <-]. auto.
Qed.

Lemma exec_sizes tr : ∀ s s',
  agg_inv s → exec tr s = Some s' → sizes s' = sizes s.
Proof.
  induction tr as [|l tr IH]; intros s s' Hinv; simpl.
  - by intros [= <-].
  - destruct (step l s) as [s1|] eqn:Hstep; [|done]. simpl. intros Hex.
    rewrite (IH s1 s') by (done || by eapply step_agg_inv).
    by destruct (step_frame _ _ _ Hinv Hstep).
Qed.

Lemma step_index_state l s s' :
  agg_inv s → index_state s → step l s = Some s' → index_state s'.
Proof.
  intros Hinv Hi Hstep.
  destruct Hi as [Hi|(Hb & Hm & Hi)].
  - destruct (step_frame _ _ _ Hinv Hstep)
      as [_ [Heq|(Hm & Hm' & Heq & Hii & Hb)]].
    + left. congruence.
    + right. split_and!; [|done|].
      * rewrite Hb. apply (ai_built _ _ Hinv). by rewrite Hm.
      * rewrite Heq, Hi. unfold flushed. by rewrite Hii.
  - right.
    assert (drained s) as Hd by (split; [done|by left]).
    destruct (step_drained _ _ _ _ _ _ _ _ Hinv Hd Hstep) as [[Hb' _] Hres].
    destruct (Hres Hm) as [Hm' Hr]. unfold results in Hr. simplify_eq.
    split_and!; try done. unfold flushed in *. congruence.
Qed.

Lemma exec_index_state tr : ∀ s s',
  agg_inv s → index_state s → exec tr s = Some s' →
  index_state s'.
Proof.
  induction tr as [|l tr IH]; intros s s' Hinv Hi; simpl.
  - by intros [= <-].
  - destruct (step l s) as [s1|] eqn:Hstep; [|done]. simpl.
    apply IH; [by eapply step_agg_inv|by eapply step_index_state].
Qed.

End AggregatorMore.

(** ** Progress of the crawl *)

Section CrawlProgress.

Variable getURLServer : string → string.
Variable rssFeedListURI : string.
Variable parseFeedList : string → option (gmap string string).
Variable parseFeed : string → option (list Article).
Variable parseDocument : string → option (list string).
Import Aggregator.
Local Abbreviation step :=
  (Aggregator.step getURLServer rssFeedListURI parseFeedList parseFeed
     parseDocument).
Local Abbreviation exec :=
  (Aggregator.exec getURLServer rssFeedListURI parseFeedList parseFeed
     parseDocument).

(** An article thunk that is running can always make its next step. *)
Lemma article_thunk_moves k c s :
  running k (articlePool s) = Some c →
  is_Some (Aggregator.article_step getURLServer parseDocument k s).
Proof.
  intros Hr. unfold Aggregator.article_step. rewrite Hr.
  destruct c as [a|a|a toks]; [|destruct (parseDocument (url a))|]; eauto.
  destruct (claimURL (url a) s); eauto.
Qed.

(** A feed thunk that is running can make its next step unless it is
    blocked in [articlePool.wait()]. *)
Lemma feed_thunk_moves k c s :
  running k (feedPool s) = Some c →
  (c = FBlocked → wait_woken k (articlePool s) = true) →
  is_Some (Aggregator.feed_step parseFeed k s).
Proof.
  intros Hr Hb. unfold Aggregator.feed_step. rewrite Hr.
  destruct c as [u t|u|[|a arts]|arts|arts|]; eauto.
  - destruct (claimURL u s); eauto.
  - destruct (parseFeed u) as [[|a arts]|]; eauto.
  - destruct (wait_test k (articlePool s)) as [p []]; eauto.
  - rewrite Hb by done.
    destruct (wait_test k (articlePool s)) as [p []]; eauto.
Qed.

(** While work is left in the article pool, some thread can move. *)
Lemma article_pool_moves s :
  agg_inv getURLServer s →
  sizes s = (kNumFeedWorkers, kNumArticleWorkers) →
  pendingThunks (articlePool s) ≠ 0%Z →
  (∃ k, is_Some (step (LFeedThunk k) s)) ∨
  is_Some (step LArticleDispatcher s) ∨
  (∃ k, is_Some (step (LArticleWorker k) s)) ∨
  (∃ k, is_Some (step (LArticleThunk k) s)).
Proof.
  intros Hinv Hsz Hne. injection Hsz as HF HA.
  pose proof (ai_article _ _ Hinv) as Hp.
  destruct (decide (runCount isFCount (feedPool s) = 0)) as [Hu|Hu].
  - destruct (decide (runCount isFSignal (feedPool s) = 0)) as [Hv|Hv].
    + rewrite Hu, Hv in Hp.
      pose proof (inv_live _ _ _ Hp) as Hl.
      destruct (pool_progress articleStart (articlePool s) Hp)
        as [[p' Hd]|[[k [p' Hw]]|[k [c Hr]]]].
      * rewrite HA. unfold kNumArticleWorkers. lia.
      * lia.
      * right; left. simpl. rewrite Hd. simpl. eauto.
      * right; right; left. exists k. simpl. rewrite Hw. simpl. eauto.
      * right; right; right. exists k. simpl.
        by eapply article_thunk_moves.
    + apply runCount_pos in Hv as (k & c & Hr & Hc). left. exists k. simpl.
      eapply feed_thunk_moves; [done|]. intros ->. done.
  - apply runCount_pos in Hu as (k & c & Hr & Hc). left. exists k. simpl.
    eapply feed_thunk_moves; [done|]. intros ->. done.
Qed.

End CrawlProgress.

(** ** The end of a pool *)

Section ShutdownFacts.

Context {T : Type}.
Variable tid : nat.

Import Shutdown.

Local Abbreviation state := (Shutdown.state T).
Local Abbreviation step := (Shutdown.step (T:=T) tid).
Local Abbreviation exec := (Shutdown.exec (T:=T) tid).

(** When [wait()] returns to the destroying thread, the pool is at rest. *)
Lemma closing_at_flag (p : ThreadPool T T) :
  pool_inv 0 0 p → pendingThunks p = 0%Z → closing (mkState p XFlag false).
Proof.
  intros [He Hk Hn Hlog Hw Hp Ha Hl Hs Hcv] Hz.
  unfold live, signalled in *.
  assert (sum_list_with holds_thunk (workerVector p) = 0) as Hh by lia.
  assert (dispatcherThread p = DWaitThunk ∧ newThunkFromScheduler p = 0)
    as [Hd Hnt].
  { destruct (dispatcherThread p); try done; try lia. split; [done|lia]. }
  split; simpl; try done.
  - apply length_zero_iff_nil. lia.
  - lia.
  - intros j w Hj. specialize (Hw j w Hj).
    pose proof (sum_list_with_zero holds_thunk _ _ _ Hh Hj) as Hhw.
    unfold picked in Hw. rewrite Hd in Hw.
    rewrite (bool_decide_eq_false_2 (None = _)) in Hw by done.
    unfold closing_worker, worker_ok, holds_thunk in *. simpl.
    destruct (decide (nextSpawnID p ≤ j)) as [Hge|Hlt].
    + rewrite bool_decide_eq_false_2 in Hw by lia.
      destruct (workerThread w) as [[]|]; try done; try by destruct Hw.
      split; [done|lia].
    + rewrite bool_decide_eq_true_2 in Hw by lia.
      try rewrite decide_False by lia.
      destruct (workerThread w) as [[]|]; try done; try lia;
        by destruct Hw.
Qed.

Lemma closing_lookup_insert (x x' : destructorPC) nsid
    (ws : list (workerStruct T T)) k w' :
  (∀ j w, ws !! j = Some w → closing_worker x nsid j w) →
  (∀ j (w : workerStruct T T),
     j ≠ k → closing_worker x nsid j w → closing_worker x' nsid j w) →
  closing_worker x' nsid k w' →
  ∀ j w, <[k := w']> ws !! j = Some w → closing_worker x' nsid j w.
Proof.
  intros Hws Hmono Hw' j w Hj. destruct (decide (k = j)) as [->|Hne].
  - apply list_lookup_insert_Some in Hj as [(_ & <- & _)|[? _]]; done.
  - rewrite list_lookup_insert_ne in Hj by done. apply Hmono; [done|].
    by apply Hws.
Qed.

Lemma closing_set_worker (s : state) k w w' :
  closing s → workerVector (pool s) !! k = Some w →
  closing_worker (destructorThread s) (nextSpawnID (pool s)) k w' →
  closing (mkState (set_worker k w' (pool s)) (destructorThread s) false).
Proof.
  intros [Ht Hf Hk Hq Hz Hn Hc Hj Hws Hd] Hwk Hw'.
  split; simpl; rewrite ?length_insert; try done.
  by eapply closing_lookup_insert.
Qed.

Lemma closing_more_available (p : ThreadPool T T) x :
  closing (mkState p x false) →
  closing (mkState (set_workerIsAvailable (S (workerIsAvailable p)) p) x
             false).
Proof.
  intros [Ht Hf Hk Hq Hz Hn Hc Hj Hws Hd]. split; simpl in *; try done.
  unfold closing_dispatcher in *. destruct x; try done; simpl.
  destruct (dispatcherThread p); try done; split; try lia; by destruct Hd.
Qed.

Lemma steps_left_set_worker (s : state) k w w' :
  workerVector (pool s) !! k = Some w →
  worker_steps w = S (worker_steps w') →
  S (steps_left (mkState (set_worker k w' (pool s)) (destructorThread s)
                   false)) = steps_left s.
Proof.
  intros Hwk Hm. unfold steps_left. simpl.
  pose proof (sum_list_with_insert worker_steps _ _ _ w' Hwk). lia.
Qed.

Lemma worker_closing (s : state) k (p' : ThreadPool T T) :
  closing s → worker id k (pool s) = Some p' →
  closing (mkState p' (destructorThread s) false) ∧
  S (steps_left (mkState p' (destructorThread s) false)) = steps_left s.
Proof.
  intros Hcl Hstep.
  pose proof Hcl as [Ht Hf Hk Hq Hz Hn Hc Hj Hws Hd].
  unfold worker in Hstep.
  destruct (workerVector (pool s) !! k) as [w|] eqn:Hwk; [|done].
  pose proof (Hws k w Hwk) as Hw. unfold closing_worker in Hw.
  destruct (decide (nextSpawnID (pool s) ≤ k)) as [?|Hlt].
  { destruct Hw as [Hth _]. by rewrite Hth in Hstep. }
  destruct (decide (k < joined (destructorThread s) (nextSpawnID (pool s))))
    as [?|Hnj].
  { destruct Hw as [Hth _]. by rewrite Hth in Hstep. }
  destruct (workerThread w) as [[| |c| | | |]|] eqn:Hth; try done.
  - (* WWait *)
    destruct (thunkToExecute w) as [|n] eqn:Htte; [done|]. simplify_eq.
    destruct (decide (destructorThread s = XJoin k)) as [Hx|Hx]; [|done].
    assert (n = 0) as -> by lia. split.
    + eapply closing_set_worker; [done..|].
      unfold closing_worker. simpl. by rewrite !decide_False by done.
    + eapply steps_left_set_worker; [done|].
      unfold worker_steps. simpl. by rewrite Hth.
  - (* WCheck *)
    destruct Hw as [Hx Htte]. rewrite Hf, Hx in Hstep. simpl in Hstep.
    simplify_eq. split.
    + eapply closing_set_worker; [done..|].
      unfold closing_worker. simpl. by rewrite !decide_False by done.
    + eapply steps_left_set_worker; [done|].
      unfold worker_steps. simpl. by rewrite Hth.
  - (* WFree *)
    rewrite Hk in Hstep. simplify_eq. split.
    + eapply closing_set_worker; [done..|].
      unfold closing_worker. simpl. by rewrite !decide_False by done.
    + eapply steps_left_set_worker; [done|].
      unfold worker_steps. simpl. by rewrite Hth.
  - (* WSignal *)
    simplify_eq. split.
    + apply (closing_more_available
               (set_worker k (set_workerThread (Some WWait) w) (pool s))).
      eapply closing_set_worker; [done..|].
      unfold closing_worker. simpl. by rewrite !decide_False by done.
    + rewrite <- (steps_left_set_worker s k w
                    (set_workerThread (Some WWait) w) Hwk); [done|].
      unfold worker_steps. simpl. by rewrite Hth.
Qed.

Lemma dispatcher_closing (s : state) (p' : ThreadPool T T) :
  closing s → dispatcher (pool s) = Some p' →
  closing (mkState p' (destructorThread s) false) ∧
  S (steps_left (mkState p' (destructorThread s) false)) = steps_left s.
Proof.
  intros [Ht Hf Hk Hq Hz Hn Hc Hj Hws Hd] Hstep.
  unfold dispatcher in Hstep. unfold closing_dispatcher in Hd.
  unfold steps_left.
  destruct (dispatcherThread (pool s)) as [| | |a|a t|] eqn:Hdt.
  - destruct (newThunkFromScheduler (pool s)) as [|n] eqn:Hnt; [done|].
    simplify_eq.
    destruct (destructorThread s) eqn:Hx; try (by destruct Hd);
      (split; [split; simpl; rewrite ?Hx; try done;
               unfold closing_dispatcher; simpl; lia
              |simpl; lia]).
  - destruct (workerIsAvailable (pool s)) as [|n] eqn:Hav; [done|].
    simplify_eq.
    destruct (destructorThread s) eqn:Hx; try (by destruct Hd);
      (split; [split; simpl; rewrite ?Hx; try done;
               unfold closing_dispatcher; simpl; lia
              |simpl; lia]).
  - assert (exitFlag (pool s) = true) as He.
    { rewrite Hf. by destruct (destructorThread s); try destruct Hd. }
    rewrite He in Hstep. simplify_eq.
    destruct (destructorThread s) eqn:Hx; try (by destruct Hd);
      (split; [split; simpl; rewrite ?Hx; try done;
               unfold closing_dispatcher; simpl; lia
              |simpl; lia]).
  - by destruct (destructorThread s); try done; destruct Hd.
  - by destruct (destructorThread s); try done; destruct Hd.
  - done.
Qed.

Lemma closing_worker_same (x x' : destructorPC) nsid j
    (w : workerStruct T T) :
  joined x nsid = joined x' nsid →
  (∀ i, x ≠ XJoin i) → (∀ i, x' ≠ XJoin i) →
  closing_worker x nsid j w → closing_worker x' nsid j w.
Proof.
  intros Hjn Hx Hx'. unfold closing_worker. rewrite Hjn.
  repeat case_decide; try done; try (by destruct (Hx j));
    try (by destruct (Hx' j)).
  destruct (workerThread w) as [[]|]; try done; intros [? _];
    by destruct (Hx j).
Qed.

Lemma destructor_closing (s s' : state) :
  closing s → destructor tid s = Some s' →
  closing s' ∧ S (steps_left s') = steps_left s.
Proof.
  intros Hcl Hstep.
  pose proof Hcl as [Ht Hf Hk Hq Hz Hn Hc Hj Hws Hd].
  unfold destructor in Hstep. unfold closing_dispatcher in Hd.
  destruct (destructorThread s) as [| | |i|i| | | |] eqn:Hx; try done.
  - (* line 104 *)
    simplify_eq. split; [|unfold steps_left, destructor_steps; simpl; rewrite ?Hx; simpl; lia].
    split; simpl; try done; try lia.
    intros j w Hjw. specialize (Hws j w Hjw).
    unfold closing_worker in *. simpl in *.
    repeat case_decide; try done; try lia.
    destruct (workerThread w) as [[]|]; try done; by destruct Hws.
  - (* lines 106-107 *)
    simpl in Hc. destruct (decide (i < nextSpawnID (pool s))) as [Hlt|Hge].
    + destruct (workerVector (pool s) !! i) as [w|] eqn:Hwi; [|done].
      simplify_eq.
      pose proof (Hws i w Hwi) as Hw. unfold closing_worker in Hw.
      rewrite decide_False in Hw by lia. simpl in Hw.
      rewrite decide_False in Hw by lia.
      split.
      * split; simpl; rewrite ?length_insert; try done.
        -- intros j [= <-]. done.
        -- eapply closing_lookup_insert; [exact Hws| |].
           ++ intros j w0 Hne. unfold closing_worker. simpl.
              repeat case_decide; simplify_eq; try done.
              destruct (workerThread w0) as [[]|]; try done; by intros [].
           ++ unfold closing_worker. simpl.
              rewrite !decide_False by lia. rewrite decide_True by done.
              destruct (workerThread w) as [[]|]; try done;
                try (by destruct Hw); lia.
      * unfold steps_left, destructor_steps. simpl. rewrite ?Hx.
        pose proof (sum_list_with_insert worker_steps _ _ _
                      (set_thunkToExecute (S (thunkToExecute w)) w) Hwi)
          as Hsum.
        unfold worker_steps in Hsum at 2 4. simpl in Hsum. simpl. lia.
    + simplify_eq. assert (i = nextSpawnID (pool s)) as -> by lia.
      split; [|unfold steps_left, destructor_steps; simpl; rewrite ?Hx; simpl; lia].
      split; simpl; try done.
      intros j w Hjw. specialize (Hws j w Hjw).
      unfold closing_worker in *. simpl in *.
      repeat case_decide; try done; try lia.
  - (* line 108 *)
    pose proof (Hj i eq_refl) as Hlt.
    destruct (workerVector (pool s) !! i) as [w|] eqn:Hwi; [|done].
    destruct (workerThread w) as [[]|] eqn:Hth; try done. simplify_eq.
    pose proof (Hws i w Hwi) as Hw. unfold closing_worker in Hw.
    rewrite decide_False in Hw by lia. simpl in Hw.
    rewrite decide_False in Hw by lia. rewrite Hth in Hw.
    split.
    + split; simpl; try done.
      intros j w0 Hjw. specialize (Hws j w0 Hjw).
      unfold closing_worker in *. simpl in *.
      destruct (decide (j = i)) as [->|Hne].
      * simplify_eq. rewrite decide_False by lia.
        rewrite decide_True by lia. by destruct Hw.
      * repeat case_decide; simplify_eq; try done; try lia.
        destruct (workerThread w0) as [[]|]; try done; by destruct Hws.
    + unfold steps_left, destructor_steps. simpl. rewrite ?Hx. simpl. lia.
  - (* line 111 *)
    simplify_eq. destruct Hd as [Hdt Hnt].
    split; [|unfold steps_left, destructor_steps; simpl; rewrite ?Hx; simpl; lia].
    split; simpl; try done.
    + intros j w Hjw. by eapply closing_worker_same; [..|by apply Hws].
    + unfold closing_dispatcher. simpl. rewrite Hdt. lia.
  - (* line 112 *)
    simplify_eq.
    split; [|unfold steps_left, destructor_steps; simpl; rewrite ?Hx; simpl; lia].
    split; simpl; try done.
    + intros j w Hjw. by eapply closing_worker_same; [..|by apply Hws].
    + unfold closing_dispatcher. simpl.
      destruct (dispatcherThread (pool s)); try done; split; (done || lia).
  - (* line 113 *)
    destruct (dispatcherThread (pool s)) eqn:Hdt; try done. simplify_eq.
    split; [|unfold steps_left, destructor_steps; simpl; rewrite ?Hx, ?Hdt; simpl; lia].
    split; simpl; try done.
    intros j w Hjw. by eapply closing_worker_same; [..|by apply Hws].
Qed.

Lemma step_closing (l : label) (s s' : state) :
  closing s → step l s = Some s' →
  closing s' ∧ S (steps_left s') = steps_left s.
Proof.
  intros Hcl. unfold Shutdown.step. rewrite (cl_term _ Hcl).
  destruct l as [| | |k|k o].
  - by apply destructor_closing.
  - pose proof (cl_dispatcher _ Hcl) as Hd. unfold closing_dispatcher in Hd.
    by destruct (destructorThread s).
  - destruct (dispatcher (pool s)) as [p'|] eqn:Hd; [|done]. intros [= <-].
    by apply dispatcher_closing.
  - destruct (worker id k (pool s)) as [p'|] eqn:Hw; [|done]. intros [= <-].
    by eapply worker_closing.
  - destruct (running k (pool s)) as [c|] eqn:Hr; [|done].
    apply running_Some in Hr as (w & Hwk & Hth).
    pose proof (cl_workers _ Hcl k w Hwk) as Hw. unfold closing_worker in Hw.
    rewrite Hth in Hw. repeat case_decide; by destruct Hw.
Qed.

Lemma exec_closing (tr : list label) : ∀ s s' : state,
  closing s → exec tr s = Some s' →
  closing s' ∧ length tr + steps_left s' = steps_left s.
Proof.
  induction tr as [|l tr IH]; intros s s' Hcl; simpl.
  - by intros [= <-].
  - destruct (step l s) as [s1|] eqn:Hstep; [|done]. simpl. intros Hex.
    destruct (step_closing _ _ _ Hcl Hstep) as [Hcl1 Hm1].
    destruct (IH _ _ Hcl1 Hex) as [Hcl' Hm']. split; [done|lia].
Qed.

(** From line 104 on some thread can move until the destructor is done. *)
Lemma closing_progress (s : state) :
  closing s → destructorThread s ≠ XDone →
  is_Some (step LDestructor s) ∨ is_Some (step LDispatcher s) ∨
  ∃ k, is_Some (step (LWorker k) s).
Proof.
  intros [Ht Hf Hk Hq Hz Hn Hc Hj Hws Hd] Hx.
  unfold Shutdown.step, destructor. rewrite Ht.
  unfold closing_dispatcher in Hd.
  destruct (destructorThread s) as [| | |i|i| | | |] eqn:Hpc; try done;
    eauto.
  - left. case_decide; [|eauto].
    destruct (lookup_lt_is_Some_2 (workerVector (pool s)) i) as [w ->];
      [lia|eauto].
  - pose proof (Hj i eq_refl) as Hlt.
    destruct (lookup_lt_is_Some_2 (workerVector (pool s)) i) as [w Hwi];
      [lia|].
    pose proof (Hws i w Hwi) as Hw. unfold closing_worker in Hw.
    rewrite decide_False in Hw by lia. simpl in Hw.
    rewrite decide_False in Hw by lia. rewrite decide_True in Hw by done.
    rewrite Hwi.
    destruct (workerThread w) as [[]|] eqn:Hth; try done; eauto.
    all: right; right; exists i; unfold worker; rewrite Hwi, Hth.
    + rewrite Hw. eauto.
    + rewrite Hf. simpl. eauto.
    + rewrite Hk. eauto.
    + eauto.
  - simpl in Hf. unfold dispatcher.
    destruct (dispatcherThread (pool s)) eqn:Hdt; try done; eauto.
    + right; left. destruct Hd as [-> _]. eauto.
    + right; left. destruct Hd as [_ Hav].
      destruct (workerIsAvailable (pool s)); [lia|eauto].
    + right; left. rewrite Hf. eauto.
Qed.

(** Once the destructor is done, every thread of the pool has left its
    thread function and nothing moves any more. *)
Lemma closing_done (s : state) :
  closing s → destructorThread s = XDone →
  dispatcherThread (pool s) = DExit ∧
  (∀ j w, workerVector (pool s) !! j = Some w →
     workerThread w = (if decide (j < nextSpawnID (pool s))
                       then Some WExit else None)) ∧
  ∀ l, step l s = None.
Proof.
  intros [Ht Hf Hk Hq Hz Hn Hc Hj Hws Hd] Hx.
  unfold closing_dispatcher in Hd. rewrite Hx in Hd, Hws.
  assert (∀ j w, workerVector (pool s) !! j = Some w →
     workerThread w = (if decide (j < nextSpawnID (pool s))
                       then Some WExit else None)) as Hall.
  { intros j w Hjw. specialize (Hws j w Hjw). unfold closing_worker in Hws.
    simpl in Hws. repeat case_decide; try lia; by destruct Hws. }
  split_and!; [done|done|].
  intros l. unfold Shutdown.step, destructor. rewrite Ht, Hx.
  destruct l as [| | |k|k o]; try done.
  - unfold dispatcher. by rewrite Hd.
  - unfold worker. destruct (workerVector (pool s) !! k) as [w|] eqn:Hwk;
      [|done].
    rewrite (Hall k w Hwk). by case_decide.
  - unfold running. destruct (workerVector (pool s) !! k) as [w|] eqn:Hwk;
      [|done].
    rewrite (Hall k w Hwk). by case_decide.
Qed.

Lemma destructor_wait_phase n (s : state) :
  pool_inv 0 0 (pool s) → length (workerVector (pool s)) = n →
  draining n (destructor_wait tid s) ∨ closing (destructor_wait tid s).
Proof.
  intros Hinv Hlen. unfold destructor_wait, wait_test.
  case_decide as Hz.
  - right. by apply closing_at_flag.
  - left. split_and!; simpl; [|done..].
    destruct Hinv. split; simpl; try done.
Qed.

Lemma step_phase n (l : label) (s s' : state) :
  draining n s ∨ closing s → step l s = Some s' →
  draining n s' ∨ closing s'.
Proof.
  intros [(Hinv & Hx & Hlen)|Hcl] Hstep;
    [|right; by destruct (step_closing _ _ _ Hcl Hstep)].
  unfold Shutdown.step in Hstep. destruct (terminated s); [done|].
  destruct l as [| | |k|k o].
  - unfold destructor in Hstep.
    destruct (destructorThread s); try done.
    + simplify_eq. by apply destructor_wait_phase.
    + destruct (wait_woken tid (pool s)); [|done]. simplify_eq.
      by apply destructor_wait_phase.
  - destruct (destructorThread s); try done. simplify_eq. left.
    split_and!; [|done..]. by apply pool_inv_spurious.
  - destruct (dispatcher (pool s)) as [p'|] eqn:Hd; [|done].
    simpl in Hstep. simplify_eq.
    left. split_and!; [|done|].
    + by eapply pool_inv_dispatcher.
    + simpl. by eapply length_dispatcher.
  - destruct (worker id k (pool s)) as [p'|] eqn:Hw; [|done].
    simpl in Hstep. simplify_eq.
    left. split_and!; [|done|].
    + by eapply pool_inv_worker.
    + simpl. by eapply length_worker.
  - destruct (running k (pool s)) as [c|] eqn:Hr; [|done].
    destruct o; simplify_eq; left; (split_and!; [|done|]); simpl;
      try done.
    + by eapply pool_inv_return.
    + by rewrite length_alter.
Qed.

Lemma exec_phase n (tr : list label) : ∀ s s' : state,
  draining n s ∨ closing s → exec tr s = Some s' →
  draining n s' ∨ closing s'.
Proof.
  induction tr as [|l tr IH]; intros s s' Hph; simpl.
  - by intros [= <-].
  - destruct (step l s) as [s1|] eqn:Hstep; [|done]. simpl.
    apply IH. by eapply step_phase.
Qed.

(** While the destroying thread waits, it can go on or the pool can. *)
Lemma draining_progress n (s : state) :
  draining n s → 0 < n → terminated s = false →
  is_Some (step LDestructor s) ∨ is_Some (step LDispatcher s) ∨
  (∃ k, is_Some (step (LWorker k) s)) ∨
  (∃ k, is_Some (step (LThunk k Clients.Returns) s)).
Proof.
  intros (Hinv & Hx & Hlen) Hn Ht. unfold Shutdown.step. rewrite Ht.
  destruct (decide (pendingThunks (pool s) = 0%Z)) as [Hz|Hnz].
  - left. unfold destructor.
    destruct (destructorThread s); try done.
    all: try (unfold wait_woken; rewrite (inv_condvar _ _ _ Hinv Hz);
              rewrite bool_decide_eq_true_2 by apply not_elem_of_empty).
    all: eauto.
  - pose proof (inv_live _ _ _ Hinv) as Hl.
    destruct (pool_progress id (pool s) Hinv)
      as [[p Hp]|[[k [p Hp]]|[k [c Hc]]]].
    + lia.
    + lia.
    + right; left. rewrite Hp. simpl. eauto.
    + right; right; left. exists k. rewrite Hp. simpl. eauto.
    + right; right; right. exists k. rewrite Hc. eauto.
Qed.

Lemma enter_draining numThreads numClients
    (tr0 : list (Clients.label T)) (s0 : Clients.state T) :
  Clients.exec tr0 (Clients.init numThreads numClients) = Some s0 →
  count_pc Clients.CPushed (Clients.clients s0) = 0 →
  count_pc Clients.CCounted (Clients.clients s0) = 0 →
  draining numThreads (enter (Clients.pool s0)).
Proof.
  intros Hex Hu Hv.
  pose proof (exec_inv _ _ _ (init_inv numThreads numClients) Hex) as Hinv.
  pose proof (exec_length _ _ _ (init_inv numThreads numClients) Hex) as Hlen.
  simpl in Hlen. rewrite length_replicate in Hlen.
  unfold sys_inv in Hinv. rewrite Hu, Hv in Hinv. done.
Qed.

End ShutdownFacts.

(** ** The command line *)

Section CommandLineFacts.

Lemma parseOptions_app results1 results2 uri verbose :
  parseOptions (results1 ++ results2) uri verbose =
    match parseOptions results1 uri verbose with
    | Some (uri', verbose') => parseOptions results2 uri' verbose'
    | None => None
    end.
Proof.
  revert uri verbose.
  induction results1 as [|[ch optarg] results1 IH]; intros uri verbose;
    simpl; [done|].
  repeat case_decide; by rewrite ?IH.
Qed.

Lemma parseOptions_recognized results uri verbose :
  Forall recognized results →
  ∃ uri' verbose', parseOptions results uri verbose = Some (uri', verbose').
Proof.
  intros Hall. revert uri verbose.
  induction Hall as [|[ch optarg] results Hr Hall IH]; intros uri verbose;
    simpl; [eauto|].
  unfold recognized in Hr. simpl in Hr.
  repeat case_decide; try apply IH. by destruct Hr as [?|[?|?]].
Qed.

Lemma parseOptions_no_u results uri verbose :
  Forall recognized results → Forall (λ r, r.1 ≠ ch_u) results →
  ∃ verbose', parseOptions results uri verbose = Some (uri, verbose').
Proof.
  intros Hall Hnu. revert verbose.
  induction Hall as [|[ch optarg] results Hr Hall IH]; intros verbose;
    simpl; [eauto|].
  apply Forall_cons in Hnu as [Hne Hnu]. simpl in Hne.
  unfold recognized in Hr. simpl in Hr.
  repeat case_decide; try (by apply IH); try done.
  by destruct Hr as [?|[?|?]].
Qed.

Lemma parseOptions_only_u results uri verbose :
  Forall recognized results →
  Forall (λ r, r.1 ≠ ch_v ∧ r.1 ≠ ch_q) results →
  ∃ uri', parseOptions results uri verbose = Some (uri', verbose).
Proof.
  intros Hall Hnu. revert uri.
  induction Hall as [|[ch optarg] results Hr Hall IH]; intros uri;
    simpl; [eauto|].
  apply Forall_cons in Hnu as [[Hv Hq] Hnu]. simpl in Hv, Hq.
  unfold recognized in Hr. simpl in Hr.
  repeat case_decide; try (by apply IH); try done.
  by destruct Hr as [?|[?|?]].
Qed.

End CommandLineFacts.


(** ** The updates of the intermediate index *)

Section MergeSteps.

Variable getURLServer : string → string.
Variable rssFeedListURI : string.
Variable parseFeedList : string → option (gmap string string).
Variable parseFeed : string → option (list Article).
Variable parseDocument : string → option (list string).
Import Aggregator.
Local Abbreviation step :=
  (Aggregator.step getURLServer rssFeedListURI parseFeedList parseFeed
     parseDocument).
Local Abbreviation exec :=
  (Aggregator.exec getURLServer rssFeedListURI parseFeedList parseFeed
     parseDocument).

(** What a step does to the intermediate index. *)
Lemma step_intermediate l s s' :
  step l s = Some s' →
  intermediateIndex s' = intermediateIndex s ∨
  ∃ a toks,
    intermediateIndex s' = mergeUpdate getURLServer a toks (intermediateIndex s).
Proof.
  destruct l; simpl.
  - destruct (mainThread s); try done.
    destruct (built s); intros [= <-]; auto.
  - unfold Aggregator.main_step.
    destruct (mainThread s) as [| |[|f fs]|fs|fs| |]; try done;
      try (intros [= <-]; auto).
    + destruct (parseFeedList rssFeedListURI) as [feeds|];
        [case_decide|]; intros [= <-]; auto.
    + destruct (wait_test mainTid (feedPool s)) as [p []];
        intros [= <-]; auto.
    + destruct (wait_woken mainTid (feedPool s)); [|done].
      destruct (wait_test mainTid (feedPool s)) as [p []];
        intros [= <-]; auto.
  - destruct (dispatcher (feedPool s)); [|done]. intros [= <-]. auto.
  - destruct (worker feedStart workerID (feedPool s)); [|done].
    intros [= <-]. auto.
  - unfold Aggregator.feed_step.
    destruct (running workerID (feedPool s)) as [pc|]; [|done].
    destruct pc as [u t|u|[|a arts]|arts|arts|]; try (intros [= <-]; auto).
    + unfold claimURL. case_decide; intros [= <-]; auto.
    + destruct (parseFeed u) as [[|a arts]|]; intros [= <-]; auto.
    + destruct (wait_test workerID (articlePool s)) as [p []];
        intros [= <-]; auto.
    + destruct (wait_woken workerID (articlePool s)); [|done].
      destruct (wait_test workerID (articlePool s)) as [p []];
        intros [= <-]; auto.
  - intros [= <-]. auto.
  - destruct (dispatcher (articlePool s)); [|done]. intros [= <-]. auto.
  - destruct (worker articleStart workerID (articlePool s)); [|done].
    intros [= <-]. auto.
  - unfold Aggregator.article_step.
    destruct (running workerID (articlePool s)) as [pc|]; [|done].
    destruct pc as [a|a|a toks].
    + unfold claimURL. case_decide; intros [= <-]; auto.
    + destruct (parseDocument (url a)); intros [= <-]; auto.
    + intros [= <-]. right. by exists a, toks.
  - intros [= <-]. auto.
Qed.

(** An update of the intermediate index never adds a token and never
    raises a URL. *)
Lemma mergeUpdate_shrinks a toks m K e et :
  index_ok getURLServer m → m !! K = Some (e, et) →
  ∃ e' et', mergeUpdate getURLServer a toks m !! K = Some (e', et') ∧
    et' `sublist_of` et ∧ StrOrd.le (url e') (url e) ∧ title e' = title e.
Proof.
  intros Hok Hlk. destruct (decide (keyOf getURLServer a = K)) as [<-|Hne].
  - rewrite (mergeUpdate_present _ _ _ _ _ _ Hlk). eexists _, _.
    split; [done|]. simpl. split_and!.
    + apply set_intersection_sublist.
    + destruct (String.ltb (url e) (url a)) eqn:Hlt; [apply reflexivity|done].
    + by destruct (Hok _ _ _ Hlk) as [-> _].
  - rewrite mergeUpdate_other by done. exists e, et.
    split_and!; [done|done|apply reflexivity|done].
Qed.

End MergeSteps.

(** ** What the pool threads do with the thunks *)

Section PoolContentFacts.

Context {T C : Type} `{EqDecision T}.
Variable start : T → C.

Lemma count_le_length (t : T) (l : list T) : count t l ≤ length l.
Proof.
  unfold count. induction l as [|x l IH]; simpl; [done|].
  destruct (decide (x = t)); lia.
Qed.

Lemma awaits_le_holds_thunk t (w : workerStruct T C) :
  awaits t w ≤ holds_thunk w.
Proof.
  unfold awaits, holds_thunk. case_decide; [|lia].
  destruct (workerThread w) as [[]|]; lia.
Qed.

Lemma held_le_live t (p : ThreadPool T C) : held t p ≤ live p.
Proof.
  unfold held, live.
  pose proof (count_le_length t (thunkQueue p)).
  pose proof (sum_list_with_le (awaits t) holds_thunk (workerVector p)
                (awaits_le_holds_thunk t)).
  unfold in_hand. destruct (dispatcherThread p); try case_decide; lia.
Qed.

Lemma held_push t thunk (p : ThreadPool T C) :
  held t (schedule_push thunk p) =
    held t p + (if decide (thunk = t) then 1 else 0).
Proof.
  unfold held, schedule_push. simpl. unfold count.
  rewrite count_occ_app. simpl. destruct (decide (thunk = t)); lia.
Qed.

Lemma held_wait_test t tid (p : ThreadPool T C) :
  held t (wait_test tid p).1 = held t p.
Proof. unfold wait_test. by case_decide. Qed.

Lemma running_wait_test k tid (p : ThreadPool T C) :
  running k (wait_test tid p).1 = running k p.
Proof. unfold wait_test. by case_decide. Qed.

Lemma held_goto t k c (p : ThreadPool T C) c0 :
  running k p = Some c0 → held t (thunk_goto k c p) = held t p.
Proof.
  intros (w & Hw & Hth)%running_Some. unfold held, thunk_goto. simpl.
  pose proof (sum_list_with_alter (awaits t)
                (set_workerThread (Some (WRun c))) _ _ _ Hw) as Hsum.
  unfold awaits in Hsum at 2 4. simpl in Hsum. rewrite Hth in Hsum.
  case_decide; lia.
Qed.

Lemma held_return t k (p : ThreadPool T C) c0 :
  running k p = Some c0 → held t (thunk_return k p) = held t p.
Proof.
  intros (w & Hw & Hth)%running_Some. unfold held, thunk_return. simpl.
  pose proof (sum_list_with_alter (awaits t)
                (set_workerThread (Some WDecr)) _ _ _ Hw) as Hsum.
  unfold awaits in Hsum at 2 4. simpl in Hsum. rewrite Hth in Hsum.
  case_decide; lia.
Qed.

Lemma running_goto j k c (p : ThreadPool T C) c0 :
  running k p = Some c0 →
  running j (thunk_goto k c p) = if decide (j = k) then Some c else running j p.
Proof.
  intros (w & Hw & Hth)%running_Some. unfold running, thunk_goto. simpl.
  destruct (decide (j = k)) as [->|Hne].
  - by rewrite list_lookup_alter_eq, Hw.
  - by rewrite list_lookup_alter_ne.
Qed.

Lemma running_return j k (p : ThreadPool T C) c0 :
  running k p = Some c0 →
  running j (thunk_return k p) = if decide (j = k) then None else running j p.
Proof.
  intros (w & Hw & Hth)%running_Some. unfold running, thunk_return. simpl.
  destruct (decide (j = k)) as [->|Hne].
  - by rewrite list_lookup_alter_eq, Hw.
  - by rewrite list_lookup_alter_ne.
Qed.

(** The dispatcher moves thunks from the queue to the workers and leaves
    the running thunks alone. *)
Lemma dispatcher_content u v (p p' : ThreadPool T C) :
  pool_inv u v p → dispatcher p = Some p' →
  (∀ t, held t p' = held t p) ∧ (∀ k, running k p' = running k p).
Proof.
  intros [He Hk Hn Hlog Hw Hp Ha Hl Hs Hcv] Hd.
  unfold dispatcher in Hd. unfold held, running.
  destruct (dispatcherThread p) as [| | |a|a t0|] eqn:Hdt.
  - destruct (newThunkFromScheduler p); [done|]. by simplify_eq.
  - destruct (workerIsAvailable p); [done|]. by simplify_eq.
  - rewrite He, Hk in Hd.
    destruct (scan_pick (length (workerVector p)) 0 (workerVector p)
                (nextSpawnID p) (spawnLog p))
      as (j & w & _ & Hjn & Hj & Hfree & Heq).
    { lia. }
    { intros i w Hi Hle. specialize (Hw i w Hi).
      rewrite (bool_decide_eq_false_2 (i < _)) in Hw by lia.
      by eapply worker_ok_unspawned. }
    { lia. }
    { destruct (exists_free (workerVector p)) as (j & w & ? & ?); [lia|].
      exists j, w. split_and!; [lia|done..]. }
    rewrite Heq in Hd. simplify_eq. simpl.
    set (w' := set_workerInUse true
                 (if decide (j = nextSpawnID p)
                  then set_workerThread (Some WWait) w else w)).
    assert (workerThread w = None ∨ workerThread w' = workerThread w) as Hth.
    { unfold w'. case_decide as Hjn'; simpl; [|by right]. left.
      specialize (Hw j w Hj).
      rewrite (bool_decide_eq_false_2 (_ < _)) in Hw by lia.
      unfold worker_ok in Hw.
      destruct (workerThread w) as [[]|]; try done; by destruct Hw. }
    assert (workerThread w' = Some WWait ∨ workerThread w' = workerThread w)
      as Hth'.
    { unfold w'. case_decide; simpl; auto. }
    split.
    + intros t.
      pose proof (sum_list_with_insert (awaits t) _ _ _ w' Hj) as Hsum.
      assert (awaits t w' = awaits t w) as Haw; [|lia].
      unfold awaits, w'. case_decide as Hjn'; simpl; [|done].
      destruct Hth as [Hth|Hth]; [|by rewrite <- Hth].
      by rewrite Hth.
    + intros k. destruct (decide (k = j)) as [->|Hne].
      * rewrite list_lookup_insert_eq by (by eapply lookup_lt_Some).
        rewrite Hj.
        destruct Hth as [Hth|Hth]; [|by rewrite Hth].
        rewrite Hth. by destruct Hth' as [-> | ->]; [|rewrite Hth].
      * by rewrite list_lookup_insert_ne.
  - destruct (thunkQueue p) as [|t0 q] eqn:Hq; [done|]. simplify_eq. simpl.
    split; [|done]. intros t. unfold count. simpl.
    destruct (decide (t0 = t)); lia.
  - rewrite Hk in Hd. case_decide; [done|].
    destruct (workerVector p !! Z.to_nat a) as [w|] eqn:Hwa; [|done].
    simplify_eq. simpl.
    specialize (Hw _ w Hwa). unfold picked in Hw. rewrite Hdt in Hw.
    rewrite decide_True in Hw by lia.
    rewrite bool_decide_eq_true_2 in Hw by done.
    unfold worker_ok in Hw.
    assert (thunkToExecute w = 0 ∧
            (workerThread w = Some WWait ∨ workerThread w = Some WSignal))
      as [Htte Hpc].
    { destruct (workerThread w) as [[]|]; try (by decompose [and] Hw);
        destruct Hw as [_ Hw]; destruct (workerInUse w);
        try (by destruct Hw); eauto. }
    split.
    + intros t.
      pose proof (sum_list_with_insert (awaits t) _ _ _
        (set_thunkToExecute (S (thunkToExecute w))
           (set_workerThunk (Some t0) w)) Hwa) as Hsum.
      unfold awaits in Hsum at 2 4. simpl in Hsum.
      rewrite Htte in Hsum |- *.
      destruct Hpc as [Hpc|Hpc]; rewrite Hpc in Hsum;
        repeat case_decide; simplify_eq; lia.
    + intros k. destruct (decide (k = Z.to_nat a)) as [->|Hne].
      * rewrite list_lookup_insert_eq by (by eapply lookup_lt_Some).
        rewrite Hwa. simpl. by destruct Hpc as [-> | ->].
      * by rewrite list_lookup_insert_ne.
  - done.
Qed.

(** A worker leaves the thunks alone, but for the call of line 78, which
    takes the thunk it was handed and starts it. *)
Lemma worker_content u v (p p' : ThreadPool T C) k :
  pool_inv u v p → worker start k p = Some p' →
  (∀ j, j ≠ k → running j p' = running j p) ∧
  running k p = None ∧
  ((running k p' = None ∧ ∀ t, held t p' = held t p) ∨
   (∃ thunk, running k p' = Some (start thunk) ∧
      ∀ t, held t p' + (if decide (thunk = t) then 1 else 0) = held t p)).
Proof.
  intros [He Hk Hn Hlog Hw Hp Ha Hl Hs Hcv] Hstep. unfold worker in Hstep.
  destruct (workerVector p !! k) as [w|] eqn:Hwk; [|done].
  specialize (Hw k w Hwk). unfold worker_ok in Hw.
  assert (∀ w' p0, workerVector p0 = workerVector p →
            ∀ j, j ≠ k → running j (set_worker k w' p0) = running j p)
    as Hother.
  { intros w' p0 Hws j Hne. unfold running, set_worker. simpl.
    by rewrite Hws, list_lookup_insert_ne. }
  assert (∀ w' p0, workerVector p0 = workerVector p →
            running k (set_worker k w' p0) =
              match workerThread w' with
              | Some (WRun c) => Some c
              | _ => None
              end) as Hself.
  { intros w' p0 Hws. unfold running, set_worker. simpl.
    by rewrite Hws, list_lookup_insert_eq by (by eapply lookup_lt_Some). }
  assert (∀ w' p0 t, workerVector p0 = workerVector p →
            thunkQueue p0 = thunkQueue p →
            dispatcherThread p0 = dispatcherThread p →
            held t (set_worker k w' p0) + awaits t w = held t p + awaits t w')
    as Hheld.
  { intros w' p0 t Hws Hq Hd. unfold held, set_worker. simpl.
    rewrite Hws, Hq, Hd.
    pose proof (sum_list_with_insert (awaits t) _ _ _ w' Hwk). lia. }
  assert (running k p = None) as Hnone.
  { unfold running. rewrite Hwk.
    by destruct (workerThread w) as [[]|]. }
  destruct (workerThread w) as [[| |c| | | |]|] eqn:Hth; try done.
  - destruct (thunkToExecute w) as [|n] eqn:Htte; [done|]. simplify_eq.
    split_and!; [by apply Hother|done|]. left.
    split; [by rewrite Hself|]. intros t.
    pose proof (Hheld (set_workerThread (Some WCheck)
                         (set_thunkToExecute n w)) p t eq_refl eq_refl
                  eq_refl) as Hh.
    unfold awaits in Hh. simpl in Hh. rewrite Hth, Htte in Hh.
    case_decide; lia.
  - rewrite He in Hstep.
    destruct Hw as (_ & _ & _ & Htte & [t0 Ht0]). rewrite Ht0 in Hstep.
    simplify_eq.
    split_and!; [by apply Hother|done|]. right. exists t0.
    split; [by rewrite Hself|]. intros t.
    pose proof (Hheld (set_workerThread (Some (WRun (start t0))) w) p t
                  eq_refl eq_refl eq_refl) as Hh.
    unfold awaits in Hh. simpl in Hh. rewrite Hth, Htte, Ht0 in Hh.
    repeat case_decide; simplify_eq; lia.
  - simplify_eq.
    set (p2 := if decide ((pendingThunks p - 1)%Z = 0%Z)
               then set_pendingThunksCondVar ∅
                      (set_pendingThunks (pendingThunks p - 1) p)
               else set_pendingThunks (pendingThunks p - 1) p).
    assert (workerVector p2 = workerVector p ∧
            thunkQueue p2 = thunkQueue p ∧
            dispatcherThread p2 = dispatcherThread p) as (H1 & H2 & H3).
    { unfold p2.
      by destruct (decide ((pendingThunks p - 1)%Z = 0%Z)). }
    split_and!; [by apply Hother|done|]. left.
    split; [by rewrite Hself|]. intros t.
    pose proof (Hheld (set_workerThread (Some WFree) w) p2 t H1 H2 H3) as Hh.
    unfold awaits in Hh. simpl in Hh. rewrite Hth in Hh.
    case_decide; lia.
  - rewrite Hk in Hstep. simplify_eq.
    split_and!; [by apply Hother|done|]. left.
    split; [by rewrite Hself|]. intros t.
    pose proof (Hheld (set_workerThread (Some WSignal)
                         (set_workerInUse false w)) p t eq_refl eq_refl
                  eq_refl) as Hh.
    unfold awaits in Hh. simpl in Hh. rewrite Hth in Hh.
    case_decide; lia.
  - simplify_eq.
    split_and!.
    + intros j Hne. unfold running. simpl. by rewrite list_lookup_insert_ne.
    + done.
    + left. split.
      * unfold running. simpl.
        by rewrite list_lookup_insert_eq by (by eapply lookup_lt_Some).
      * intros t.
        pose proof (Hheld (set_workerThread (Some WWait) w) p t eq_refl
                      eq_refl eq_refl) as Hh.
        unfold awaits in Hh. simpl in Hh. rewrite Hth in Hh.
        unfold held in *. simpl in *. case_decide; lia.
Qed.

End PoolContentFacts.

(** ** What a crawl has fetched *)

Section InPoolFacts.

Context {T C : Type} `{EqDecision T}.
Variable start : T → C.

Lemma in_pool_drained t (p : ThreadPool T C) :
  live p = 0 → ¬ in_pool start t p.
Proof.
  intros Hl [Hh|[k Hr]].
  - pose proof (held_le_live t p). lia.
  - by rewrite (live_zero_not_running _ _ Hl) in Hr.
Qed.

Lemma in_pool_push t (p : ThreadPool T C) :
  in_pool start t (schedule_push t p).
Proof. left. rewrite held_push, decide_True by done. lia. Qed.

Lemma in_pool_dispatcher u v t (p p' : ThreadPool T C) :
  pool_inv u v p → dispatcher p = Some p' →
  in_pool start t p → in_pool start t p'.
Proof.
  intros Hinv Hd. destruct (dispatcher_content _ _ _ _ Hinv Hd) as [Hh Hr].
  intros [Hheld|[k Hk]]; [left|right].
  - by rewrite Hh.
  - exists k. by rewrite Hr.
Qed.

Lemma running_worker u v (p p' : ThreadPool T C) k j c :
  pool_inv u v p → worker start k p = Some p' →
  running j p = Some c → running j p' = Some c.
Proof.
  intros Hinv Hw Hr.
  destruct (worker_content start _ _ _ _ _ Hinv Hw) as (Ho & Hn & _).
  destruct (decide (j = k)) as [->|Hne]; [congruence|].
  by rewrite Ho.
Qed.

Lemma in_pool_worker u v t (p p' : ThreadPool T C) k :
  pool_inv u v p → worker start k p = Some p' →
  in_pool start t p → in_pool start t p'.
Proof.
  intros Hinv Hw.
  destruct (worker_content start _ _ _ _ _ Hinv Hw)
    as (Ho & Hn & [[Hk Hh]|(thunk & Hk & Hh)]).
  - intros [Hheld|[j Hj]]; [left; by rewrite Hh|right].
    exists j. by eapply running_worker.
  - intros [Hheld|[j Hj]].
    + specialize (Hh t). destruct (decide (thunk = t)) as [->|Hne].
      * right. by exists k.
      * left. lia.
    + right. exists j. by eapply running_worker.
Qed.

End InPoolFacts.

Section CrawlLogFacts.

Variable getURLServer : string → string.
Variable rssFeedListURI : string.
Variable parseFeedList : string → option (gmap string string).
Variable parseFeed : string → option (list Article).
Variable parseDocument : string → option (list string).
Variable feeds : gmap string string.
Hypothesis Hfeeds : parseFeedList rssFeedListURI = Some feeds.

Import Aggregator CrawlLog.

Local Abbreviation step :=
  (Aggregator.step getURLServer rssFeedListURI parseFeedList parseFeed
     parseDocument).
Local Abbreviation exec_log :=
  (CrawlLog.exec_log getURLServer rssFeedListURI parseFeedList parseFeed
     parseDocument).
Local Abbreviation crawl_inv := (crawl_inv parseFeed parseDocument feeds).
Local Abbreviation agg_inv := (agg_inv getURLServer).

Lemma crawl_inv_init : crawl_inv init [].
Proof.
  split; simpl.
  - done.
  - intros u Hu. by apply not_elem_of_empty in Hu.
  - intros u arts a Hin. by apply elem_of_nil in Hin.
  - intros a toks Hin. by apply elem_of_nil in Hin.
Qed.

(** A step that moves no thunk and fetches nothing. *)
Lemma crawl_inv_frame s s' h :
  crawl_inv s h →
  (built s' = true → mainThread s' ≠ MParse →
   ∀ f, f ∈ map_to_list feeds →
     f ∈ feedsLeft (mainThread s') ∨ in_pool feedStart f (feedPool s') ∨
     f.1 ∈ seenURLs s') →
  seenURLs s' = seenURLs s → merged s' = merged s →
  (∀ k c, running k (feedPool s) = Some c →
     running k (feedPool s') = Some c) →
  (∀ k c, running k (articlePool s) = Some c →
     running k (articlePool s') = Some c) →
  (∀ a, in_pool articleStart a (articlePool s) →
     in_pool articleStart a (articlePool s')) →
  crawl_inv s' h.
Proof.
  intros [H1 H2 H3 H4] Hl Hs Hm HrF HrA HpA. split.
  - done.
  - intros u Hu. rewrite Hs in Hu.
    destruct (H2 u Hu) as [[k Hk]|[(k & a & Hk & Ha)|Hf]]; eauto 10.
  - intros u arts a Hu Hp Ha. rewrite Hs.
    destruct (H3 u arts a Hu Hp Ha) as [(k & c & Hk & Hc)|[Hin|Hseen]];
      eauto 10.
  - intros a toks Ha Hp. rewrite Hm.
    destruct (H4 a toks Ha Hp) as [[k Hk]|Hin]; eauto.
Qed.

Lemma listed_frame s s' h :
  crawl_inv s h →
  built s' = built s → mainThread s' = mainThread s →
  seenURLs s' = seenURLs s →
  (∀ f, in_pool feedStart f (feedPool s) →
     in_pool feedStart f (feedPool s')) →
  built s' = true → mainThread s' ≠ MParse →
  ∀ f, f ∈ map_to_list feeds →
    f ∈ feedsLeft (mainThread s') ∨ in_pool feedStart f (feedPool s') ∨
    f.1 ∈ seenURLs s'.
Proof.
  intros [H1 _ _ _] Hb Hm Hs Hp Hb' Hm' f Hf. rewrite Hb in Hb'.
  rewrite Hm in Hm' |- *. rewrite Hs.
  destruct (H1 Hb' Hm' f Hf) as [?|[?|?]]; auto.
Qed.

Lemma crawl_inv_feed_pool s h p :
  crawl_inv s h →
  (∀ f, in_pool feedStart f (feedPool s) → in_pool feedStart f p) →
  (∀ k c, running k (feedPool s) = Some c → running k p = Some c) →
  crawl_inv (set_feedPool p s) h.
Proof.
  intros Hci Hp Hr. apply (crawl_inv_frame s); try done.
  by apply (listed_frame s _ h).
Qed.

Lemma crawl_inv_article_pool s h p :
  crawl_inv s h →
  (∀ a, in_pool articleStart a (articlePool s) → in_pool articleStart a p) →
  (∀ k c, running k (articlePool s) = Some c → running k p = Some c) →
  crawl_inv (set_articlePool p s) h.
Proof.
  intros Hci Hp Hr. apply (crawl_inv_frame s); try done.
  by apply (listed_frame s _ h).
Qed.

Lemma in_pool_spurious {T C} `{EqDecision T} (start : T → C) t tid
    (p : ThreadPool T C) :
  in_pool start t p → in_pool start t (spurious_wakeup tid p).
Proof. done. Qed.

Lemma in_pool_wait_test {T C} `{EqDecision T} (start : T → C) t tid
    (p : ThreadPool T C) :
  in_pool start t p → in_pool start t (wait_test tid p).1.
Proof.
  unfold in_pool. rewrite held_wait_test.
  intros [?|[k Hk]]; [by left|right]. exists k. by rewrite running_wait_test.
Qed.

Lemma crawl_inv_main s s' h :
  agg_inv s → crawl_inv s h →
  Aggregator.main_step rssFeedListURI parseFeedList s = Some s' →
  crawl_inv s' h.
Proof.
  intros Hinv Hci. unfold Aggregator.main_step.
  destruct (mainThread s) as [| |[|f fs]|fs|fs| |] eqn:Hm; try done.
  - (* the feed list is parsed *)
    rewrite Hfeeds. case_decide as He; intros [= <-].
    + apply (crawl_inv_frame s); try done. simpl.
      intros _ _ f Hf. rewrite He in Hf. rewrite map_to_list_empty in Hf.
      by apply elem_of_nil in Hf.
    + apply (crawl_inv_frame s); try done. simpl.
      intros _ _ f Hf. left. unfold in_order.
      by rewrite merge_sort_Permutation.
  - (* wait *)
    pose proof (in_pool_wait_test feedStart) as Hp.
    pose proof (running_wait_test (T:=string * string) (C:=FeedPC)) as Hr.
    destruct (wait_test mainTid (feedPool s)) as [p r] eqn:Hwt.
    intros [= <-]. apply (crawl_inv_frame s); try done; simpl.
    + intros Hb _ f Hf.
      destruct (ci_listed _ _ _ _ _ Hci Hb) with (f := f) as [Hin|[Hin|Hin]];
        try done.
      * by rewrite Hm.
      * rewrite Hm in Hin. by apply elem_of_nil in Hin.
      * right; left. specialize (Hp f mainTid (feedPool s) Hin).
        by rewrite Hwt in Hp.
      * auto.
    + intros k c Hk. specialize (Hr k mainTid (feedPool s)).
      rewrite Hwt in Hr. simpl in Hr. congruence.
  - (* push *)
    intros [= <-]. apply (crawl_inv_frame s); try done; simpl.
    intros Hb _ f' Hf.
    destruct (ci_listed _ _ _ _ _ Hci Hb) with (f := f')
      as [Hin|[[Hh|Hr]|Hin]]; try done.
    + by rewrite Hm.
    + rewrite Hm in Hin. simpl in Hin.
      apply elem_of_cons in Hin as [->|Hin]; [|by left].
      right; left. apply in_pool_push.
    + right; left. left. rewrite held_push. lia.
    + right; left. by right.
    + auto.
  - (* count *)
    intros [= <-]. apply (crawl_inv_frame s); try done; simpl.
    intros Hb _ f' Hf.
    destruct (ci_listed _ _ _ _ _ Hci Hb) with (f := f')
      as [Hin|[Hin|Hin]]; try done; auto.
    + by rewrite Hm.
    + rewrite Hm in Hin. auto.
  - (* signal *)
    intros [= <-]. apply (crawl_inv_frame s); try done; simpl.
    intros Hb _ f' Hf.
    destruct (ci_listed _ _ _ _ _ Hci Hb) with (f := f')
      as [Hin|[Hin|Hin]]; try done; auto.
    + by rewrite Hm.
    + rewrite Hm in Hin. auto.
  - (* woken in wait *)
    destruct (wait_woken mainTid (feedPool s)); [|done].
    pose proof (in_pool_wait_test feedStart) as Hp.
    pose proof (running_wait_test (T:=string * string) (C:=FeedPC)) as Hr.
    destruct (wait_test mainTid (feedPool s)) as [p r] eqn:Hwt.
    intros [= <-]. apply (crawl_inv_frame s); try done; simpl.
    + intros Hb _ f Hf.
      destruct (ci_listed _ _ _ _ _ Hci Hb) with (f := f) as [Hin|[Hin|Hin]];
        try done.
      * by rewrite Hm.
      * rewrite Hm in Hin. by apply elem_of_nil in Hin.
      * right; left. specialize (Hp f mainTid (feedPool s) Hin).
        by rewrite Hwt in Hp.
      * auto.
    + intros k c Hk. specialize (Hr k mainTid (feedPool s)).
      rewrite Hwt in Hr. simpl in Hr. congruence.
  - (* flush *)
    intros [= <-]. apply (crawl_inv_frame s); try done; simpl.
    intros Hb _ f Hf.
    destruct (ci_listed _ _ _ _ _ Hci Hb) with (f := f) as [Hin|[Hin|Hin]];
      try done; auto.
    + by rewrite Hm.
    + rewrite Hm in Hin. by apply elem_of_nil in Hin.
Qed.

Lemma in_pool_goto {T C} `{EqDecision T} (start : T → C) t k c c0
    (p : ThreadPool T C) :
  running k p = Some c0 → c0 ≠ start t →
  in_pool start t p → in_pool start t (thunk_goto k c p).
Proof.
  intros Hr Hne [Hh|[j Hj]].
  - left. by rewrite (held_goto _ _ _ _ _ Hr).
  - right. exists j. rewrite (running_goto _ _ _ _ _ Hr).
    rewrite decide_False; [done|]. intros ->. congruence.
Qed.

Lemma in_pool_return {T C} `{EqDecision T} (start : T → C) t k c0
    (p : ThreadPool T C) :
  running k p = Some c0 → c0 ≠ start t →
  in_pool start t p → in_pool start t (thunk_return k p).
Proof.
  intros Hr Hne [Hh|[j Hj]].
  - left. by rewrite (held_return _ _ _ _ Hr).
  - right. exists j. rewrite (running_return _ _ _ _ Hr).
    rewrite decide_False; [done|]. intros ->. congruence.
Qed.

Lemma running_goto_other {T C} k c c0 j c1 (p : ThreadPool T C) :
  running k p = Some c0 → running j p = Some c1 → j ≠ k →
  running j (thunk_goto k c p) = Some c1.
Proof.
  intros Hr Hj Hne. by rewrite (running_goto _ _ _ _ _ Hr), decide_False.
Qed.

Lemma running_return_other {T C} k c0 j c1 (p : ThreadPool T C) :
  running k p = Some c0 → running j p = Some c1 → j ≠ k →
  running j (thunk_return k p) = Some c1.
Proof.
  intros Hr Hj Hne. by rewrite (running_return _ _ _ _ Hr), decide_False.
Qed.

Lemma fetched_as_snoc u h e : fetched_as u h → fetched_as u (h ++ [e]).
Proof.
  intros [Hf|(a & Ha & Hd)]; [left|right].
  - apply elem_of_app. by left.
  - exists a. split; [done|]. apply elem_of_app. by left.
Qed.

(** A feed thunk makes a step: what the step has to do for the invariant
    to be kept. *)
Lemma crawl_inv_feed_moves s s' h k c :
  crawl_inv s h →
  running k (feedPool s) = Some c →
  built s' = built s → mainThread s' = mainThread s →
  merged s' = merged s →
  (∀ j c1, j ≠ k → running j (feedPool s) = Some c1 →
     running j (feedPool s') = Some c1) →
  (∀ f, held f (feedPool s') = held f (feedPool s)) →
  seenURLs s ⊆ seenURLs s' →
  (∀ u t, c = FClaim u t → u ∈ seenURLs s') →
  (∀ u, u ∈ seenURLs s' →
     u ∈ seenURLs s ∨ running k (feedPool s') = Some (FParse u)) →
  (∀ u arts a, c = FParse u → parseFeed u = Some arts → a ∈ arts →
     ∃ c', running k (feedPool s') = Some c' ∧ a ∈ articlesLeft c') →
  (∀ a, a ∈ articlesLeft c →
     (∃ c', running k (feedPool s') = Some c' ∧ a ∈ articlesLeft c') ∨
     in_pool articleStart a (articlePool s')) →
  (∀ a, in_pool articleStart a (articlePool s) →
     in_pool articleStart a (articlePool s')) →
  (∀ j c1, running j (articlePool s) = Some c1 →
     running j (articlePool s') = Some c1) →
  crawl_inv s'
    (match c with FParse u => h ++ [EFeed u] | _ => h end).
Proof.
  intros [H1 H2 H3 H4] Hr Hb Hm Hmg HrF Hh Hsub Hclaim Hseen Hparse Hleft
    HpA HrA.
  assert (∀ e, e ∈ h →
            e ∈ match c with FParse u => h ++ [EFeed u] | _ => h end)
    as Hmono.
  { intros e He. destruct c; try done. apply elem_of_app. by left. }
  assert (∀ u, fetched_as u h →
            fetched_as u match c with FParse u => h ++ [EFeed u] | _ => h end)
    as Hfa.
  { intros u Hu. destruct c; try done. by apply fetched_as_snoc. }
  split.
  - rewrite Hb, Hm. intros Hb' Hm' f Hf.
    destruct (H1 Hb' Hm' f Hf) as [Hin|[[Hheld|[j Hj]]|Hin]].
    + by left.
    + right; left. left. by rewrite Hh.
    + destruct (decide (j = k)) as [->|Hne].
      * right; right. rewrite Hr in Hj. injection Hj as ->.
        by eapply Hclaim.
      * right; left. right. exists j. by apply HrF.
    + right; right. by apply Hsub.
  - intros u Hu. destruct (Hseen u Hu) as [Hold|Hnew]; [|left; by exists k].
    destruct (H2 u Hold) as [[j Hj]|[(j & a & Hj & Ha)|Hf]].
    + destruct (decide (j = k)) as [->|Hne].
      * right; right. rewrite Hr in Hj. injection Hj as ->.
        left. apply elem_of_app. right. by apply list_elem_of_singleton.
      * left. exists j. by apply HrF.
    + right; left. exists j, a. split; [by apply HrA|done].
    + right; right. by apply Hfa.
  - intros u arts a Hu Hp Ha.
    assert (EFeed u ∈ h ∨ c = FParse u) as [Hold|Hc].
    { destruct c; auto. apply elem_of_app in Hu as [?|Hu]; [by left|].
      apply list_elem_of_singleton in Hu. injection Hu as ->. by right. }
    + destruct (H3 u arts a Hold Hp Ha) as [(j & c1 & Hj & Hc1)|[Hin|Hin]].
      * destruct (decide (j = k)) as [->|Hne].
        -- rewrite Hr in Hj. injection Hj as ->.
           destruct (Hleft a Hc1) as [(c' & Hk' & Hc')|Hin]; [|by auto].
           left. by exists k, c'.
        -- left. exists j, c1. split; [by apply HrF|done].
      * right; left. by apply HpA.
      * right; right. by apply Hsub.
    + destruct (Hparse u arts a Hc Hp Ha) as (c' & Hk' & Hc').
      left. by exists k, c'.
  - intros a toks Ha Hp. rewrite Hmg.
    assert (EDoc a ∈ h) as Hold.
    { destruct c; auto. apply elem_of_app in Ha as [?|Ha]; [done|].
      by apply list_elem_of_singleton in Ha. }
    destruct (H4 a toks Hold Hp) as [[j Hj]|Hin]; [|by right].
    left. exists j. by apply HrA.
Qed.

(** An article thunk makes a step: what the step has to do for the
    invariant to be kept. *)
Lemma crawl_inv_article_moves s s' h k c :
  crawl_inv s h →
  running k (articlePool s) = Some c →
  built s' = built s → mainThread s' = mainThread s →
  feedPool s' = feedPool s →
  (∀ j c1, j ≠ k → running j (articlePool s) = Some c1 →
     running j (articlePool s') = Some c1) →
  (∀ a, held a (articlePool s') = held a (articlePool s)) →
  seenURLs s ⊆ seenURLs s' →
  (∀ a, c = AClaim a → url a ∈ seenURLs s') →
  (∀ u, u ∈ seenURLs s' →
     u ∈ seenURLs s ∨
     ∃ a, running k (articlePool s') = Some (AParse a) ∧ url a = u) →
  (∀ a toks, c = AParse a → parseDocument (url a) = Some toks →
     running k (articlePool s') = Some (AMerge a (sort toks))) →
  (∀ a toks, c = AMerge a toks → (a, toks) ∈ merged s') →
  (∀ x, x ∈ merged s → x ∈ merged s') →
  crawl_inv s'
    (match c with AParse a => h ++ [EDoc a] | _ => h end).
Proof.
  intros [H1 H2 H3 H4] Hr Hb Hm HF HrA Hh Hsub Hclaim Hseen Hparse Hmerge
    Hmg.
  assert (∀ u, fetched_as u h →
            fetched_as u match c with AParse a => h ++ [EDoc a] | _ => h end)
    as Hfa.
  { intros u Hu. destruct c; try done. by apply fetched_as_snoc. }
  split.
  - rewrite Hb, Hm, HF. intros Hb' Hm' f Hf.
    destruct (H1 Hb' Hm' f Hf) as [Hin|[Hin|Hin]]; auto.
  - rewrite HF. intros u Hu.
    destruct (Hseen u Hu) as [Hold|(a & Hk & Ha)];
      [|right; left; by exists k, a].
    destruct (H2 u Hold) as [[j Hj]|[(j & a & Hj & Ha)|Hf]].
    + left. by exists j.
    + destruct (decide (j = k)) as [->|Hne].
      * right; right. rewrite Hr in Hj. injection Hj as ->.
        right. exists a. split; [done|].
        apply elem_of_app. right. by apply list_elem_of_singleton.
      * right; left. exists j, a. split; [by apply HrA|done].
    + right; right. by apply Hfa.
  - rewrite HF. intros u arts a Hu Hp Ha.
    assert (EFeed u ∈ h) as Hold.
    { destruct c; auto. apply elem_of_app in Hu as [?|Hu]; [done|].
      by apply list_elem_of_singleton in Hu. }
    destruct (H3 u arts a Hold Hp Ha) as [Hw|[[Hheld|[j Hj]]|Hin]].
    + by left.
    + right; left. left. by rewrite Hh.
    + destruct (decide (j = k)) as [->|Hne].
      * right; right. rewrite Hr in Hj. injection Hj as ->.
        by apply Hclaim.
      * right; left. right. exists j. by apply HrA.
    + right; right. by apply Hsub.
  - intros a toks Ha Hp.
    assert (EDoc a ∈ h ∨ c = AParse a) as [Hold|Hc].
    { destruct c; auto. apply elem_of_app in Ha as [?|Ha]; [by left|].
      apply list_elem_of_singleton in Ha. injection Ha as ->. by right. }
    + destruct (H4 a toks Hold Hp) as [[j Hj]|Hin]; [|right; by apply Hmg].
      destruct (decide (j = k)) as [->|Hne].
      * right. rewrite Hr in Hj. injection Hj as ->. by eapply Hmerge.
      * left. exists j. by apply HrA.
    + left. exists k. by eapply Hparse.
Qed.

Lemma in_pool_push_other {T C} `{EqDecision T} (start : T → C) t thunk
    (p : ThreadPool T C) :
  in_pool start t p → in_pool start t (schedule_push thunk p).
Proof.
  intros [Hh|Hr]; [left|by right]. rewrite held_push. lia.
Qed.

Lemma crawl_inv_feed_thunk k s s' h :
  crawl_inv s h →
  Aggregator.feed_step parseFeed k s = Some s' →
  crawl_inv s' (observe (LFeedThunk k) s h).
Proof.
  unfold Aggregator.feed_step, observe. intros Hinv.
  destruct (running k (feedPool s)) as [c|] eqn:Hr; [|done].
  intros Hstep.
  assert (∀ j c1, j ≠ k → running j (feedPool s) = Some c1 →
            running j (thunk_return k (feedPool s)) = Some c1) as Hret.
  { intros j c1 Hne Hj. by eapply running_return_other. }
  assert (∀ c' j c1, j ≠ k → running j (feedPool s) = Some c1 →
            running j (thunk_goto k c' (feedPool s)) = Some c1) as Hgo.
  { intros c' j c1 Hne Hj. by eapply running_goto_other. }
  assert (∀ f, held f (thunk_return k (feedPool s)) = held f (feedPool s))
    as Hhr.
  { intros f. by eapply held_return. }
  assert (∀ c' f, held f (thunk_goto k c' (feedPool s)) = held f (feedPool s))
    as Hhg.
  { intros c' f. by eapply held_goto. }
  assert (∀ c', running k (thunk_goto k c' (feedPool s)) = Some c') as Hk.
  { intros c'. by rewrite (running_goto _ _ _ _ _ Hr), decide_True. }
  destruct c as [u t|u|[|a l]|l|l|].
  - unfold claimURL in Hstep. case_decide as Hu; injection Hstep as <-.
    + eapply (crawl_inv_feed_moves s _ h k _ Hinv Hr); simpl; try done;
      try apply Hgo; try apply Hhg.
      * by intros ? ? [= <- <-].
      * by left.
      * by intros ? []%elem_of_nil.
    + eapply (crawl_inv_feed_moves s _ h k _ Hinv Hr); simpl; try done;
      try apply Hgo; try apply Hhg.
      * apply union_subseteq_r.
      * intros ? ? [= <- <-]. set_solver.
      * intros u0 [->%elem_of_singleton|?]%elem_of_union; [by right|by left].
      * by intros ? []%elem_of_nil.
  - destruct (parseFeed u) as [[|a l]|] eqn:Hp; injection Hstep as <-.
    + eapply (crawl_inv_feed_moves s _ h k _ Hinv Hr); simpl; try done;
      try apply Hgo; try apply Hhg.
      * by left.
      * intros ? ? ? [= <-]. rewrite Hp. by intros [= <-] []%elem_of_nil.
      * by intros ? []%elem_of_nil.
    + eapply (crawl_inv_feed_moves s _ h k _ Hinv Hr); simpl; try done;
      try apply Hgo; try apply Hhg.
      * by left.
      * intros ? ? ? [= <-]. rewrite Hp. intros [= <-] Ha.
        by exists (FLoop (a :: l)).
      * by intros ? []%elem_of_nil.
    + eapply (crawl_inv_feed_moves s _ h k _ Hinv Hr); simpl; try done;
      try apply Hgo; try apply Hhg.
      * by left.
      * intros ? ? ? [= <-]. by rewrite Hp.
      * by intros ? []%elem_of_nil.
  - destruct (wait_test k (articlePool s)) as [p returned] eqn:Hw.
    assert (p = (wait_test k (articlePool s)).1) as -> by by rewrite Hw.
    injection Hstep as <-.
    destruct returned;
      eapply (crawl_inv_feed_moves s _ h k _ Hinv Hr); simpl; try done;
      try apply Hgo; try apply Hhg;
      first [ by left | by intros ? []%elem_of_nil
            | by intros; apply in_pool_wait_test
            | by intros; rewrite running_wait_test ].
  - injection Hstep as <-.
    eapply (crawl_inv_feed_moves s _ h k _ Hinv Hr); simpl; try done;
      try apply Hgo; try apply Hhg.
    + by left.
    + intros a0 [->|Ha]%elem_of_cons.
      * right. apply in_pool_push.
      * left. by exists (FCount l).
    + intros. by apply in_pool_push_other.
  - injection Hstep as <-.
    eapply (crawl_inv_feed_moves s _ h k _ Hinv Hr); simpl; try done;
      try apply Hgo; try apply Hhg.
    + by left.
    + intros a0 Ha. left. by exists (FSignal l).
  - injection Hstep as <-.
    eapply (crawl_inv_feed_moves s _ h k _ Hinv Hr); simpl; try done;
      try apply Hgo; try apply Hhg.
    + by left.
    + intros a0 Ha. left. by exists (FLoop l).
  - destruct (wait_woken k (articlePool s)); [|done].
    destruct (wait_test k (articlePool s)) as [p returned] eqn:Hw.
    assert (p = (wait_test k (articlePool s)).1) as -> by by rewrite Hw.
    injection Hstep as <-.
    destruct returned;
      eapply (crawl_inv_feed_moves s _ h k _ Hinv Hr); simpl; try done;
      try apply Hgo; try apply Hhg;
      first [ by left | by intros ? []%elem_of_nil
            | by intros; apply in_pool_wait_test
            | by intros; rewrite running_wait_test ].
Qed.

Lemma crawl_inv_article_thunk k s s' h :
  crawl_inv s h →
  Aggregator.article_step getURLServer parseDocument k s = Some s' →
  crawl_inv s' (observe (LArticleThunk k) s h).
Proof.
  unfold Aggregator.article_step, observe. intros Hinv.
  destruct (running k (articlePool s)) as [c|] eqn:Hr; [|done].
  intros Hstep.
  assert (∀ j c1, j ≠ k → running j (articlePool s) = Some c1 →
            running j (thunk_return k (articlePool s)) = Some c1) as Hret.
  { intros j c1 Hne Hj. by eapply running_return_other. }
  assert (∀ c' j c1, j ≠ k → running j (articlePool s) = Some c1 →
            running j (thunk_goto k c' (articlePool s)) = Some c1) as Hgo.
  { intros c' j c1 Hne Hj. by eapply running_goto_other. }
  assert (∀ f, held f (thunk_return k (articlePool s))
               = held f (articlePool s)) as Hhr.
  { intros f. by eapply held_return. }
  assert (∀ c' f, held f (thunk_goto k c' (articlePool s))
                  = held f (articlePool s)) as Hhg.
  { intros c' f. by eapply held_goto. }
  assert (∀ c', running k (thunk_goto k c' (articlePool s)) = Some c') as Hk.
  { intros c'. by rewrite (running_goto _ _ _ _ _ Hr), decide_True. }
  destruct c as [a|a|a toks].
  - unfold claimURL in Hstep. case_decide as Hu; injection Hstep as <-.
    + eapply (crawl_inv_article_moves s _ h k _ Hinv Hr); simpl; try done;
      try apply Hgo; try apply Hhg.
      * by intros ? [= <-].
      * by left.
    + eapply (crawl_inv_article_moves s _ h k _ Hinv Hr); simpl; try done;
      try apply Hgo; try apply Hhg.
      * apply union_subseteq_r.
      * intros ? [= <-]. set_solver.
      * intros u0 [->%elem_of_singleton|?]%elem_of_union; [|by left].
        right. by exists a.
  - destruct (parseDocument (url a)) as [toks|] eqn:Hp; injection Hstep as <-.
    + eapply (crawl_inv_article_moves s _ h k _ Hinv Hr); simpl; try done;
      try apply Hgo; try apply Hhg.
      * by left.
      * intros ? ? [= <-]. rewrite Hp. by intros [= <-].
    + eapply (crawl_inv_article_moves s _ h k _ Hinv Hr); simpl; try done;
      try apply Hgo; try apply Hhg.
      * by left.
      * intros ? ? [= <-]. by rewrite Hp.
  - injection Hstep as <-.
    eapply (crawl_inv_article_moves s _ h k _ Hinv Hr); simpl; try done;
      try apply Hgo; try apply Hhg.
    + by left.
    + intros ? ? [= <- <-]. apply elem_of_app. right.
      by apply list_elem_of_singleton.
    + intros x Hx. apply elem_of_app. by left.
Qed.

Lemma step_crawl_inv l s s' h :
  agg_inv s → crawl_inv s h → step l s = Some s' →
  crawl_inv s' (observe l s h).
Proof.
  intros Hagg Hinv. pose proof (ai_feed _ _ Hagg) as HF.
  pose proof (ai_article _ _ Hagg) as HA.
  destruct l as [| | |k|k|tid| |k|k|tid]; simpl.
  - destruct (mainThread s) eqn:Hm; try done.
    destruct (built s) eqn:Hb; intros [= <-]; [done|].
    by apply (crawl_inv_frame s).
  - by apply crawl_inv_main.
  - destruct (dispatcher (feedPool s)) as [p|] eqn:Hd; [|done].
    intros [= <-]. apply crawl_inv_feed_pool; [done| |].
    + intros f. by eapply in_pool_dispatcher.
    + intros j c. by rewrite (proj2 (dispatcher_content _ _ _ _ HF Hd)).
  - destruct (worker feedStart k (feedPool s)) as [p|] eqn:Hw; [|done].
    intros [= <-]. apply crawl_inv_feed_pool; [done| |].
    + intros f. by eapply in_pool_worker.
    + intros j c. by eapply running_worker.
  - apply crawl_inv_feed_thunk; done.
  - intros [= <-]. by apply crawl_inv_feed_pool.
  - destruct (dispatcher (articlePool s)) as [p|] eqn:Hd; [|done].
    intros [= <-]. apply crawl_inv_article_pool; [done| |].
    + intros f. by eapply in_pool_dispatcher.
    + intros j c. by rewrite (proj2 (dispatcher_content _ _ _ _ HA Hd)).
  - destruct (worker articleStart k (articlePool s)) as [p|] eqn:Hw; [|done].
    intros [= <-]. apply crawl_inv_article_pool; [done| |].
    + intros f. by eapply in_pool_worker.
    + intros j c. by eapply running_worker.
  - apply crawl_inv_article_thunk; done.
  - intros [= <-]. by apply crawl_inv_article_pool.
Qed.

Lemma exec_log_exec tr : ∀ s h s' h',
  exec_log tr s h = Some (s', h') →
  Aggregator.exec getURLServer rssFeedListURI parseFeedList parseFeed
    parseDocument tr s = Some s'.
Proof.
  induction tr as [|l tr IH]; intros s h s' h'; simpl.
  - by intros [= <- _].
  - destruct (step l s) as [s1|]; [|done]. simpl. apply IH.
Qed.

Lemma exec_log_crawl_inv tr : ∀ s h s' h',
  agg_inv s → crawl_inv s h →
  exec_log tr s h = Some (s', h') → crawl_inv s' h'.
Proof.
  induction tr as [|l tr IH]; intros s h s' h' Hagg Hinv; simpl.
  - by intros [= <- <-].
  - destruct (step l s) as [s1|] eqn:Hstep; [|done]. simpl.
    apply IH; [by eapply step_agg_inv|by eapply step_crawl_inv].
Qed.

End CrawlLogFacts.

(** * The claims *)

(** ** The merge of duplicates (news-aggregator.cc, lines 198-216) *)

(** Let at least one of the updates [ups] fall under the key [K].  Whatever
    the order [ups'] in which the updates are performed, the entry stored
    under [K] is the same, and it is the merge of the articles under [K]. *)
Lemma fold_merge_order (getURLServer : string → string)
    (ups ups' : list (Article * list string)) (K : string * string) :
  ups' ≡ₚ ups →
  dupsOf getURLServer K ups ≠ [] →
  ∃ e,
    foldl (articleUpdate getURLServer) ∅ ups' !! K = Some e ∧
    foldl (articleUpdate getURLServer) ∅ ups !! K = Some e ∧
    entry_ok K (dupsOf getURLServer K ups) e.
Proof.
  intros Hperm Hne.
  assert (dupsOf getURLServer K ups' ≡ₚ dupsOf getURLServer K ups) as Hdp.
  { unfold dupsOf. by rewrite Hperm. }
  pose proof (fold_entry getURLServer K ups) as H1.
  pose proof (fold_entry getURLServer K ups') as H2.
  destruct (dupsOf getURLServer K ups) as [|d ds] eqn:Hd; [done|].
  destruct (dupsOf getURLServer K ups') as [|d' ds'] eqn:Hd'.
  { by apply Permutation_nil_cons in Hdp. }
  destruct H1 as (e & Hlk & Hok). destruct H2 as (e' & Hlk' & Hok').
  apply (entry_ok_perm _ _ _ _ Hdp) in Hok'.
  rewrite (entry_ok_unique _ _ _ _ Hok' Hok) in Hlk'.
  by exists e.
Qed.

(** ** The crawl (news-aggregator.cc) *)

Section AggregatorClaims.

Variable getURLServer : string → string.
Variable rssFeedListURI : string.
Variable parseFeedList : string → option (gmap string string).
Variable parseFeed : string → option (list Article).
Variable parseDocument : string → option (list string).
Import Aggregator.
Local Abbreviation step :=
  (Aggregator.step getURLServer rssFeedListURI parseFeedList parseFeed
     parseDocument).
Local Abbreviation exec :=
  (Aggregator.exec getURLServer rssFeedListURI parseFeedList parseFeed
     parseDocument).

(** C1.  Take any run, and let [merged s] be the articles whose tasks have
    performed the update of the intermediate index so far, in the order of
    their updates and each with the sorted tokens of its document; when the
    caller flushes, these are all of them.  If at least one of them
    falls under the key [K], the entry stored under [K] is the one that
    every order [ups'] of the same updates produces: its title is that of
    the key, its URL is the smallest of the URLs of the articles under [K],
    and its token list is sorted and is the intersection of their token
    lists: a token is in it exactly when it is in all of them, and it
    occurs as often as in the list where it is rarest
    ([std::set_intersection] counts repeated tokens). *)
Theorem merge_order_independent (tr : list label) (s : state)
    (ups' : list (Article * list string)) (K : string * string) :
  exec tr init = Some s →
  ups' ≡ₚ merged s →
  dupsOf getURLServer K (merged s) ≠ [] →
  ∃ a toks,
    intermediateIndex s !! K = Some (a, toks) ∧
    foldl (articleUpdate getURLServer) ∅ ups' !! K = Some (a, toks) ∧
    title a = K.1 ∧
    (∃ p, p ∈ dupsOf getURLServer K (merged s) ∧ url a = url p.1) ∧
    (∀ p, p ∈ dupsOf getURLServer K (merged s) →
       StrOrd.le (url a) (url p.1)) ∧
    Sorted StrOrd.le toks ∧
    (∀ x, x ∈ toks ↔
       ∀ p, p ∈ dupsOf getURLServer K (merged s) → x ∈ p.2) ∧
    (∀ x, (∀ p, p ∈ dupsOf getURLServer K (merged s) →
             occ x toks ≤ occ x p.2) ∧
          (∃ p, p ∈ dupsOf getURLServer K (merged s) ∧
             occ x toks = occ x p.2)).
Proof.
  intros Hex Hperm Hne.
  pose proof (reachable_agg_inv _ _ _ _ _ _ _ Hex) as Hinv.
  destruct (fold_merge_order getURLServer _ _ K Hperm Hne)
    as ([a toks] & Hlk' & Hlk & Hok).
  rewrite <- (ai_merged _ _ Hinv) in Hlk.
  exists a, toks.
  destruct Hok as (Ht & Hexi & Hmin & Hs & Hocc). simpl in *.
  split_and!; try done.
  - by apply StronglySorted_Sorted.
  - intros x. split.
    + intros Hx%occ_pos_iff p Hp. apply occ_pos_iff.
      destruct (Hocc x) as [Hle _]. specialize (Hle p Hp). lia.
    + intros Hall. apply occ_pos_iff.
      destruct (Hocc x) as [_ (p & Hp & ->)]. apply occ_pos_iff. by apply Hall.
Qed.

(** C2.  In every run, when the caller is about to iterate over the
    intermediate index (line 135) it has returned from [feedPool.wait()],
    and every feed thunk had returned from its [articlePool.wait()] before:
    in neither pool is a thunk queued, held by the dispatcher, handed to a
    worker or running, both counters are zero, and no feed thunk exists that
    could still submit an article thunk. *)
Theorem flush_after_drain (tr : list label) (s : state) :
  exec tr init = Some s →
  mainThread s = MFlush →
  live (feedPool s) = 0 ∧ live (articlePool s) = 0 ∧
  pendingThunks (feedPool s) = 0%Z ∧ pendingThunks (articlePool s) = 0%Z ∧
  thunkQueue (feedPool s) = [] ∧ thunkQueue (articlePool s) = [] ∧
  (∀ workerID, running workerID (feedPool s) = None) ∧
  (∀ workerID, running workerID (articlePool s) = None) ∧
  (∀ workerID, Aggregator.feed_step parseFeed workerID s = None).
Proof.
  intros Hex Hm.
  pose proof (reachable_agg_inv _ _ _ _ _ _ _ Hex) as Hinv.
  assert (drained s) as Hd.
  { split; [|by right]. apply (ai_built _ _ Hinv). by rewrite Hm. }
  destruct (drained_live _ _ Hinv Hd) as [HlF HlA].
  pose proof (inv_live _ _ _ (ai_feed _ _ Hinv)) as H1.
  pose proof (inv_live _ _ _ (ai_article _ _ Hinv)) as H2.
  pose proof (inv_signalled _ _ _ (ai_article _ _ Hinv)) as H3.
  rewrite Hm in H1. simpl in H1.
  split_and!; try done; try lia.
  - apply length_zero_iff_nil. unfold live in HlF. lia.
  - apply length_zero_iff_nil. unfold live in HlA. lia.
  - intros workerID. by apply live_zero_not_running.
  - intros workerID. by apply live_zero_not_running.
  - intros workerID. unfold Aggregator.feed_step.
    by rewrite (live_zero_not_running _ workerID HlF).
Qed.

(** C4.  In every run and for every URL, whether of a feed or of an
    article, the test-and-insert into [seenURLs] has succeeded at most once
    and the feed or document behind the URL has been fetched and parsed at
    most once, and only after the URL was claimed; a URL is in [seenURLs]
    exactly when it was claimed, and a second test-and-insert of it fails. *)
Theorem url_claimed_once (tr : list label) (s : state) :
  exec tr init = Some s →
  NoDup (claimed s) ∧ NoDup (fetched s) ∧
  (∀ u, u ∈ fetched s → u ∈ claimed s) ∧
  (∀ u, u ∈ claimed s ↔ u ∈ seenURLs s) ∧
  (∀ u, u ∈ seenURLs s → claimURL u s = None).
Proof.
  intros Hex.
  pose proof (reachable_agg_inv _ _ _ _ _ _ _ Hex) as Hinv.
  pose proof (ai_claimed _ _ Hinv) as Hc.
  pose proof (ai_fetched _ _ Hinv) as Hf.
  assert (∀ u, occ u (claimed s) ≤ 1) as Hc1.
  { intros u. rewrite Hc. destruct (bool_decide _); simpl; lia. }
  split_and!.
  - apply NoDup_ListNoDup, (NoDup_count_occ String.eq_dec). apply Hc1.
  - apply NoDup_ListNoDup, (NoDup_count_occ String.eq_dec). intros u.
    specialize (Hf u). specialize (Hc1 u). unfold occ in *. lia.
  - intros u Hu%occ_pos_iff. apply occ_pos_iff. specialize (Hf u). lia.
  - intros u. rewrite <- occ_pos_iff, Hc. case_bool_decide; simpl.
    + split; [done|lia].
    + split; [lia|done].
  - intros u Hu. unfold claimURL. by rewrite decide_True.
Qed.

(** C6.  When parsing the feed list fails, or yields no feed, a call of
    [buildIndex] returns after its first step inside [processAllFeeds], and
    throughout every run the index stays empty, both pools stay as they
    were constructed (nothing was ever scheduled), and nothing is claimed,
    fetched or merged. *)
Theorem no_feeds_empty_index :
  no_feeds rssFeedListURI parseFeedList →
  (∃ s, exec [LBuildIndex; LMain] init = Some s ∧ mainThread s = MIdle) ∧
  ∀ tr s, exec tr init = Some s →
    index s = [] ∧
    feedPool s = ThreadPool_new kNumFeedWorkers ∧
    articlePool s = ThreadPool_new kNumArticleWorkers ∧
    seenURLs s = ∅ ∧ intermediateIndex s = ∅ ∧
    claimed s = [] ∧ fetched s = [] ∧ merged s = [].
Proof.
  intros Hno. split.
  - simpl. unfold Aggregator.main_step. simpl.
    destruct Hno as [-> | ->]; [|rewrite decide_True by done]; simpl; eauto.
  - intros tr s Hex.
    destruct (exec_aborted getURLServer rssFeedListURI parseFeedList
                parseFeed parseDocument tr init s Hno) as [Hs _];
      [by left|done|].
    by destruct Hs as [->|[->| ->]].
Qed.

(** C8.  Once a call of [buildIndex] has returned, so that [built] is set
    and the caller is outside the call, whether that call crawled and
    flushed or gave up on the feed list, every later call returns at once:
    whatever happens next, further calls included, the caller never leaves
    [buildIndex]'s first line again, nothing more is claimed or fetched (no
    second crawl) and the index, the seen URLs and the intermediate index
    stay as the first call left them (no second flush). *)
Theorem second_buildIndex_noop (tr1 tr2 : list label) (s1 s2 : state) :
  exec tr1 init = Some s1 →
  built s1 = true →
  mainThread s1 = MIdle →
  exec tr2 s1 = Some s2 →
  step LBuildIndex s2 = Some s2 ∧
  mainThread s2 = MIdle ∧
  index s2 = index s1 ∧
  seenURLs s2 = seenURLs s1 ∧
  intermediateIndex s2 = intermediateIndex s1 ∧
  claimed s2 = claimed s1 ∧
  fetched s2 = fetched s1 ∧
  merged s2 = merged s1.
Proof.
  intros Hex1 Hb1 Hm1 Hex2.
  pose proof (reachable_agg_inv _ _ _ _ _ _ _ Hex1) as Hinv1.
  assert (drained s1) as Hd1 by (split; [done|by left]).
  destruct (exec_drained _ _ _ _ _ _ _ _ Hinv1 Hd1 Hex2) as [[Hb2 _] Hres].
  destruct (Hres Hm1) as [Hm2 Heq]. unfold results in Heq.
  simplify_eq. split_and!; try done.
  simpl. by rewrite Hm2, Hb2.
Qed.

(** C9.  In every run, every entry of the intermediate index agrees with
    its key: the title of the stored article is the title of the key, the
    server of the stored URL is the server of the key, and the stored token
    list is sorted in ascending order. *)
Theorem intermediate_index_invariant (tr : list label) (s : state)
    (K : string * string) (a : Article) (toks : list string) :
  exec tr init = Some s →
  intermediateIndex s !! K = Some (a, toks) →
  title a = K.1 ∧ getURLServer (url a) = K.2 ∧ StronglySorted StrOrd.le toks.
Proof.
  intros Hex Hlk.
  pose proof (reachable_agg_inv _ _ _ _ _ _ _ Hex) as Hinv.
  by apply (ai_index _ _ Hinv).
Qed.

(** C10.  [buildIndex] sets [built] before it processes anything.  So when
    the first call finds no feed list, or an empty one, it returns with
    [built] set, and from then on nothing changes any more: every later call
    returns at once and leaves the whole aggregator, with its index, seen
    URLs and intermediate index, as it is.  The failed run is not retried. *)
Theorem failed_run_not_retried :
  no_feeds rssFeedListURI parseFeedList →
  ∃ s1 s2,
    step LBuildIndex init = Some s1 ∧
    built s1 = true ∧ mainThread s1 = MParse ∧
    step LMain s1 = Some s2 ∧
    built s2 = true ∧ mainThread s2 = MIdle ∧
    step LBuildIndex s2 = Some s2 ∧
    ∀ tr s, exec tr s2 = Some s → s = s2.
Proof.
  intros Hno. exists (pristine true MParse), (pristine true MIdle).
  split_and!; try done.
  - simpl. unfold Aggregator.main_step. simpl.
    by destruct Hno as [-> | ->]; [|rewrite decide_True by done].
  - intros tr s Hex.
    destruct (exec_aborted getURLServer rssFeedListURI parseFeedList
                parseFeed parseDocument tr (pristine true MIdle) s Hno)
      as [_ Heq]; [by right; right|done|].
    by apply Heq.
Qed.

End AggregatorClaims.

(** ** The thread pool (thread-pool.cc) *)

Section PoolClaims.

Context {T : Type}.
Import Clients.
Local Abbreviation state := (Clients.state T).
Local Abbreviation label := (Clients.label T).

(** What does hold of [schedule] and [wait] in every run of a pool with any
    number of clients: the counter is never negative and falls short of the
    thunks that are queued, dispatched or with a worker by exactly the
    number of clients between their push and their increment; [wait]
    returns only on reading a zero counter, and leaves the pool as it is;
    and no thread is blocked on the condition variable while the counter is
    zero, so no wake-up is missed. *)
Lemma wait_returns_on_zero (numThreads numClients : nat)
    (tr : list label) (s : state) :
  exec tr (init numThreads numClients) = Some s →
  (0 ≤ pendingThunks (pool s))%Z ∧
  (pendingThunks (pool s) + Z.of_nat (count_pc CPushed (clients s))
   = Z.of_nat (live (pool s)))%Z ∧
  (∀ c, c ∈ pendingThunksCondVar (pool s) → pendingThunks (pool s) ≠ 0%Z) ∧
  (∀ c s', wait_returns c s s' →
     pendingThunks (pool s) = 0%Z ∧ pool s' = pool s).
Proof.
  intros Hex.
  pose proof (exec_inv _ _ _ (init_inv numThreads numClients) Hex) as Hinv.
  destruct Hinv as [He Hk Hn Hlog Hw Hp Ha Hl Hs Hcv].
  split_and!.
  - lia.
  - done.
  - intros c Hc Hz. rewrite (Hcv Hz) in Hc. by apply not_elem_of_empty in Hc.
  - intros c s' [Hstep Hidle].
    assert (client_wait c s = s') as <-.
    { destruct Hstep as [Hstep|[Hb Hstep]]; unfold step in Hstep;
        destruct (terminated s); try done.
      - destruct (clients s !! c) as [[]|]; by simplify_eq.
      - rewrite Hb in Hstep. destruct (wait_woken c (pool s)); by simplify_eq. }
    unfold client_wait, wait_test in *.
    destruct (decide (pendingThunks (pool s) = 0%Z)) as [Hz|Hz]; [done|].
    simpl in Hidle.
    destruct (decide (c < length (clients s))).
    + by rewrite list_lookup_insert_eq in Hidle.
    + rewrite list_insert_ge in Hidle by lia.
      rewrite lookup_ge_None_2 in Hidle by lia. done.
Qed.

(** C5.  In every run of a pool of [numThreads] workers, whatever its
    clients submit, [nextSpawnID] is at most [numThreads], worker threads
    were created at the indices [0], [1], ... below [nextSpawnID], each
    once, so at most [numThreads] of them, and a worker has a thread only
    below [nextSpawnID]. *)
Theorem spawn_bounded (numThreads numClients : nat)
    (tr : list label) (s : state) :
  exec tr (init numThreads numClients) = Some s →
  nextSpawnID (pool s) ≤ numThreads ∧
  spawnLog (pool s) = seq 0 (nextSpawnID (pool s)) ∧
  length (spawnLog (pool s)) ≤ numThreads ∧
  NoDup (spawnLog (pool s)) ∧
  (∀ i, i ∈ spawnLog (pool s) → i < numThreads) ∧
  (∀ i w, workerVector (pool s) !! i = Some w →
     is_Some (workerThread w) → i < nextSpawnID (pool s)).
Proof.
  intros Hex.
  pose proof (exec_inv _ _ _ (init_inv numThreads numClients) Hex) as Hinv.
  pose proof (exec_length _ _ _ (init_inv numThreads numClients) Hex) as Hlen.
  simpl in Hlen. rewrite length_replicate in Hlen.
  destruct Hinv as [He Hk Hn Hlog Hw Hp Ha Hl Hs Hcv].
  rewrite Hlog. split_and!.
  - lia.
  - done.
  - rewrite length_seq. lia.
  - apply NoDup_seq.
  - intros i Hi%elem_of_seq. lia.
  - intros i w Hi Hsome. specialize (Hw i w Hi).
    apply (worker_ok_spawned _ _ _ Hw) in Hsome.
    by apply bool_decide_eq_true in Hsome.
Qed.

(** C7, as the code has it.  [worker] calls the thunk outside any handler.
    When the thunk of a worker throws, the exception leaves the thread
    function and the process is terminated: the pool is left as it was at
    the call, with the counter not decremented, the worker still in use and
    no permit given back, and no thread makes a step any more.  When the
    thunk returns, the next three steps of the worker can always be made;
    they decrement the counter, mark the worker free and signal
    [workerIsAvailable], in this order. *)
Theorem thunk_end_bookkeeping (numThreads numClients : nat)
    (tr : list label) (s : state) (workerID : nat) :
  exec tr (init numThreads numClients) = Some s →
  terminated s = false →
  is_Some (running workerID (pool s)) →
  (∃ s', step (LThunk workerID Throws) s = Some s' ∧
         pool s' = pool s ∧ ∀ l, step l s' = None) ∧
  (∃ s1 s2 s3 s4,
     step (LThunk workerID Returns) s = Some s1 ∧
     step (LWorker workerID) s1 = Some s2 ∧
     step (LWorker workerID) s2 = Some s3 ∧
     step (LWorker workerID) s3 = Some s4 ∧
     pendingThunks (pool s2) = (pendingThunks (pool s) - 1)%Z ∧
     workerInUse <$> workerVector (pool s3) !! workerID = Some false ∧
     workerIsAvailable (pool s4) = S (workerIsAvailable (pool s))).
Proof.
  intros Hex Hterm [t Hr].
  pose proof (exec_inv _ _ _ (init_inv numThreads numClients) Hex) as Hinv.
  pose proof (inv_lock _ _ _ Hinv) as Hk.
  pose proof Hr as (w & Hw & Hth)%running_Some.
  pose proof (lookup_lt_Some _ _ _ Hw) as Hlt.
  split.
  - eexists. unfold step. rewrite Hterm, Hr. split_and!; try done.
  - destruct (worker_at_WDecr id (thunk_return workerID (pool s)) workerID
                (set_workerThread (Some WDecr) w))
      as (p2 & Hs2 & Hp2 & Hv2 & Hk2 & Ha2).
    { simpl. by rewrite list_lookup_alter_eq, Hw. }
    { done. }
    destruct (worker_at_WFree id p2 workerID
                (set_workerThread (Some WFree)
                   (set_workerThread (Some WDecr) w)))
      as (p3 & Hs3 & Hp3 & Hv3 & Ha3).
    { rewrite Hv2. simpl.
      by rewrite list_lookup_insert_eq by (by rewrite length_alter). }
    { done. }
    { by rewrite Hk2. }
    destruct (worker_at_WSignal id p3 workerID
                (set_workerThread (Some WSignal)
                   (set_workerInUse false
                      (set_workerThread (Some WFree)
                         (set_workerThread (Some WDecr) w)))))
      as (p4 & Hs4 & Hp4 & Ha4).
    { rewrite Hv3, Hv2. simpl.
      by rewrite list_lookup_insert_eq
        by (by rewrite length_insert, length_alter). }
    { done. }
    exists (mkState (thunk_return workerID (pool s)) (clients s) false),
      (mkState p2 (clients s) false), (mkState p3 (clients s) false),
      (mkState p4 (clients s) false).
    unfold step. rewrite Hterm, Hr. simpl. rewrite Hs2, Hs3, Hs4. simpl.
    split_and!; try done.
    + rewrite Hv3, Hv2. simpl.
      by rewrite list_lookup_insert_eq
        by (by rewrite length_insert, length_alter).
    + by rewrite Ha4, Ha3, Ha2.
Qed.

End PoolClaims.

(** ** The claims on concrete runs *)

Section Witnesses.

Import Clients.

(** C3.  [schedule] does not enqueue and count in one step.  In a pool with
    one worker and two clients: (1) once client [0] has pushed its thunk and
    not yet counted it, a call of [wait] by client [1] reads a zero counter
    and returns while the thunk is in the queue; (2) after [early_return],
    client [0] is back from [schedule], its thunk ["tA"] is still in the
    queue and has not run, the counter is zero, and the call of [wait] by
    client [0] returns at once. *)
Theorem wait_returns_early :
  (∃ s s' : Clients.state string,
     exec [LSchedule 0 "t"] (init 1 2) = Some s ∧
     clients s !! 0 = Some CPushed ∧
     thunkQueue (pool s) = ["t"] ∧
     pendingThunks (pool s) = 0%Z ∧
     step (LWait 1) s = Some s' ∧
     clients s' !! 1 = Some CIdle) ∧
  (∃ s s' : Clients.state string,
     exec early_return (init 1 2) = Some s ∧
     clients s !! 0 = Some CIdle ∧
     thunkQueue (pool s) = ["tA"] ∧
     workerThunk <$> workerVector (pool s) !! 0 = Some (Some "tB") ∧
     pendingThunks (pool s) = 0%Z ∧
     step (LWait 0) s = Some s' ∧
     clients s' !! 0 = Some CIdle ∧
     thunkQueue (pool s') = ["tA"]).
Proof.
  split; do 2 eexists; split_and!; vm_compute; reflexivity.
Qed.

Lemma spawn_bounded_witness :
  ∃ s : Clients.state unit,
    exec one_dispatch (init 1 1) = Some s ∧
    nextSpawnID (pool s) = 1 ∧
    nextSpawnID (pool s) ≤ 1 ∧
    spawnLog (pool s) = seq 0 (nextSpawnID (pool s)) ∧
    length (spawnLog (pool s)) ≤ 1 ∧
    NoDup (spawnLog (pool s)) ∧
    (∀ i, i ∈ spawnLog (pool s) → i < 1) ∧
    (∀ i w, workerVector (pool s) !! i = Some w →
       is_Some (workerThread w) → i < nextSpawnID (pool s)).
Proof.
  eexists. split; [vm_compute; reflexivity|].
  split; [vm_compute; reflexivity|].
  apply (spawn_bounded 1 1 one_dispatch). vm_compute. reflexivity.
Defined.

(** The thunk of the only worker throws: the counter stays at one, the
    worker stays in use, the permit is not given back, and nothing moves any
    more. *)
Lemma throwing_thunk_skips_bookkeeping :
  ∃ s : Clients.state unit,
    exec (one_dispatch ++ [LThunk 0 Throws]) (init 1 1) = Some s ∧
    pendingThunks (pool s) = 1%Z ∧
    workerInUse <$> workerVector (pool s) !! 0 = Some true ∧
    workerIsAvailable (pool s) = 0 ∧
    ∀ l, step l s = None.
Proof.
  eexists. split_and!; vm_compute; reflexivity.
Qed.

Lemma thunk_end_bookkeeping_witness :
  ∃ s : Clients.state unit,
    exec one_dispatch (init 1 1) = Some s ∧
    (∃ s', step (LThunk 0 Throws) s = Some s' ∧
           pool s' = pool s ∧ ∀ l, step l s' = None) ∧
    (∃ s1 s2 s3 s4,
       step (LThunk 0 Returns) s = Some s1 ∧
       step (LWorker 0) s1 = Some s2 ∧
       step (LWorker 0) s2 = Some s3 ∧
       step (LWorker 0) s3 = Some s4 ∧
       pendingThunks (pool s2) = (pendingThunks (pool s) - 1)%Z ∧
       workerInUse <$> workerVector (pool s3) !! 0 = Some false ∧
       workerIsAvailable (pool s4) = S (workerIsAvailable (pool s))).
Proof.
  eexists. split; [vm_compute; reflexivity|].
  apply (thunk_end_bookkeeping 1 1 one_dispatch).
  - vm_compute. reflexivity.
  - reflexivity.
  - vm_compute. eauto.
Defined.

End Witnesses.

Section AggregatorWitnesses.

Import Aggregator.

Lemma merge_order_independent_witness :
  merged Demo.whole_run.2 =
    [(mkArticle "http://a.com/1" "X", ["a"; "b"; "b"; "c"]);
     (mkArticle "http://a.com/2" "X", ["b"; "b"; "b"; "c"; "d"])] ∧
  ∃ a toks,
    intermediateIndex Demo.whole_run.2 !! ("X", "a.com") = Some (a, toks) ∧
    foldl (articleUpdate Demo.getURLServer) ∅
      [(mkArticle "http://a.com/2" "X", ["b"; "b"; "b"; "c"; "d"]);
       (mkArticle "http://a.com/1" "X", ["a"; "b"; "b"; "c"])]
      !! ("X", "a.com") = Some (a, toks) ∧
    url a = "http://a.com/1" ∧ toks = ["b"; "b"; "c"].
Proof.
  split; [vm_compute; reflexivity|].
  destruct (merge_order_independent Demo.getURLServer Demo.rssFeedListURI
    Demo.parseFeedList Demo.parseFeed Demo.parseDocument
    Demo.whole_run.1 Demo.whole_run.2
    [(mkArticle "http://a.com/2" "X", ["b"; "b"; "b"; "c"; "d"]);
     (mkArticle "http://a.com/1" "X", ["a"; "b"; "b"; "c"])]
    ("X", "a.com")) as (a & toks & Hlk & Hlk' & _).
  - vm_compute. reflexivity.
  - replace (merged Demo.whole_run.2) with
      [(mkArticle "http://a.com/1" "X", ["a"; "b"; "b"; "c"]);
       (mkArticle "http://a.com/2" "X", ["b"; "b"; "b"; "c"; "d"])]
      by (vm_compute; reflexivity).
    apply perm_swap.
  - vm_compute. discriminate.
  - exists a, toks. split; [exact Hlk|]. split; [exact Hlk'|].
    vm_compute in Hlk'. injection Hlk' as <- <-. split; reflexivity.
Defined.

Lemma flush_after_drain_witness :
  mainThread Demo.crawl.2 = MFlush ∧
  live (feedPool Demo.crawl.2) = 0 ∧ live (articlePool Demo.crawl.2) = 0 ∧
  pendingThunks (feedPool Demo.crawl.2) = 0%Z ∧
  pendingThunks (articlePool Demo.crawl.2) = 0%Z ∧
  thunkQueue (feedPool Demo.crawl.2) = [] ∧
  thunkQueue (articlePool Demo.crawl.2) = [] ∧
  (∀ workerID, running workerID (feedPool Demo.crawl.2) = None) ∧
  (∀ workerID, running workerID (articlePool Demo.crawl.2) = None) ∧
  (∀ workerID,
     Aggregator.feed_step Demo.parseFeed workerID Demo.crawl.2 = None).
Proof.
  split; [vm_compute; reflexivity|].
  apply (flush_after_drain Demo.getURLServer Demo.rssFeedListURI
           Demo.parseFeedList Demo.parseFeed Demo.parseDocument
           Demo.crawl.1).
  - vm_compute. reflexivity.
  - vm_compute. reflexivity.
Defined.

Lemma url_claimed_once_witness :
  fetched Demo.whole_run.2 = ["f1"; "f2"; "http://a.com/1"; "http://a.com/2"] ∧
  NoDup (claimed Demo.whole_run.2) ∧ NoDup (fetched Demo.whole_run.2) ∧
  (∀ u, u ∈ fetched Demo.whole_run.2 → u ∈ claimed Demo.whole_run.2) ∧
  (∀ u, u ∈ claimed Demo.whole_run.2 ↔ u ∈ seenURLs Demo.whole_run.2) ∧
  (∀ u, u ∈ seenURLs Demo.whole_run.2 → claimURL u Demo.whole_run.2 = None).
Proof.
  split; [vm_compute; reflexivity|].
  apply (url_claimed_once Demo.getURLServer Demo.rssFeedListURI
           Demo.parseFeedList Demo.parseFeed Demo.parseDocument
           Demo.whole_run.1).
  vm_compute. reflexivity.
Defined.

Lemma no_feeds_empty_index_witness :
  (∃ s, Aggregator.exec Demo.getURLServer "nowhere" Demo.parseFeedList
          Demo.parseFeed Demo.parseDocument [LBuildIndex; LMain] init
        = Some s ∧ mainThread s = MIdle) ∧
  ∀ tr s, Aggregator.exec Demo.getURLServer "nowhere" Demo.parseFeedList
            Demo.parseFeed Demo.parseDocument tr init = Some s →
    index s = [] ∧
    feedPool s = ThreadPool_new kNumFeedWorkers ∧
    articlePool s = ThreadPool_new kNumArticleWorkers ∧
    seenURLs s = ∅ ∧ intermediateIndex s = ∅ ∧
    claimed s = [] ∧ fetched s = [] ∧ merged s = [].
Proof.
  apply (no_feeds_empty_index Demo.getURLServer "nowhere" Demo.parseFeedList
           Demo.parseFeed Demo.parseDocument).
  left. reflexivity.
Defined.

Lemma second_buildIndex_noop_witness :
  ∃ s1 s2,
    Demo.exec (Demo.crawl.1 ++ [LMain]) init = Some s1 ∧
    Demo.exec [LBuildIndex; LFeedWorker 1; LBuildIndex] s1 = Some s2 ∧
    index s1 =
      [(mkArticle "http://a.com/1" "X", ["b"; "b"; "c"])] ∧
    Demo.step LBuildIndex s2 = Some s2 ∧
    mainThread s2 = MIdle ∧
    index s2 = index s1 ∧
    seenURLs s2 = seenURLs s1 ∧
    intermediateIndex s2 = intermediateIndex s1 ∧
    claimed s2 = claimed s1 ∧
    fetched s2 = fetched s1 ∧
    merged s2 = merged s1.
Proof.
  do 2 eexists.
  split; [vm_compute; reflexivity|].
  split; [vm_compute; reflexivity|].
  split; [vm_compute; reflexivity|].
  apply (second_buildIndex_noop Demo.getURLServer Demo.rssFeedListURI
           Demo.parseFeedList Demo.parseFeed Demo.parseDocument
           (Demo.crawl.1 ++ [LMain])
           [LBuildIndex; LFeedWorker 1; LBuildIndex]).
  - vm_compute. reflexivity.
  - vm_compute. reflexivity.
  - vm_compute. reflexivity.
  - vm_compute. reflexivity.
Defined.

Lemma intermediate_index_invariant_witness :
  title (mkArticle "http://a.com/1" "X") = ("X", "a.com").1 ∧
  Demo.getURLServer (url (mkArticle "http://a.com/1" "X")) = ("X", "a.com").2 ∧
  StronglySorted StrOrd.le ["b"; "b"; "c"].
Proof.
  apply (intermediate_index_invariant Demo.getURLServer Demo.rssFeedListURI
           Demo.parseFeedList Demo.parseFeed Demo.parseDocument
           Demo.whole_run.1 Demo.whole_run.2 ("X", "a.com")).
  - vm_compute. reflexivity.
  - vm_compute. reflexivity.
Defined.

Lemma failed_run_not_retried_witness :
  ∃ s1 s2,
    Aggregator.step Demo.getURLServer "nowhere" Demo.parseFeedList
      Demo.parseFeed Demo.parseDocument LBuildIndex init = Some s1 ∧
    built s1 = true ∧ mainThread s1 = MParse ∧
    Aggregator.step Demo.getURLServer "nowhere" Demo.parseFeedList
      Demo.parseFeed Demo.parseDocument LMain s1 = Some s2 ∧
    built s2 = true ∧ mainThread s2 = MIdle ∧
    Aggregator.step Demo.getURLServer "nowhere" Demo.parseFeedList
      Demo.parseFeed Demo.parseDocument LBuildIndex s2 = Some s2 ∧
    ∀ tr s, Aggregator.exec Demo.getURLServer "nowhere" Demo.parseFeedList
              Demo.parseFeed Demo.parseDocument tr s2 = Some s → s = s2.
Proof.
  apply (failed_run_not_retried Demo.getURLServer "nowhere"
           Demo.parseFeedList Demo.parseFeed Demo.parseDocument).
  left. reflexivity.
Defined.

End AggregatorWitnesses.

(** * Further properties of the code *)

(** ** The thread pool (thread-pool.cc) *)

Section PoolProperties.

Context {T : Type}.
Import Clients.
Local Abbreviation state := (Clients.state T).
Local Abbreviation label := (Clients.label T).


(** X2.  A pool with at least one worker does not get stuck while a thunk that
    was pushed has not been completed: a client inside [schedule] can go on,
    or the dispatcher or a worker can make a step, or a thunk is running. *)
Theorem pool_makes_progress (numThreads numClients : nat)
    (tr : list label) (s : state) :
  0 < numThreads →
  exec tr (init numThreads numClients) = Some s →
  terminated s = false →
  live (pool s) ≠ 0 →
  (∃ c, (clients s !! c = Some CPushed ∨ clients s !! c = Some CCounted) ∧
        is_Some (step (LClient c) s)) ∨
  is_Some (step LDispatcher s) ∨
  (∃ k, is_Some (step (LWorker k) s)) ∨
  (∃ k, is_Some (running k (pool s)) ∧
        is_Some (step (LThunk k Returns) s)).
Proof.
  intros Hn Hex Hterm Hlive.
  pose proof (exec_inv _ _ _ (init_inv numThreads numClients) Hex) as Hinv.
  pose proof (exec_length _ _ _ (init_inv numThreads numClients) Hex) as Hlen.
  simpl in Hlen. rewrite length_replicate in Hlen.
  unfold sys_inv in Hinv. unfold step. rewrite Hterm.
  destruct (decide (count_pc CPushed (clients s) = 0)) as [Hu|Hu].
  - destruct (decide (count_pc CCounted (clients s) = 0)) as [Hv|Hv].
    + rewrite Hu, Hv in Hinv.
      destruct (pool_progress id (pool s) Hinv) as [[p Hp]|[[k [p Hp]]|[k [c Hc]]]];
        [lia|done|..].
      * right; left. rewrite Hp. simpl. eauto.
      * right; right; left. exists k. rewrite Hp. simpl. eauto.
      * right; right; right. exists k. rewrite Hc. eauto.
    + apply count_pc_pos in Hv as [c Hc]. left. exists c. rewrite Hc. eauto.
  - apply count_pc_pos in Hu as [c Hc]. left. exists c. rewrite Hc. eauto.
Qed.

(** X3.  A pool constructed with zero threads never creates a thread and never
    runs a thunk: what is scheduled stays in the queue, and once the counter
    is not zero no call of [wait] returns any more. *)
Theorem zero_thread_pool_never_runs (numClients : nat)
    (tr : list label) (s : state) :
  exec tr (init 0 numClients) = Some s →
  workerVector (pool s) = [] ∧
  spawnLog (pool s) = [] ∧
  (∀ k, running k (pool s) = None) ∧
  live (pool s) = length (thunkQueue (pool s)) ∧
  ∀ tr' s' c s'',
    pendingThunks (pool s) ≠ 0%Z → exec tr' s = Some s' →
    ¬ wait_returns c s' s''.
Proof.
  intros Hex.
  assert (∀ tr0 (s0 : state), exec tr0 (init 0 numClients) = Some s0 →
            workerVector (pool s0) = []) as Hnil.
  { intros tr0 s0 Hex0.
    pose proof (exec_length _ _ _ (init_inv 0 numClients) Hex0) as Hlen.
    simpl in Hlen. by apply length_zero_iff_nil. }
  pose proof (exec_inv _ _ _ (init_inv 0 numClients) Hex) as Hinv.
  pose proof (Hnil _ _ Hex) as Hws.
  assert (0 ≤ pendingThunks (pool s))%Z as Hpos.
  { pose proof (inv_signalled _ _ _ Hinv). lia. }
  split_and!.
  - done.
  - pose proof (inv_log _ _ _ Hinv) as Hlog.
    pose proof (inv_nsid _ _ _ Hinv) as Hn. rewrite Hws in Hn. simpl in Hn.
    rewrite Hlog. by replace (nextSpawnID (pool s)) with 0 by lia.
  - intros k. unfold running. by rewrite Hws.
  - pose proof (inv_picked _ _ _ Hinv) as Hp. unfold live.
    rewrite Hws in *. simpl in *.
    destruct (dispatcherThread (pool s)); lia.
  - intros tr' s' c s'' Hne Hex' Hret.
    apply wait_returns_zero in Hret.
    assert (pendingThunks (pool s) ≤ pendingThunks (pool s'))%Z; [|lia].
    clear Hret Hinv Hpos Hne Hws.
    revert s tr Hex Hex'. induction tr' as [|l tr' IH]; intros s tr Hex; simpl.
    + by intros [= <-].
    + destruct (step l s) as [s1|] eqn:Hstep; [|done]. simpl. intros Hex'.
      pose proof (step_no_workers _ _ _ (Hnil _ _ Hex) Hstep).
      assert (exec (tr ++ [l]) (init 0 numClients) = Some s1) as Hex1.
      { rewrite exec_app, Hex. simpl. by rewrite Hstep. }
      specialize (IH s1 _ Hex1 Hex'). lia.
Qed.

End PoolProperties.

Section ScanProperties.

Context {T : Type}.
Import Clients.
Local Abbreviation state := (Clients.state T).
Local Abbreviation label := (Clients.label T).

(** X4.  The dispatcher reuses a free worker before it creates a thread.  In
    every run, the scan of lines 41-56 picks the free worker of lowest
    index and marks it in use; it creates a thread only when every worker
    that has a thread is in use, then exactly one, at index [nextSpawnID],
    and that worker is the one it picks. *)
Theorem dispatcher_reuses_before_spawning (numThreads numClients : nat)
    (tr : list label) (s : state) (p' : ThreadPool T T) :
  exec tr (init numThreads numClients) = Some s →
  dispatcherThread (pool s) = DScan →
  dispatcher (pool s) = Some p' →
  ∃ j w,
    dispatcherThread p' = DPop (Z.of_nat j) ∧
    workerVector (pool s) !! j = Some w ∧ workerInUse w = false ∧
    (∀ i w', i < j → workerVector (pool s) !! i = Some w' →
       workerInUse w' = true ∧ is_Some (workerThread w')) ∧
    workerInUse <$> workerVector p' !! j = Some true ∧
    (∀ i, i ≠ j → workerVector p' !! i = workerVector (pool s) !! i) ∧
    j ≤ nextSpawnID (pool s) ∧
    (j < nextSpawnID (pool s) →
       nextSpawnID p' = nextSpawnID (pool s) ∧
       spawnLog p' = spawnLog (pool s) ∧
       workerThread <$> workerVector p' !! j = Some (workerThread w)) ∧
    (j = nextSpawnID (pool s) →
       nextSpawnID p' = S j ∧
       spawnLog p' = spawnLog (pool s) ++ [j] ∧
       workerThread w = None ∧
       workerThread <$> workerVector p' !! j = Some (Some WWait)).
Proof.
  intros Hex Hd Hstep.
  pose proof (exec_inv _ _ _ (init_inv numThreads numClients) Hex) as Hinv.
  destruct Hinv as [He Hk Hn Hlog Hw Hp Ha Hl Hs Hcv].
  unfold dispatcher in Hstep. rewrite Hd, He, Hk in Hstep.
  rewrite Hd in Ha.
  destruct (scan (length (workerVector (pool s))) 0 (workerVector (pool s))
              (nextSpawnID (pool s)) (spawnLog (pool s)))
    as [[[a ws] nsid] log] eqn:Hscan.
  pose proof (scan_lowest _ _ _ _ _ _ _ _ _ Hscan) as Hlow.
  destruct (scan_pick (length (workerVector (pool s))) 0
              (workerVector (pool s)) (nextSpawnID (pool s))
              (spawnLog (pool s)))
    as (j & w & _ & Hjn & Hj & Hfree & Heq).
  { lia. }
  { intros i w Hi Hle. specialize (Hw i w Hi).
    rewrite (bool_decide_eq_false_2 (i < _)) in Hw by lia.
    by eapply worker_ok_unspawned. }
  { lia. }
  { destruct (exists_free (workerVector (pool s))) as (j & w & ? & ?); [lia|].
    exists j, w. split_and!; [lia|done..]. }
  rewrite Heq in Hscan. simplify_eq. simpl.
  pose proof (lookup_lt_Some _ _ _ Hj) as Hjlt.
  exists j, w. split_and!; try done.
  - intros i w' Hi Hw'. split; [apply (Hlow i w'); [lia|lia|done]|].
    specialize (Hw i w' Hw').
    rewrite (bool_decide_eq_true_2 (i < _)) in Hw by lia.
    unfold worker_ok in Hw. destruct (workerThread w'); [eauto|].
    by destruct Hw.
  - by rewrite list_lookup_insert_eq.
  - intros i Hne. by rewrite list_lookup_insert_ne.
  - intros Hlt. rewrite !decide_False by lia.
    by rewrite list_lookup_insert_eq.
  - intros ->. rewrite !decide_True by done.
    rewrite list_lookup_insert_eq by done. split_and!; try done.
    specialize (Hw _ w Hj).
    rewrite (bool_decide_eq_false_2 (_ < _)) in Hw by lia.
    unfold worker_ok in Hw. destruct (workerThread w) as [[]|]; try done;
      by destruct Hw.
Qed.

End ScanProperties.

(** ** What becomes of the thunks (thread-pool.cc) *)

Section HistoryProperties.

Context {T : Type} `{EqDecision T}.

Import Clients History.

Local Abbreviation state := (Clients.state T).
Local Abbreviation label := (Clients.label T).

(** X5.  The queue is first in, first out.  In every run of a pool with any
    number of clients, the thunks the dispatcher has taken off the queue,
    followed by the thunks still in the queue, are the thunks [schedule]
    has pushed, in the order of the pushes. *)
Theorem thunks_leave_queue_in_order (numThreads numClients : nat)
    (tr : list label) (s : state) (h : history T) :
  exec_log tr (init numThreads numClients) no_history = Some (s, h) →
  pushed h = popped h ++ thunkQueue (pool s).
Proof.
  intros Hex.
  destruct (exec_log_inv _ _ _ _ _ (init_inv numThreads numClients)
              (init_hist_inv numThreads numClients) Hex) as (_ & _ & Hh).
  apply (hi_queue _ _ Hh).
Qed.

(** X6.  No thunk is run more often than it was scheduled, and none is lost.  In
    every run, each thunk has returned at most as often as it was called,
    was called at most as often as it was taken off the queue, and was taken
    off the queue at most as often as it was pushed; and once no thunk is
    queued, dispatched or with a worker, the thunks that have run to their
    end are exactly the thunks that were pushed, each as often as it was
    pushed. *)
Theorem thunks_run_once (numThreads numClients : nat)
    (tr : list label) (s : state) (h : history T) :
  exec_log tr (init numThreads numClients) no_history = Some (s, h) →
  (∀ t, count t (finished h) ≤ count t (started h) ∧
        count t (started h) ≤ count t (popped h) ∧
        count t (popped h) ≤ count t (pushed h)) ∧
  (live (pool s) = 0 →
     popped h = pushed h ∧ started h ≡ₚ pushed h ∧ finished h ≡ₚ pushed h).
Proof.
  intros Hex.
  destruct (exec_log_inv _ _ _ _ _ (init_inv numThreads numClients)
              (init_hist_inv numThreads numClients) Hex) as (_ & _ & Hh).
  split; [|by apply hist_inv_drained].
  destruct Hh as [H1 H2 H3].
  intros t. rewrite H1, count_app, (H2 t), (H3 t). lia.
Qed.

(** X7.  [wait] keeps the contract of thread-pool.h when no thread is in the
    middle of [schedule]: if a call of [wait] returns while no client is
    between the push and the increment, every thunk pushed so far has been
    called and has returned, exactly as often as it was pushed.  This holds
    in particular for a pool that a single thread uses. *)
Theorem wait_returns_when_all_ran (numThreads numClients : nat)
    (tr : list label) (s s' : state) (h : history T) (c : nat) :
  exec_log tr (init numThreads numClients) no_history = Some (s, h) →
  count_pc CPushed (clients s) = 0 →
  wait_returns c s s' →
  finished h ≡ₚ pushed h ∧ thunkQueue (pool s') = [] ∧
  ∀ k, running k (pool s') = None.
Proof.
  intros Hex Hu Hret.
  destruct (exec_log_inv _ _ _ _ _ (init_inv numThreads numClients)
              (init_hist_inv numThreads numClients) Hex) as (Hex' & Hinv & Hh).
  pose proof (wait_returns_zero _ _ _ Hret) as Hz.
  pose proof (inv_live _ _ _ Hinv) as Hl. rewrite Hu, Hz in Hl.
  assert (live (pool s) = 0) as Hlive by lia.
  assert (pool s' = pool s) as ->.
  { destruct Hret as [Hstep _].
    assert (client_wait c s = s') as <-.
    { destruct Hstep as [Hstep|[Hb Hstep]]; unfold step in Hstep;
        destruct (terminated s); try done.
      - destruct (clients s !! c) as [[]|]; by simplify_eq.
      - rewrite Hb in Hstep.
        destruct (wait_woken c (pool s)); by simplify_eq. }
    unfold client_wait, wait_test. by rewrite decide_True. }
  destruct (hist_inv_drained s h Hh Hlive) as (_ & _ & Hfin).
  split_and!; [done| |].
  - apply length_zero_iff_nil. unfold live in Hlive. lia.
  - intros k. by apply live_zero_not_running.
Qed.

End HistoryProperties.

(** ** The crawl (news-aggregator.cc) *)

Section CrawlProperties.

Variable getURLServer : string → string.
Variable rssFeedListURI : string.
Variable parseFeedList : string → option (gmap string string).
Variable parseFeed : string → option (list Article).
Variable parseDocument : string → option (list string).
Import Aggregator.
Local Abbreviation step :=
  (Aggregator.step getURLServer rssFeedListURI parseFeedList parseFeed
     parseDocument).
Local Abbreviation exec :=
  (Aggregator.exec getURLServer rssFeedListURI parseFeedList parseFeed
     parseDocument).

(** X11.  The index gets one entry for each key of the intermediate index, once.
    In every run the index is empty until the flush of lines 135-137; from
    the flush on it holds the entries of the intermediate index in the
    ascending order of their keys, and no later call adds to it.  So the
    articles in the index have pairwise different (title, server) pairs,
    each is stored in the intermediate index under its own pair, and each
    comes with a sorted token list. *)
Theorem index_one_entry_per_key (tr : list label) (s : state) :
  exec tr init = Some s →
  (index s = [] ∨
   index s = (in_order pair_ltb (intermediateIndex s)).*2) ∧
  NoDup (keyOf getURLServer <$> (index s).*1) ∧
  StronglySorted (λ K1 K2, pair_ltb K2 K1 = false)
    (keyOf getURLServer <$> (index s).*1) ∧
  (∀ a toks, (a, toks) ∈ index s →
     intermediateIndex s !! keyOf getURLServer a = Some (a, toks) ∧
     StronglySorted StrOrd.le toks).
Proof.
  intros Hex.
  pose proof (reachable_agg_inv _ _ _ _ _ _ _ Hex) as Hinv.
  assert (index_state s) as Hi.
  { eapply exec_index_state; [apply init_agg_inv|by left|done]. }
  pose proof (ai_index _ _ Hinv) as Hok.
  assert (keyOf getURLServer <$> (flushed s).*1
          = (in_order pair_ltb (intermediateIndex s)).*1) as Hkeys.
  { unfold flushed.
    assert (Forall (λ e, keyOf getURLServer e.2.1 = e.1)
              (in_order pair_ltb (intermediateIndex s))) as Hall.
    { apply Forall_forall. intros [K [a toks]] Hin. simpl.
      apply elem_of_in_order in Hin.
      destruct (Hok K a toks Hin) as (? & ? & _).
      unfold keyOf. destruct K. simpl in *. congruence. }
    induction Hall as [|e l He Hall IH]; simpl; [done|]. by f_equal. }
  destruct Hi as [Hi|(_ & _ & Hi)]; rewrite Hi.
  { split_and!; [by left|constructor|constructor|].
    intros a toks Hin. by apply elem_of_nil in Hin. }
  rewrite Hkeys. split_and!.
  - by right.
  - apply in_order_keys_NoDup.
  - apply sorted_keys, in_order_sorted.
  - intros a toks Hin. unfold flushed in Hin.
    apply list_elem_of_fmap in Hin as ([K [a' toks']] & Heq & Hin).
    simpl in Heq. injection Heq as -> ->.
    apply elem_of_in_order in Hin.
    destruct (Hok K a' toks' Hin) as (? & ? & ?).
    split; [|done]. unfold keyOf.
    destruct K. simpl in *. by subst.
Qed.

End CrawlProperties.

Section CrawlProperties2.

Variable getURLServer : string → string.
Variable rssFeedListURI : string.
Variable parseFeedList : string → option (gmap string string).
Variable parseFeed : string → option (list Article).
Variable parseDocument : string → option (list string).
Import Aggregator.
Local Abbreviation step :=
  (Aggregator.step getURLServer rssFeedListURI parseFeedList parseFeed
     parseDocument).
Local Abbreviation exec :=
  (Aggregator.exec getURLServer rssFeedListURI parseFeedList parseFeed
     parseDocument).

(** X12.  The crawl keeps within its two thread budgets.  In every run the feed
    pool has created at most [kNumFeedWorkers] threads and the article pool
    at most [kNumArticleWorkers], each at an index of its own, and at no
    time are more than [kNumFeedWorkers] feed thunks or more than
    [kNumArticleWorkers] article thunks running. *)
Theorem crawl_thread_bounds (tr : list label) (s : state) :
  exec tr init = Some s →
  spawnLog (feedPool s) = seq 0 (nextSpawnID (feedPool s)) ∧
  nextSpawnID (feedPool s) ≤ kNumFeedWorkers ∧
  spawnLog (articlePool s) = seq 0 (nextSpawnID (articlePool s)) ∧
  nextSpawnID (articlePool s) ≤ kNumArticleWorkers ∧
  runCount (λ _, true) (feedPool s) ≤ kNumFeedWorkers ∧
  runCount (λ _, true) (articlePool s) ≤ kNumArticleWorkers.
Proof.
  intros Hex.
  pose proof (reachable_agg_inv _ _ _ _ _ _ _ Hex) as Hinv.
  pose proof (exec_sizes _ _ _ _ _ _ _ _ (init_agg_inv _) Hex) as Hsz.
  unfold sizes in Hsz. simpl in Hsz. rewrite ?length_replicate in Hsz.
  injection Hsz as HF HA.
  pose proof (inv_nsid _ _ _ (ai_feed _ _ Hinv)) as H1.
  pose proof (inv_nsid _ _ _ (ai_article _ _ Hinv)) as H2.
  pose proof (runCount_le_length (λ _, true) (feedPool s)) as H3.
  pose proof (runCount_le_length (λ _, true) (articlePool s)) as H4.
  unfold kNumFeedWorkers, kNumArticleWorkers.
  split_and!; try lia.
  - apply (inv_log _ _ _ (ai_feed _ _ Hinv)).
  - apply (inv_log _ _ _ (ai_article _ _ Hinv)).
Qed.

(** X13.  A call of [buildIndex] cannot deadlock.  In every run, as long as the
    caller is inside [buildIndex], some thread can make a step that is not
    a spurious wake-up: the caller itself, a dispatcher, a worker, or a
    feed or article thunk. *)
Theorem buildIndex_never_deadlocks (tr : list label) (s : state) :
  exec tr init = Some s →
  mainThread s ≠ MIdle →
  is_Some (step LMain s) ∨
  is_Some (step LFeedDispatcher s) ∨
  (∃ k, is_Some (step (LFeedWorker k) s)) ∨
  (∃ k, is_Some (step (LFeedThunk k) s)) ∨
  is_Some (step LArticleDispatcher s) ∨
  (∃ k, is_Some (step (LArticleWorker k) s)) ∨
  (∃ k, is_Some (step (LArticleThunk k) s)).
Proof.
  intros Hex Hm.
  pose proof (reachable_agg_inv _ _ _ _ _ _ _ Hex) as Hinv.
  pose proof (exec_sizes _ _ _ _ _ _ _ _ (init_agg_inv _) Hex) as Hsz.
  assert (sizes s = (kNumFeedWorkers, kNumArticleWorkers)) as Hsz'.
  { rewrite Hsz. unfold sizes. simpl. by rewrite ?length_replicate. }
  clear Hsz.
  assert (mainThread s = MBlocked →
          wait_woken mainTid (feedPool s) = false →
          is_Some (step LFeedDispatcher s) ∨
          (∃ k, is_Some (step (LFeedWorker k) s)) ∨
          (∃ k, is_Some (step (LFeedThunk k) s)) ∨
          is_Some (step LArticleDispatcher s) ∨
          (∃ k, is_Some (step (LArticleWorker k) s)) ∨
          (∃ k, is_Some (step (LArticleThunk k) s))) as Hblocked.
  { (* the caller is blocked in feedPool.wait() *)
    intros Hb Hwk.
    pose proof (ai_feed _ _ Hinv) as Hp. rewrite Hb in Hp. simpl in Hp.
    assert (pendingThunks (feedPool s) ≠ 0%Z) as Hne.
    { intros Hz. unfold wait_woken in Hwk.
      rewrite (inv_condvar _ _ _ Hp Hz) in Hwk.
      apply bool_decide_eq_false in Hwk. by destruct Hwk. }
    pose proof (inv_live _ _ _ Hp) as Hl.
    pose proof Hsz' as Hsz. injection Hsz as HF HA.
    destruct (pool_progress feedStart (feedPool s) Hp)
      as [[p' Hd]|[[k [p' Hw]]|[k [c Hr]]]].
    - rewrite HF. unfold kNumFeedWorkers. lia.
    - lia.
    - left. simpl. rewrite Hd. simpl. eauto.
    - right; left. exists k. simpl. rewrite Hw. simpl. eauto.
    - destruct (wait_woken k (articlePool s)) eqn:Hwk'.
      + right; right; left. exists k. simpl.
        by eapply feed_thunk_moves.
      + assert (c = FBlocked ∨ c ≠ FBlocked) as [->|Hc]
          by (destruct c; auto).
        * (* a feed thunk is blocked in articlePool.wait() *)
          assert (pendingThunks (articlePool s) ≠ 0%Z) as Hne'.
          { intros Hz. unfold wait_woken in Hwk'.
            rewrite (inv_condvar _ _ _ (ai_article _ _ Hinv) Hz) in Hwk'.
            apply bool_decide_eq_false in Hwk'. by destruct Hwk'. }
          destruct (article_pool_moves getURLServer rssFeedListURI parseFeedList parseFeed parseDocument s Hinv Hsz' Hne') as [?|[?|[?|?]]];
            auto 10.
        * right; right; left. exists k. simpl.
          by eapply feed_thunk_moves. }
  destruct (mainThread s) as [| |[|f fs]|fs|fs| |] eqn:Hpc; try done.
  - left. simpl. unfold Aggregator.main_step. rewrite Hpc.
    destruct (parseFeedList rssFeedListURI); [case_decide|]; eauto.
  - left. simpl. unfold Aggregator.main_step. rewrite Hpc.
    destruct (wait_test mainTid (feedPool s)) as [p []]; eauto.
  - left. simpl. unfold Aggregator.main_step. rewrite Hpc. eauto.
  - left. simpl. unfold Aggregator.main_step. rewrite Hpc. eauto.
  - left. simpl. unfold Aggregator.main_step. rewrite Hpc. eauto.
  - destruct (wait_woken mainTid (feedPool s)) eqn:Hwk.
    + left. simpl. unfold Aggregator.main_step. rewrite Hpc, Hwk.
      destruct (wait_test mainTid (feedPool s)) as [p []]; eauto.
    + right. by apply Hblocked.
  - left. simpl. unfold Aggregator.main_step. rewrite Hpc. eauto.
Qed.

End CrawlProperties2.

(** ** The end of a pool (thread-pool.cc, lines 102-114) *)

Section ShutdownProperties.

Context {T : Type}.
Variable tid : nat.

Import Shutdown.

Local Abbreviation state := (Shutdown.state T).
Local Abbreviation step := (Shutdown.step (T:=T) tid).
Local Abbreviation exec := (Shutdown.exec (T:=T) tid).

(** X8.  The destructor lets the pool finish its work before it stops the
    threads.  Let the destructor be entered on a pool that no client is
    using.  In every run, once the destroying thread is past [wait()]
    (line 103) the queue is empty, the counter is zero and no thunk is
    running, and this stays so; [exitFlag] is set exactly from line 104
    on; and as long as it is not set, no worker and no dispatcher has left
    its loop. *)
Theorem destructor_drains_first (numThreads numClients : nat)
    (tr0 : list (Clients.label T)) (s0 : Clients.state T)
    (tr : list label) (s : state) :
  Clients.exec tr0 (Clients.init numThreads numClients) = Some s0 →
  count_pc Clients.CPushed (Clients.clients s0) = 0 →
  count_pc Clients.CCounted (Clients.clients s0) = 0 →
  exec tr (enter (Clients.pool s0)) = Some s →
  (past_wait (destructorThread s) = true →
     thunkQueue (pool s) = [] ∧ pendingThunks (pool s) = 0%Z ∧
     (∀ k, running k (pool s) = None) ∧ terminated s = false) ∧
  exitFlag (pool s) = past_flag (destructorThread s) ∧
  (exitFlag (pool s) = false →
     dispatcherThread (pool s) ≠ DExit ∧
     ∀ j w, workerVector (pool s) !! j = Some w →
       workerThread w ≠ Some WExit).
Proof.
  intros Hex0 Hu Hv Hex.
  pose proof (enter_draining _ _ _ _ Hex0 Hu Hv) as Hd.
  destruct (exec_phase tid _ tr _ _ (or_introl Hd) Hex)
    as [(Hinv & Hx & Hlen)|Hcl].
  - split_and!.
    + by rewrite Hx.
    + rewrite (inv_exit _ _ _ Hinv). by destruct (destructorThread s).
    + intros _. split.
      * pose proof (inv_picked _ _ _ Hinv) as Hp. intros Heq.
        by rewrite Heq in Hp.
      * intros j w Hjw Hth. pose proof (inv_workers _ _ _ Hinv j w Hjw) as Hw.
        unfold worker_ok in Hw. by rewrite Hth in Hw.
  - pose proof Hcl as [Ht Hf Hk Hq Hz Hn Hc Hj Hws Hdp]. split_and!.
    + intros _. split_and!; try done. intros k. unfold running.
      destruct (workerVector (pool s) !! k) as [w|] eqn:Hwk; [|done].
      specialize (Hws k w Hwk). unfold closing_worker in Hws.
      destruct (workerThread w) as [[]|]; try done.
      repeat case_decide; by destruct Hws.
    + done.
    + intros He. rewrite Hf in He. unfold closing_dispatcher in Hdp.
      destruct (destructorThread s) eqn:Hx; try done. destruct Hdp as [Hdt _].
      split; [by rewrite Hdt|].
      intros j w Hjw Hth. specialize (Hws j w Hjw).
      unfold closing_worker in Hws. rewrite Hth in Hws. simpl in Hws.
      repeat case_decide; try lia; by destruct Hws.
Qed.

(** X9.  The destructor terminates.  Let the destructor be entered on a pool
    that no client is using, and let the destroying thread be past
    [wait()].  Then every continuation of the run has at most
    [steps_left] steps, each step taking one off; a state in which no
    thread can move is one in which the destructor has returned; and then
    the dispatcher and every worker that had a thread have left their
    thread functions, so that every [join] has returned. *)
Theorem destructor_terminates (numThreads numClients : nat)
    (tr0 : list (Clients.label T)) (s0 : Clients.state T)
    (tr tr' : list label) (s s' : state) :
  Clients.exec tr0 (Clients.init numThreads numClients) = Some s0 →
  count_pc Clients.CPushed (Clients.clients s0) = 0 →
  count_pc Clients.CCounted (Clients.clients s0) = 0 →
  exec tr (enter (Clients.pool s0)) = Some s →
  past_wait (destructorThread s) = true →
  exec tr' s = Some s' →
  length tr' + steps_left s' = steps_left s ∧
  ((∀ l, step l s' = None) ↔ destructorThread s' = XDone) ∧
  (destructorThread s' = XDone →
     dispatcherThread (pool s') = DExit ∧
     ∀ j w, workerVector (pool s') !! j = Some w →
       workerThread w = (if decide (j < nextSpawnID (pool s'))
                         then Some WExit else None)).
Proof.
  intros Hex0 Hu Hv Hex Hpw Hex'.
  pose proof (enter_draining _ _ _ _ Hex0 Hu Hv) as Hd.
  destruct (exec_phase tid _ tr _ _ (or_introl Hd) Hex)
    as [(_ & Hx & _)|Hcl]; [congruence|].
  destruct (exec_closing tid _ _ _ Hcl Hex') as [Hcl' Hm].
  split_and!; [done| |].
  - split.
    + intros Hstuck.
      destruct (decide (destructorThread s' = XDone)) as [|Hne]; [done|].
      destruct (closing_progress tid _ Hcl' Hne) as [[? H]|[[? H]|[k [? H]]]];
        rewrite Hstuck in H; done.
    + intros Hdone. by apply closing_done.
  - intros Hdone. destruct (closing_done tid _ Hcl' Hdone) as (? & ? & _).
    done.
Qed.

(** X10.  The destructor cannot deadlock on a pool that has a worker.  In every
    run, until the destructor has returned, the destroying thread, the
    dispatcher or a worker can make a step, or a thunk is running. *)
Theorem destructor_never_deadlocks (numThreads numClients : nat)
    (tr0 : list (Clients.label T)) (s0 : Clients.state T)
    (tr : list label) (s : state) :
  0 < numThreads →
  Clients.exec tr0 (Clients.init numThreads numClients) = Some s0 →
  count_pc Clients.CPushed (Clients.clients s0) = 0 →
  count_pc Clients.CCounted (Clients.clients s0) = 0 →
  exec tr (enter (Clients.pool s0)) = Some s →
  terminated s = false →
  destructorThread s ≠ XDone →
  is_Some (step LDestructor s) ∨ is_Some (step LDispatcher s) ∨
  (∃ k, is_Some (step (LWorker k) s)) ∨
  (∃ k, is_Some (step (LThunk k Clients.Returns) s)).
Proof.
  intros Hn Hex0 Hu Hv Hex Ht Hx.
  pose proof (enter_draining _ _ _ _ Hex0 Hu Hv) as Hd.
  destruct (exec_phase tid _ tr _ _ (or_introl Hd) Hex) as [Hdr|Hcl].
  - by eapply draining_progress.
  - destruct (closing_progress tid _ Hcl Hx) as [?|[?|?]]; auto.
Qed.

End ShutdownProperties.

(** ** The updates of the intermediate index (news-aggregator.cc, lines 198-216) *)

Section MergeProperties.

Variable getURLServer : string → string.
Variable rssFeedListURI : string.
Variable parseFeedList : string → option (gmap string string).
Variable parseFeed : string → option (list Article).
Variable parseDocument : string → option (list string).
Import Aggregator.
Local Abbreviation step :=
  (Aggregator.step getURLServer rssFeedListURI parseFeedList parseFeed
     parseDocument).
Local Abbreviation exec :=
  (Aggregator.exec getURLServer rssFeedListURI parseFeedList parseFeed
     parseDocument).

(** X14.  Entries of the intermediate index only shrink.  In every run, an entry
    that is stored under a key stays under that key with its title; a step
    of the crawl leaves it as it is or replaces it by one whose token list
    is a sublist of the old one and whose URL is not above the old one. *)
Theorem index_entries_only_shrink (tr tr' : list label) (s s' : state)
    (K : string * string) (a : Article) (toks : list string) :
  exec tr init = Some s →
  exec tr' s = Some s' →
  intermediateIndex s !! K = Some (a, toks) →
  ∃ a' toks',
    intermediateIndex s' !! K = Some (a', toks') ∧
    toks' `sublist_of` toks ∧ StrOrd.le (url a') (url a) ∧
    title a' = title a.
Proof.
  intros Hex Hex'.
  pose proof (reachable_agg_inv _ _ _ _ _ _ _ Hex) as Hinv. clear Hex.
  revert s Hinv a toks Hex'.
  induction tr' as [|l tr' IH]; intros s Hinv a toks; simpl.
  - intros [= <-] Hlk. exists a, toks.
    split_and!; [done|done|apply reflexivity|done].
  - destruct (step l s) as [s1|] eqn:Hstep; [|done]. simpl.
    intros Hex' Hlk.
    pose proof (step_agg_inv _ _ _ _ _ _ _ _ Hinv Hstep) as Hinv1.
    assert (∃ a1 toks1, intermediateIndex s1 !! K = Some (a1, toks1) ∧
              toks1 `sublist_of` toks ∧ StrOrd.le (url a1) (url a) ∧
              title a1 = title a) as (a1 & toks1 & Hlk1 & Hs1 & Hu1 & Ht1).
    { destruct (step_intermediate _ _ _ _ _ _ _ _ Hstep) as [->|(b & btoks & ->)].
      - exists a, toks. split_and!; [done|done|apply reflexivity|done].
      - by apply mergeUpdate_shrinks; [apply (ai_index _ _ Hinv)|]. }
    destruct (IH s1 Hinv1 a1 toks1 Hex' Hlk1) as (a' & toks' & ? & ? & ? & ?).
    exists a', toks'. split_and!; [done|by etrans|by etrans|congruence].
Qed.

End MergeProperties.

(** ** The command line (news-aggregator.cc, lines 33-65) *)

Section CommandLineProperties.

(** X15.  The last option of each kind decides.  When [getopt_long] reports only
    the options v, q and u and no argument is left over, the aggregator is
    created; its feed list is the argument of the last u, or
    [small-feed.xml] when there is no u; it is quiet when the last of the
    v's and q's is a q, and verbose otherwise. *)
Theorem createNewsAggregator_last_option_wins (argc optind : Z)
    (results : list (Z * string)) :
  Forall recognized results →
  (argc - optind ≤ 0)%Z →
  ∃ uri verbose,
    createNewsAggregator argc results optind = Created uri verbose ∧
    (Forall (λ r, r.1 ≠ ch_u) results → uri = kDefaultRSSFeedListURL) ∧
    (∀ before optarg after,
       results = before ++ (ch_u, optarg) :: after →
       Forall (λ r, r.1 ≠ ch_u) after → uri = optarg) ∧
    (Forall (λ r, r.1 ≠ ch_v ∧ r.1 ≠ ch_q) results → verbose = true) ∧
    (∀ before ch optarg after,
       results = before ++ (ch, optarg) :: after →
       ch = ch_v ∨ ch = ch_q →
       Forall (λ r, r.1 ≠ ch_v ∧ r.1 ≠ ch_q) after →
       verbose = bool_decide (ch = ch_v)).
Proof.
  intros Hall Harg. unfold createNewsAggregator.
  destruct (parseOptions_recognized results kDefaultRSSFeedListURL true Hall)
    as (uri & verbose & Hp).
  rewrite Hp, decide_False by lia. exists uri, verbose.
  split_and!; [done|..].
  - intros Hnu.
    destruct (parseOptions_no_u results kDefaultRSSFeedListURL true Hall Hnu)
      as [v' Hp']. congruence.
  - intros before optarg after -> Hnu.
    apply Forall_app in Hall as [Hb Ha].
    apply Forall_cons in Ha as [_ Ha].
    rewrite parseOptions_app in Hp.
    destruct (parseOptions_recognized before kDefaultRSSFeedListURL true Hb)
      as (u1 & v1 & Hp1).
    rewrite Hp1 in Hp. simpl in Hp.
    destruct (parseOptions_no_u after optarg v1 Ha Hnu) as [v' Hp'].
    congruence.
  - intros Hnvq.
    destruct (parseOptions_only_u results kDefaultRSSFeedListURL true
                Hall Hnvq) as [u' Hp']. congruence.
  - intros before ch optarg after -> Hch Hnvq.
    apply Forall_app in Hall as [Hb Ha].
    apply Forall_cons in Ha as [_ Ha].
    rewrite parseOptions_app in Hp.
    destruct (parseOptions_recognized before kDefaultRSSFeedListURL true Hb)
      as (u1 & v1 & Hp1).
    rewrite Hp1 in Hp. simpl in Hp.
    destruct Hch as [-> | ->].
    + destruct (parseOptions_only_u after u1 true Ha Hnvq) as [u' Hp'].
      rewrite decide_True in Hp by done.
      rewrite bool_decide_eq_true_2 by done. congruence.
    + destruct (parseOptions_only_u after u1 false Ha Hnvq) as [u' Hp'].
      rewrite decide_False, decide_True in Hp by done.
      rewrite bool_decide_eq_false_2 by done. congruence.
Qed.

(** X16.  A flag that the [switch] does not know, or an argument left over, ends
    in [printUsage], and no aggregator is created by that time: the first
    for the first unknown flag wherever it stands, the second only when all
    flags are known. *)
Theorem createNewsAggregator_usage (argc optind : Z)
    (results : list (Z * string)) :
  (¬ Forall recognized results →
     createNewsAggregator argc results optind = Usage "Unrecognized flag.") ∧
  (Forall recognized results → (0 < argc - optind)%Z →
     createNewsAggregator argc results optind = Usage "Too many arguments.").
Proof.
  unfold createNewsAggregator. split.
  - intros Hnot.
    assert (∀ uri verbose, parseOptions results uri verbose = None) as ->;
      [|done].
    induction results as [|[ch optarg] results IH]; intros uri verbose.
    { destruct Hnot. constructor. }
    simpl.
    destruct (decide (recognized (ch, optarg))) as [Hr|Hr].
    + assert (¬ Forall recognized results) as Hnot'.
      { intros Hall. apply Hnot. by constructor. }
      repeat case_decide; try done; by apply IH.
    + unfold recognized in Hr. simpl in Hr.
      repeat case_decide; try done; destruct Hr; auto.
  - intros Hall Harg.
    destruct (parseOptions_recognized results kDefaultRSSFeedListURL true
                Hall) as (uri & verbose & ->).
    by rewrite decide_True.
Qed.

End CommandLineProperties.

Section CrawlComplete.

Variable getURLServer : string → string.
Variable rssFeedListURI : string.
Variable parseFeedList : string → option (gmap string string).
Variable parseFeed : string → option (list Article).
Variable parseDocument : string → option (list string).

Import Aggregator CrawlLog.

Local Abbreviation exec_log :=
  (CrawlLog.exec_log getURLServer rssFeedListURI parseFeedList parseFeed
     parseDocument).

(** X17.  When [buildIndex] has waited for the feed pool, nothing that the crawl
    came across has been dropped.  Every feed of the feed list has been
    fetched; every article of a feed that was fetched and parsed has been
    fetched; and every document that was fetched and parsed is accounted for
    in the intermediate index: there is an entry under its title and server,
    whose URL is not greater than the document's and whose tokens occur at
    most as often as in the document.  Feeds and articles share [seenURLs],
    so that a URL is fetched as what it was first claimed as: a feed whose
    URL an article thunk claimed first is fetched as a document, and
    conversely. *)
Theorem crawl_drops_nothing (tr : list label) (s : state)
    (h : list event) (feeds : gmap string string) :
  parseFeedList rssFeedListURI = Some feeds →
  exec_log tr init [] = Some (s, h) →
  drained s →
  (∀ feedURL feedTitle, feeds !! feedURL = Some feedTitle →
     fetched_as feedURL h) ∧
  (∀ feedURL articles a,
     EFeed feedURL ∈ h → parseFeed feedURL = Some articles → a ∈ articles →
     fetched_as (url a) h) ∧
  (∀ a tokens,
     EDoc a ∈ h → parseDocument (url a) = Some tokens →
     ∃ e, intermediateIndex s !! keyOf getURLServer a = Some e ∧
          StrOrd.le (url e.1) (url a) ∧
          ∀ x, occ x e.2 ≤ occ x tokens).
Proof.
  intros Hfeeds Hex Hdr.
  pose proof (exec_log_exec _ _ _ _ _ _ _ _ _ _ Hex) as Hex'.
  pose proof (reachable_agg_inv _ _ _ _ _ _ _ Hex') as Hagg.
  assert (crawl_inv parseFeed parseDocument feeds s h) as [H1 H2 H3 H4].
  { eapply exec_log_crawl_inv; [exact Hfeeds|apply init_agg_inv| |exact Hex].
    by apply crawl_inv_init. }
  destruct (drained_live _ _ Hagg Hdr) as [HlF HlA].
  destruct Hdr as [Hb Hm].
  assert (∀ u, u ∈ seenURLs s → fetched_as u h) as Hseen.
  { intros u Hu. destruct (H2 u Hu) as [[k Hk]|[(k & a & Hk & _)|Hf]].
    - by rewrite (live_zero_not_running _ _ HlF) in Hk.
    - by rewrite (live_zero_not_running _ _ HlA) in Hk.
    - done. }
  split_and!.
  - intros feedURL feedTitle Hf. apply Hseen.
    destruct (H1 Hb) with (f := (feedURL, feedTitle)) as [Hin|[Hin|Hin]].
    + by destruct Hm as [-> | ->].
    + by apply elem_of_map_to_list.
    + destruct Hm as [Hm|Hm]; rewrite Hm in Hin; by apply elem_of_nil in Hin.
    + by apply in_pool_drained in Hin.
    + done.
  - intros feedURL articles a Hu Hp Ha. apply Hseen.
    destruct (H3 _ _ _ Hu Hp Ha) as [(k & c & Hk & _)|[Hin|Hin]].
    + by rewrite (live_zero_not_running _ _ HlF) in Hk.
    + by apply in_pool_drained in Hin.
    + done.
  - intros a tokens Ha Hp.
    destruct (H4 _ _ Ha Hp) as [[k Hk]|Hin].
    { by rewrite (live_zero_not_running _ _ HlA) in Hk. }
    rewrite (ai_merged _ _ Hagg).
    pose proof (fold_entry getURLServer (keyOf getURLServer a) (merged s))
      as Hfold.
    assert ((a, sort tokens) ∈ dupsOf getURLServer (keyOf getURLServer a)
                                 (merged s)) as Hd.
    { apply list_elem_of_filter. by split. }
    destruct (dupsOf getURLServer (keyOf getURLServer a) (merged s))
      as [|d ds] eqn:Hdups; [by apply elem_of_nil in Hd|].
    destruct Hfold as (e & He & _ & _ & Hmin & _ & Hocc).
    exists e. split_and!; [done|by apply (Hmin _ Hd)|].
    intros x. destruct (Hocc x) as [Hle _].
    specialize (Hle _ Hd). simpl in Hle. by rewrite occ_sort in Hle.
Qed.

End CrawlComplete.

Lemma crawl_drops_nothing_witness :
  CrawlLog.exec_log Demo.getURLServer Demo.rssFeedListURI Demo.parseFeedList
    Demo.parseFeed Demo.parseDocument Demo.whole_run.1 Aggregator.init []
    = Some (Demo.whole_run.2, whole_run_fetches) ∧
  (∀ feedURL feedTitle : string,
     (<["f2" := "Two"]> (<["f1" := "One"]> ∅) : gmap string string)
       !! feedURL = Some feedTitle →
     fetched_as feedURL whole_run_fetches) ∧
  (∀ feedURL articles a,
     CrawlLog.EFeed feedURL ∈ whole_run_fetches →
     Demo.parseFeed feedURL = Some articles → a ∈ articles →
     fetched_as (url a) whole_run_fetches) ∧
  (∀ a tokens,
     CrawlLog.EDoc a ∈ whole_run_fetches →
     Demo.parseDocument (url a) = Some tokens →
     ∃ e, Aggregator.intermediateIndex Demo.whole_run.2
            !! keyOf Demo.getURLServer a = Some e ∧
          StrOrd.le (url e.1) (url a) ∧
          ∀ x, occ x e.2 ≤ occ x tokens).
Proof.
  split; [vm_compute; reflexivity|].
  apply (crawl_drops_nothing Demo.getURLServer Demo.rssFeedListURI
           Demo.parseFeedList Demo.parseFeed Demo.parseDocument
           Demo.whole_run.1).
  - vm_compute. reflexivity.
  - vm_compute. reflexivity.
  - split; [vm_compute; reflexivity|left; vm_compute; reflexivity].
Defined.

(** ** The properties on concrete runs *)

Section PoolRuns.

Import Clients.


Lemma pool_makes_progress_witness :
  ∃ s : Clients.state unit,
    exec one_dispatch (init 1 1) = Some s ∧
    live (pool s) = 1 ∧
    ((∃ c, (clients s !! c = Some CPushed ∨ clients s !! c = Some CCounted) ∧
           is_Some (step (LClient c) s)) ∨
     is_Some (step LDispatcher s) ∨
     (∃ k, is_Some (step (LWorker k) s)) ∨
     (∃ k, is_Some (running k (pool s)) ∧
           is_Some (step (LThunk k Returns) s))).
Proof.
  eexists. split; [vm_compute; reflexivity|].
  split; [vm_compute; reflexivity|].
  apply (pool_makes_progress 1 1 one_dispatch).
  - lia.
  - vm_compute. reflexivity.
  - vm_compute. reflexivity.
  - vm_compute. discriminate.
Defined.

Lemma zero_thread_pool_never_runs_witness :
  ∃ s : Clients.state unit,
    exec one_signal (init 0 1) = Some s ∧
    pendingThunks (pool s) = 1%Z ∧
    thunkQueue (pool s) = [()] ∧
    (workerVector (pool s) = [] ∧
     spawnLog (pool s) = [] ∧
     (∀ k, running k (pool s) = None) ∧
     live (pool s) = length (thunkQueue (pool s)) ∧
     ∀ tr' s' c s'',
       pendingThunks (pool s) ≠ 0%Z → exec tr' s = Some s' →
       ¬ wait_returns c s' s'').
Proof.
  eexists. split; [vm_compute; reflexivity|].
  split; [vm_compute; reflexivity|].
  split; [vm_compute; reflexivity|].
  apply (zero_thread_pool_never_runs 1 one_signal).
  vm_compute. reflexivity.
Defined.

Lemma dispatcher_reuses_before_spawning_witness :
  ∃ (s : Clients.state unit) p',
    exec to_scan (init 2 1) = Some s ∧
    dispatcherThread (pool s) = DScan ∧
    dispatcher (pool s) = Some p' ∧
    spawnLog p' = [0] ∧
    ∃ j w,
      dispatcherThread p' = DPop (Z.of_nat j) ∧
      workerVector (pool s) !! j = Some w ∧ workerInUse w = false ∧
      (∀ i w', i < j → workerVector (pool s) !! i = Some w' →
         workerInUse w' = true ∧ is_Some (workerThread w')) ∧
      workerInUse <$> workerVector p' !! j = Some true ∧
      (∀ i, i ≠ j → workerVector p' !! i = workerVector (pool s) !! i) ∧
      j ≤ nextSpawnID (pool s) ∧
      (j < nextSpawnID (pool s) →
         nextSpawnID p' = nextSpawnID (pool s) ∧
         spawnLog p' = spawnLog (pool s) ∧
         workerThread <$> workerVector p' !! j = Some (workerThread w)) ∧
      (j = nextSpawnID (pool s) →
         nextSpawnID p' = S j ∧
         spawnLog p' = spawnLog (pool s) ++ [j] ∧
         workerThread w = None ∧
         workerThread <$> workerVector p' !! j = Some (Some WWait)).
Proof.
  do 2 eexists. split; [vm_compute; reflexivity|].
  split; [vm_compute; reflexivity|].
  split; [vm_compute; reflexivity|].
  split; [vm_compute; reflexivity|].
  apply (dispatcher_reuses_before_spawning 2 1 to_scan).
  - vm_compute. reflexivity.
  - vm_compute. reflexivity.
  - vm_compute. reflexivity.
Defined.

End PoolRuns.

Section HistoryRuns.

Import Clients History.

Lemma thunks_leave_queue_in_order_witness :
  ∃ (s : Clients.state string) h,
    exec_log early_return (init 1 2) no_history = Some (s, h) ∧
    pushed h = ["tB"; "tA"] ∧ popped h = ["tB"] ∧
    thunkQueue (pool s) = ["tA"] ∧
    pushed h = popped h ++ thunkQueue (pool s).
Proof.
  do 2 eexists. split; [vm_compute; reflexivity|].
  split; [vm_compute; reflexivity|].
  split; [vm_compute; reflexivity|].
  split; [vm_compute; reflexivity|].
  apply (thunks_leave_queue_in_order 1 2 early_return).
  vm_compute. reflexivity.
Defined.

Lemma thunks_run_once_witness :
  ∃ (s : Clients.state string) h,
    exec_log one_counted (init 1 1) no_history = Some (s, h) ∧
    finished h = ["t"] ∧
    (∀ t, count t (finished h) ≤ count t (started h) ∧
          count t (started h) ≤ count t (popped h) ∧
          count t (popped h) ≤ count t (pushed h)) ∧
    (live (pool s) = 0 →
       popped h = pushed h ∧ started h ≡ₚ pushed h ∧
       finished h ≡ₚ pushed h).
Proof.
  do 2 eexists. split; [vm_compute; reflexivity|].
  split; [vm_compute; reflexivity|].
  apply (thunks_run_once 1 1 one_counted).
  vm_compute. reflexivity.
Defined.

Lemma wait_returns_when_all_ran_witness :
  ∃ (s s' : Clients.state string) h,
    exec_log one_counted (init 1 1) no_history = Some (s, h) ∧
    step (LWait 0) s = Some s' ∧
    pushed h = ["t"] ∧
    finished h ≡ₚ pushed h ∧ thunkQueue (pool s') = [] ∧
    ∀ k, running k (pool s') = None.
Proof.
  do 3 eexists. split; [vm_compute; reflexivity|].
  split; [vm_compute; reflexivity|].
  split; [vm_compute; reflexivity|].
  eapply (wait_returns_when_all_ran 1 1 one_counted _ _ _ 0).
  - vm_compute. reflexivity.
  - vm_compute. reflexivity.
  - split; [left|]; vm_compute; reflexivity.
Defined.

End HistoryRuns.

Section ShutdownRuns.

Import Shutdown.

Lemma destructor_drains_first_witness :
  ∃ (s0 : Clients.state unit) (s : Shutdown.state unit),
    Clients.exec one_thunk (Clients.init 1 1) = Some s0 ∧
    exec 7 (LDestructor :: from_flag) (enter (Clients.pool s0)) = Some s ∧
    destructorThread s = XDone ∧
    (past_wait (destructorThread s) = true →
       thunkQueue (pool s) = [] ∧ pendingThunks (pool s) = 0%Z ∧
       (∀ k, running k (pool s) = None) ∧ terminated s = false) ∧
    exitFlag (pool s) = past_flag (destructorThread s) ∧
    (exitFlag (pool s) = false →
       dispatcherThread (pool s) ≠ DExit ∧
       ∀ j w, workerVector (pool s) !! j = Some w →
         workerThread w ≠ Some WExit).
Proof.
  do 2 eexists. split; [vm_compute; reflexivity|].
  split; [vm_compute; reflexivity|].
  split; [vm_compute; reflexivity|].
  eapply (destructor_drains_first 7 1 1 one_thunk _ (LDestructor :: from_flag)).
  - vm_compute. reflexivity.
  - vm_compute. reflexivity.
  - vm_compute. reflexivity.
  - vm_compute. reflexivity.
Defined.

Lemma destructor_terminates_witness :
  ∃ (s0 : Clients.state unit) (s s' : Shutdown.state unit),
    Clients.exec one_thunk (Clients.init 1 1) = Some s0 ∧
    exec 7 [LDestructor] (enter (Clients.pool s0)) = Some s ∧
    destructorThread s = XFlag ∧
    exec 7 from_flag s = Some s' ∧
    steps_left s = 12 ∧
    length from_flag + steps_left s' = steps_left s ∧
    ((∀ l, step 7 l s' = None) ↔ destructorThread s' = XDone) ∧
    (destructorThread s' = XDone →
       dispatcherThread (pool s') = DExit ∧
       ∀ j w, workerVector (pool s') !! j = Some w →
         workerThread w = (if decide (j < nextSpawnID (pool s'))
                           then Some WExit else None)).
Proof.
  do 3 eexists. split; [vm_compute; reflexivity|].
  split; [vm_compute; reflexivity|].
  split; [vm_compute; reflexivity|].
  split; [vm_compute; reflexivity|].
  split; [vm_compute; reflexivity|].
  eapply (destructor_terminates 7 1 1 one_thunk _ [LDestructor] from_flag).
  - vm_compute. reflexivity.
  - vm_compute. reflexivity.
  - vm_compute. reflexivity.
  - vm_compute. reflexivity.
  - vm_compute. reflexivity.
  - vm_compute. reflexivity.
Defined.

Lemma destructor_never_deadlocks_witness :
  ∃ (s0 : Clients.state unit) (s : Shutdown.state unit),
    Clients.exec one_dispatch (Clients.init 1 1) = Some s0 ∧
    exec 7 [LDestructor] (enter (Clients.pool s0)) = Some s ∧
    destructorThread s = XBlocked ∧
    (is_Some (step 7 LDestructor s) ∨ is_Some (step 7 LDispatcher s) ∨
     (∃ k, is_Some (step 7 (LWorker k) s)) ∨
     (∃ k, is_Some (step 7 (LThunk k Clients.Returns) s))).
Proof.
  do 2 eexists. split; [vm_compute; reflexivity|].
  split; [vm_compute; reflexivity|].
  split; [vm_compute; reflexivity|].
  eapply (destructor_never_deadlocks 7 1 1 one_dispatch _ [LDestructor]).
  - lia.
  - vm_compute. reflexivity.
  - vm_compute. reflexivity.
  - vm_compute. reflexivity.
  - vm_compute. reflexivity.
  - vm_compute. reflexivity.
  - vm_compute. discriminate.
Defined.

End ShutdownRuns.

Section CrawlRuns.

Import Aggregator.

Lemma index_one_entry_per_key_witness :
  index Demo.whole_run.2 =
    [(mkArticle "http://a.com/1" "X", ["b"; "b"; "c"])] ∧
  (index Demo.whole_run.2 = [] ∨
   index Demo.whole_run.2 =
     (in_order pair_ltb (intermediateIndex Demo.whole_run.2)).*2) ∧
  NoDup (keyOf Demo.getURLServer <$> (index Demo.whole_run.2).*1) ∧
  StronglySorted (λ K1 K2, pair_ltb K2 K1 = false)
    (keyOf Demo.getURLServer <$> (index Demo.whole_run.2).*1) ∧
  (∀ a toks, (a, toks) ∈ index Demo.whole_run.2 →
     intermediateIndex Demo.whole_run.2 !! keyOf Demo.getURLServer a
       = Some (a, toks) ∧
     StronglySorted StrOrd.le toks).
Proof.
  split; [vm_compute; reflexivity|].
  apply (index_one_entry_per_key Demo.getURLServer Demo.rssFeedListURI
           Demo.parseFeedList Demo.parseFeed Demo.parseDocument
           Demo.whole_run.1).
  vm_compute. reflexivity.
Defined.

Lemma crawl_thread_bounds_witness :
  spawnLog (feedPool Demo.whole_run.2) = [0; 1] ∧
  spawnLog (articlePool Demo.whole_run.2) = [0; 1; 2] ∧
  spawnLog (feedPool Demo.whole_run.2)
    = seq 0 (nextSpawnID (feedPool Demo.whole_run.2)) ∧
  nextSpawnID (feedPool Demo.whole_run.2) ≤ kNumFeedWorkers ∧
  spawnLog (articlePool Demo.whole_run.2)
    = seq 0 (nextSpawnID (articlePool Demo.whole_run.2)) ∧
  nextSpawnID (articlePool Demo.whole_run.2) ≤ kNumArticleWorkers ∧
  runCount (λ _, true) (feedPool Demo.whole_run.2) ≤ kNumFeedWorkers ∧
  runCount (λ _, true) (articlePool Demo.whole_run.2) ≤ kNumArticleWorkers.
Proof.
  split; [vm_compute; reflexivity|].
  split; [vm_compute; reflexivity|].
  apply (crawl_thread_bounds Demo.getURLServer Demo.rssFeedListURI
           Demo.parseFeedList Demo.parseFeed Demo.parseDocument
           Demo.whole_run.1).
  vm_compute. reflexivity.
Defined.

Lemma buildIndex_never_deadlocks_witness :
  mainThread Demo.crawl.2 = MFlush ∧
  (is_Some (Demo.step LMain Demo.crawl.2) ∨
   is_Some (Demo.step LFeedDispatcher Demo.crawl.2) ∨
   (∃ k, is_Some (Demo.step (LFeedWorker k) Demo.crawl.2)) ∨
   (∃ k, is_Some (Demo.step (LFeedThunk k) Demo.crawl.2)) ∨
   is_Some (Demo.step LArticleDispatcher Demo.crawl.2) ∨
   (∃ k, is_Some (Demo.step (LArticleWorker k) Demo.crawl.2)) ∨
   (∃ k, is_Some (Demo.step (LArticleThunk k) Demo.crawl.2))).
Proof.
  split; [vm_compute; reflexivity|].
  apply (buildIndex_never_deadlocks Demo.getURLServer Demo.rssFeedListURI
           Demo.parseFeedList Demo.parseFeed Demo.parseDocument
           Demo.crawl.1).
  - vm_compute. reflexivity.
  - vm_compute. discriminate.
Defined.

Lemma index_entries_only_shrink_witness :
  ∃ s,
    Demo.exec first_merge init = Some s ∧
    Demo.exec after_first_merge s = Some Demo.whole_run.2 ∧
    intermediateIndex s !! ("X", "a.com")
      = Some (mkArticle "http://a.com/1" "X", ["a"; "b"; "b"; "c"]) ∧
    intermediateIndex Demo.whole_run.2 !! ("X", "a.com")
      = Some (mkArticle "http://a.com/1" "X", ["b"; "b"; "c"]) ∧
    ∃ a' toks',
      intermediateIndex Demo.whole_run.2 !! ("X", "a.com")
        = Some (a', toks') ∧
      toks' `sublist_of` ["a"; "b"; "b"; "c"] ∧
      StrOrd.le (url a') "http://a.com/1" ∧
      title a' = "X".
Proof.
  eexists. split; [vm_compute; reflexivity|].
  split; [vm_compute; reflexivity|].
  split; [vm_compute; reflexivity|].
  split; [vm_compute; reflexivity|].
  eapply (index_entries_only_shrink Demo.getURLServer Demo.rssFeedListURI
           Demo.parseFeedList Demo.parseFeed Demo.parseDocument
           first_merge after_first_merge _ Demo.whole_run.2 ("X", "a.com")
           (mkArticle "http://a.com/1" "X") ["a"; "b"; "b"; "c"]).
  - vm_compute. reflexivity.
  - vm_compute. reflexivity.
  - vm_compute. reflexivity.
Defined.

End CrawlRuns.

Section CommandLineRuns.

Lemma createNewsAggregator_last_option_wins_witness :
  createNewsAggregator 5
    [(ch_u, "a.xml"); (ch_q, "-"); (ch_u, "b.xml"); (ch_v, "-")] 5
  = Created "b.xml" true.
Proof.
  destruct (createNewsAggregator_last_option_wins 5 5
    [(ch_u, "a.xml"); (ch_q, "-"); (ch_u, "b.xml"); (ch_v, "-")])
    as (uri & verbose & Hc & _ & Hu & _ & Hv).
  - do 4 (apply List.Forall_cons; [unfold recognized; simpl; auto|]).
    apply List.Forall_nil.
  - lia.
  - rewrite Hc.
    rewrite (Hu [(ch_u, "a.xml"); (ch_q, "-")] "b.xml" [(ch_v, "-")]
               eq_refl);
      [|apply List.Forall_cons; [done|apply List.Forall_nil]].
    rewrite (Hv [(ch_u, "a.xml"); (ch_q, "-"); (ch_u, "b.xml")] ch_v "-" []
               eq_refl (or_introl eq_refl)); [|apply List.Forall_nil].
    reflexivity.
Defined.

Lemma createNewsAggregator_usage_witness :
  createNewsAggregator 3 [(ch_v, "-"); (120%Z, "-"); (ch_q, "-")] 3
    = Usage "Unrecognized flag." ∧
  createNewsAggregator 4 [(ch_v, "-")] 2 = Usage "Too many arguments.".
Proof.
  split.
  - apply (createNewsAggregator_usage 3 3
             [(ch_v, "-"); (120%Z, "-"); (ch_q, "-")]).
    intros Hall. apply Forall_cons in Hall as [_ Hall].
    apply Forall_cons in Hall as [Hr _].
    unfold recognized in Hr. simpl in Hr.
    destruct Hr as [?|[?|?]]; discriminate.
  - apply (createNewsAggregator_usage 4 2 [(ch_v, "-")]).
    + apply List.Forall_cons; [unfold recognized; simpl; auto|].
      apply List.Forall_nil.
    + lia.
Defined.

End CommandLineRuns.
